(** * Messaging relay: framing, datagram reassembly and routing

    A shallow embedding of [server.py] and [client.py]: the length-prefixed
    frame codec, the chunked datagram file transfer, and the connection
    registry with its group directory and command router. *)

From Stdlib Require Import ZArith List Lia.
From Stdlib Require Import Strings.Byte Strings.Ascii Strings.String.
From Stdlib Require Import Numbers.DecimalString.
From stdpp Require Import base option list list_numbers gmap.

Open Scope Z_scope.

(** Python [str]: a sequence of code points.  Python [bytes]: a list of
    [byte]. *)
Abbreviation text := (list Z).
Abbreviation bytes := (list byte).

(** ** Bytes, [struct] and the UTF-8 codec *)

Module Wire.

Global Instance byte_eq_dec : EqDecision byte := Byte.byte_eq_dec.

Definition byte_of_Z (z : Z) : byte := default x00 (Byte.of_N (Z.to_N z)).
Definition Z_of_byte (b : byte) : Z := Z.of_N (Byte.to_N b).

(** [struct.pack('!I', n)]: four bytes, most significant first;
    [struct.error] ([None]) outside [0, 2^32). *)
Definition pack_I (n : Z) : option bytes :=
  if bool_decide (0 ≤ n < 2 ^ 32) then
    Some [byte_of_Z (n / 2 ^ 24); byte_of_Z (n / 2 ^ 16 mod 256);
          byte_of_Z (n / 2 ^ 8 mod 256); byte_of_Z (n mod 256)]
  else None.

(** [struct.unpack('!I', data)[0]]: exactly four bytes are required. *)
Definition unpack_I (data : bytes) : option Z :=
  match data with
  | [a; b; c; d] =>
      Some (((Z_of_byte a * 256 + Z_of_byte b) * 256 + Z_of_byte c) * 256
            + Z_of_byte d)
  | _ => None
  end.

(** [struct.pack('!II', a, b)] and [struct.unpack('!II', data)]. *)
Definition pack_II (a b : Z) : option bytes :=
  ha ← pack_I a; hb ← pack_I b; Some (ha ++ hb).

Definition unpack_II (data : bytes) : option (Z * Z) :=
  a ← unpack_I (take 4 data);
  b ← unpack_I (drop 4 data);
  Some (a, b).

(** A string literal of the source, as code points. *)
Definition lit (s : string) : text :=
  (λ a, Z.of_N (N_of_ascii a)) <$> list_ascii_of_string s.

(** [str(n)] for an [int]. *)
Definition str_of_int (n : Z) : text := lit (NilZero.string_of_int (Z.to_int n)).

(** [str.encode('utf-8')] on one code point: the byte values, or [None]
    for [UnicodeEncodeError] (a surrogate) and for what is no code point. *)
Definition utf8_char (c : Z) : option (list Z) :=
  if c <? 0 then None
  else if c <? 0x80 then Some [c]
  else if c <? 0x800 then Some [0xC0 + c / 64; 0x80 + c mod 64]
  else if c <? 0x10000 then
    if (0xD800 <=? c) && (c <? 0xE000) then None
    else Some [0xE0 + c / 4096; 0x80 + c / 64 mod 64; 0x80 + c mod 64]
  else if c <? 0x110000 then
    Some [0xF0 + c / 262144; 0x80 + c / 4096 mod 64;
          0x80 + c / 64 mod 64; 0x80 + c mod 64]
  else None.

Fixpoint utf8_encode (s : text) : option bytes :=
  match s with
  | [] => Some []
  | c :: s' =>
      bs ← utf8_char c;
      rest ← utf8_encode s';
      Some ((byte_of_Z <$> bs) ++ rest)
  end.

Definition is_cont (b : byte) : bool :=
  (0x80 <=? Z_of_byte b) && (Z_of_byte b <? 0xC0).
Definition cont (b : byte) : Z := Z_of_byte b - 0x80.

(** [bytes.decode('utf-8')], strict: [None] for [UnicodeDecodeError]
    (stray continuation byte, truncated or overlong sequence, surrogate,
    value above U+10FFFF). *)
Fixpoint utf8_decode (data : bytes) : option text :=
  match data with
  | [] => Some []
  | b0 :: r0 =>
      let z0 := Z_of_byte b0 in
      if z0 <? 0x80 then cons z0 <$> utf8_decode r0
      else if z0 <? 0xC2 then None
      else if z0 <? 0xE0 then
        match r0 with
        | b1 :: r1 =>
            if is_cont b1
            then cons ((z0 - 0xC0) * 64 + cont b1) <$> utf8_decode r1
            else None
        | _ => None
        end
      else if z0 <? 0xF0 then
        match r0 with
        | b1 :: b2 :: r2 =>
            let c := ((z0 - 0xE0) * 64 + cont b1) * 64 + cont b2 in
            if is_cont b1 && is_cont b2 && (0x800 <=? c)
               && negb ((0xD800 <=? c) && (c <? 0xE000))
            then cons c <$> utf8_decode r2
            else None
        | _ => None
        end
      else if z0 <? 0xF5 then
        match r0 with
        | b1 :: b2 :: b3 :: r3 =>
            let c := (((z0 - 0xF0) * 64 + cont b1) * 64 + cont b2) * 64
                     + cont b3 in
            if is_cont b1 && is_cont b2 && is_cont b3
               && (0x10000 <=? c) && (c <? 0x110000)
            then cons c <$> utf8_decode r3
            else None
        | _ => None
        end
      else None
  end.

(** *** Vocabulary for the statements *)

(** The code points [str.encode] accepts. *)
Definition scalar (c : Z) : Prop :=
  0 ≤ c < 0x110000 ∧ ¬ (0xD800 ≤ c < 0xE000).

End Wire.

(** ** The framed message channel ([send_message] / [receive_message]) *)

Module Channel.
Import Wire.

(** One direction of a stream socket: the segments still to be handed out by
    [recv], in order; the stream has ended when none is left.  A segment is
    what one [recv] can return at most, so every way TCP may cut the byte
    stream is some value of this type. *)
Abbreviation stream := (list bytes).

(** [sock.recv(n)]: at most [n] bytes of the next segment; [b''] at the end
    of the stream. *)
Definition recv (n : nat) (s : stream) : bytes * stream :=
  match s with
  | [] => ([], [])
  | seg :: rest =>
      if bool_decide (length seg ≤ n)%nat then (seg, rest)
      else (take n seg, drop n seg :: rest)
  end.

(** [sock.sendall(data)]: the bytes are appended to the stream; nothing is
    written for [b'']. *)
Definition sendall (data : bytes) (s : stream) : stream :=
  match data with [] => s | _ => s ++ [data] end.

(** [send_message] (the same body in [Server] and [Client]): [None] when
    [encode] or [struct.pack] raises. *)
Definition send_message (message : text) (s : stream) : option stream :=
  message_bytes ← utf8_encode message;
  let message_len := Z.of_nat (length message_bytes) in
  header ← pack_I message_len;
  Some (sendall message_bytes (sendall header s)).

(** The loop [while len(message) < message_len: chunk = recv(...)] of
    [receive_message].  A [recv] that returns the whole next segment goes
    round the loop again; one that cuts the segment has filled the message. *)
Fixpoint recv_payload (message_len : Z) (message : bytes) (s : stream)
  : option bytes * stream :=
  if bool_decide (Z.of_nat (length message) < message_len) then
    match s with
    | [] => (None, [])
    | seg :: rest =>
        let n := Z.to_nat (message_len - Z.of_nat (length message)) in
        if bool_decide (length seg ≤ n)%nat then
          match seg with
          | [] => (None, rest)
          | _ => recv_payload message_len (message ++ seg) rest
          end
        else (Some (message ++ take n seg), drop n seg :: rest)
    end
  else (Some message, s).

(** [receive_message]: the decoded text, or [None]. *)
Definition receive_message (s : stream) : option text * stream :=
  let '(length_data, s1) := recv 4 s in
  if bool_decide (length length_data < 4)%nat then (None, s1)
  else
    match unpack_I length_data with
    | None => (None, s1)
    | Some message_len =>
        match recv_payload message_len [] s1 with
        | (Some message, s2) => (utf8_decode message, s2)
        | (None, s2) => (None, s2)
        end
    end.

(** *** Vocabulary for the statements *)

(** The two ways a frame can be cut short. *)
Definition ends_before_prefix (s : stream) : Prop :=
  (length (concat s) < 4)%nat.

Definition ends_mid_payload (s : stream) : Prop :=
  ∃ message_len,
    length (recv 4 s).1 = 4%nat ∧
    unpack_I (recv 4 s).1 = Some message_len ∧
    Z.of_nat (length (concat (recv 4 s).2)) < message_len.

End Channel.

(** ** The datagram chunk transport *)

Module Datagram.
Import Wire.

(** *** Sender: the chunk loop of [Server.send_file_udp] *)

Definition chunk_size : Z := 1024.

(** [while True: chunk = f.read(chunk_size) ...] over the bytes [f] still to
    be read.  The result lists the datagrams handed to [sendto], and tells
    whether the loop ended at the end of the file ([true]) or by
    [struct.error] ([false]).  Each round reads at least one byte, so
    [length f] rounds of [fuel] are enough; [None] is "out of fuel". *)
Fixpoint send_chunks (fuel : nat) (chunk_num : Z) (f : bytes)
  : option (list bytes * bool) :=
  let chunk := take (Z.to_nat chunk_size) f in
  match chunk with
  | [] => Some ([], true)
  | _ =>
      match fuel with
      | O => None
      | S fuel' =>
          match pack_II chunk_num (Z.of_nat (length chunk)) with
          | None => Some ([], false)
          | Some header =>
              '(sent, ok) ← send_chunks fuel' (chunk_num + 1)
                                        (drop (Z.to_nat chunk_size) f);
              Some ((header ++ chunk) :: sent, ok)
          end
      end
  end.

Definition file_datagrams (f : bytes) : option (list bytes * bool) :=
  send_chunks (length f) 0 f.

(** *** Receiver: [Client.receive_file_udp] *)

Record session := Session {
  download_file_size : Z;
  download_chunks : gmap Z bytes;
  download_received : Z
}.

(** [handle_download_start_udp]: an empty chunk map and a zero counter. *)
Definition handle_download_start_udp (file_size : Z) : session :=
  Session file_size ∅ 0.

(** What one [recvfrom(1032)] of the loop does: it returns a datagram, or
    raises [socket.timeout], or raises something else. *)
Inductive udp_event :=
| Datagram (data : bytes)
| SockTimeout
| SockError.

Definition expected_chunks (st : session) : Z :=
  (download_file_size st + 1023) / 1024.

(** The body of the [try] for a received datagram; [None] if
    [struct.unpack] raises. *)
Definition store_datagram (raw : bytes) (st : session) : option session :=
  let data := take 1032 raw in
  if bool_decide (8 ≤ length data)%nat then
    '(chunk_num, chunk_len) ← unpack_II (take 8 data);
    let chunk_data := take (Z.to_nat chunk_len) (drop 8 data) in
    match download_chunks st !! chunk_num with
    | None =>
        Some (Session (download_file_size st)
                      (<[chunk_num := chunk_data]> (download_chunks st))
                      (download_received st + Z.of_nat (length chunk_data)))
    | Some _ => Some st
    end
  else Some st.

(** The state of the receive loop once the events at hand are used up: it
    has left the loop, or it is back in [recvfrom]. *)
Inductive run :=
| Exited (st : session)
| Waiting (st : session).

(** [while self.download_received < self.download_file_size: ...] *)
Fixpoint receive_loop (evs : list udp_event) (st : session) : run :=
  if bool_decide (download_received st < download_file_size st) then
    match evs with
    | [] => Waiting st
    | Datagram raw :: evs' =>
        match store_datagram raw st with
        | Some st' => receive_loop evs' st'
        | None => Exited st
        end
    | SockTimeout :: evs' =>
        if bool_decide (expected_chunks st ≤ Z.of_nat (size (download_chunks st)))
        then Exited st
        else receive_loop evs' st
    | SockError :: _ => Exited st
    end
  else Exited st.

(** [for i in range(expected_chunks): if i in chunks: f.write(chunks[i])] *)
Definition write_file (st : session) : bytes :=
  concat ((λ i, default [] (download_chunks st !! i))
            <$> seqZ 0 (expected_chunks st)).

(** [receive_file_udp]: the bytes written to the output file and whether the
    download is reported as successful; [None] while the loop is running. *)
Definition receive_file_udp (evs : list udp_event) (st : session)
  : option (bytes * bool) :=
  match receive_loop evs st with
  | Exited st' =>
      Some (write_file st',
            bool_decide (download_received st' = download_file_size st'))
  | Waiting _ => None
  end.

(** *** Vocabulary for the statements *)

(** The [i]-th chunk of a file and the number of chunks, as the sender cuts
    them. *)
Definition chunk_of (f : bytes) (i : Z) : bytes :=
  take (Z.to_nat chunk_size) (drop (Z.to_nat (chunk_size * i)) f).

Definition chunk_count (f : bytes) : Z :=
  (Z.of_nat (length f) + 1023) / 1024.

(** [d] is the datagram the sender builds for chunk [i] of [f]. *)
Definition genuine (f : bytes) (i : Z) (d : bytes) : Prop :=
  0 ≤ i < chunk_count f ∧
  ∃ header,
    pack_II i (Z.of_nat (length (chunk_of f i))) = Some header ∧
    d = header ++ chunk_of f i.

(** What the write loop writes for index [i]. *)
Definition piece (m : gmap Z bytes) (i : Z) : bytes := default [] (m !! i).

(** The state of a session that has only been given datagrams of the file
    [f] with indices in [A]. *)
Definition inv (f : bytes) (A : Z → Prop) (st : session) : Prop :=
  download_file_size st = Z.of_nat (length f) ∧
  (∀ i c, download_chunks st !! i = Some c →
          0 ≤ i < chunk_count f ∧ A i ∧ c = chunk_of f i) ∧
  download_received st = Z.of_nat (length (write_file st)).

(** The session state a run of the loop has reached. *)
Definition run_state (r : run) : session :=
  match r with Exited st | Waiting st => st end.

(** The datagrams among the events, in order of arrival. *)
Definition delivered (evs : list udp_event) : list bytes :=
  omap (λ ev, match ev with Datagram d => Some d | _ => None end) evs.

(** The chunk index in the header of a datagram the loop would decode. *)
Definition chunk_index (raw : bytes) : option Z :=
  if bool_decide (8 ≤ length (take 1032 raw))%nat
  then fst <$> unpack_II (take 8 (take 1032 raw))
  else None.

(** Only time-outs and datagrams of [f] with an index in [A]. *)
Definition events_from (f : bytes) (A : Z → Prop) (evs : list udp_event) : Prop :=
  Forall (λ ev, ev = SockTimeout ∨
                ∃ i d, ev = Datagram d ∧ genuine f i d ∧ A i) evs.

(** Termination of a session: after the deliveries, some number of poll
    time-outs ends the loop. *)
Definition session_ends (evs : list udp_event) (st : session) : Prop :=
  ∃ n st', receive_loop (evs ++ replicate n SockTimeout) st = Exited st'.

(** The number of bytes held in a chunk map. *)
Definition stored_bytes (m : gmap Z bytes) : nat :=
  map_fold (λ _ c n, (length c + n)%nat) 0%nat m.

(** The counter counts the bytes in the chunk map, and no chunk in it is
    longer than a datagram can carry. *)
Definition accounted (st : session) : Prop :=
  download_received st = Z.of_nat (stored_bytes (download_chunks st)) ∧
  map_Forall (λ _ c, (length c ≤ 1024)%nat) (download_chunks st).

(** What may reach the receive loop when the only sender is the server
    sending [f]: time-outs, receive errors, and datagrams of [f]. *)
Definition only_from (f : bytes) (evs : list udp_event) : Prop :=
  Forall (λ ev, match ev with
                | Datagram d => ∃ i, genuine f i d
                | _ => True
                end) evs.

End Datagram.

(** ** The server: registry, group directory and command router *)

Module Server.
Import Wire.

(** A connected socket object, by identity. *)
Abbreviation socket := nat.

(** *** Python containers *)

Section Dict.
Context {K V : Type} `{EqDecision K}.

(** A [dict] in insertion order. *)
Fixpoint dict_get (k : K) (d : list (K * V)) : option V :=
  match d with
  | [] => None
  | (k', v) :: d' => if bool_decide (k' = k) then Some v else dict_get k d'
  end.

(** [d[k] = v]: in place for a key that is there, at the end otherwise. *)
Fixpoint dict_set (k : K) (v : V) (d : list (K * V)) : list (K * V) :=
  match d with
  | [] => [(k, v)]
  | (k', v') :: d' =>
      if bool_decide (k' = k) then (k', v) :: d' else (k', v') :: dict_set k v d'
  end.

(** [del d[k]] *)
Definition dict_del (k : K) (d : list (K * V)) : list (K * V) :=
  filter (λ p, p.1 ≠ k) d.

Definition keys (d : list (K * V)) : list K := d.*1.

End Dict.

(** [list.remove(x)]: the first occurrence goes. *)
Fixpoint list_remove `{EqDecision A} (x : A) (l : list A) : list A :=
  match l with
  | [] => []
  | y :: l' => if bool_decide (y = x) then l' else y :: list_remove x l'
  end.

(** [sep.join(parts)] *)
Fixpoint join (sep : text) (parts : list text) : text :=
  match parts with
  | [] => []
  | [p] => p
  | p :: ps => p ++ sep ++ join sep ps
  end.

(** [str.isspace] on one code point. *)
Definition is_space (c : Z) : bool :=
  bool_decide (0x09 ≤ c ≤ 0x0D ∨ 0x1C ≤ c ≤ 0x20 ∨ c = 0x85 ∨ c = 0xA0
               ∨ c = 0x1680 ∨ 0x2000 ≤ c ≤ 0x200A ∨ c = 0x2028 ∨ c = 0x2029
               ∨ c = 0x202F ∨ c = 0x205F ∨ c = 0x3000).

Fixpoint lstrip (s : text) : text :=
  match s with
  | c :: s' => if is_space c then lstrip s' else s
  | [] => []
  end.

(** [str.strip()] *)
Definition strip (s : text) : text := reverse (lstrip (reverse (lstrip s))).

(** [s.split(' ', maxsplit)] *)
Fixpoint split (maxsplit : nat) (s : text) : list text :=
  match maxsplit with
  | O => [s]
  | S k =>
      (fix scan (s : text) : list text :=
         match s with
         | [] => [[]]
         | c :: s' =>
             if bool_decide (c = 32) then [] :: split k s'
             else match scan s' with
                  | p :: ps => (c :: p) :: ps
                  | [] => [[c]]
                  end
         end) s
  end.

(** *** State *)

Record client_info := ClientInfo {
  username : text;
  address : text * Z
}.

(** What the server has put on the network. *)
Inductive event :=
| Sent (sock : socket) (message : text)
| SentBlock (sock : socket) (data : bytes)
| SendFailed (sock : socket)
| SentTo (host : text) (udp_port : Z) (data : bytes).

Global Instance event_eq_dec : EqDecision event.
Proof. solve_decision. Defined.

(** [self.port], [self.clients], [self.groups], together with the sockets
    the server has closed and the trace of what it has sent. *)
Record server := Server {
  port : Z;
  clients : list (socket * client_info);
  groups : list (text * list socket);
  closed : list socket;
  trace : list event
}.

Definition set_clients (c : list (socket * client_info)) (st : server) :=
  Server (port st) c (groups st) (closed st) (trace st).
Definition set_groups (g : list (text * list socket)) (st : server) :=
  Server (port st) (clients st) g (closed st) (trace st).
Definition close (sock : socket) (st : server) :=
  Server (port st) (clients st) (groups st) (sock :: closed st) (trace st).
Definition log (ev : event) (st : server) :=
  Server (port st) (clients st) (groups st) (closed st) (trace st ++ [ev]).

(** A call returns, or raises an exception, in a new state. *)
Inductive outcome :=
| Ok (st : server)
| Raise (st : server).

Definition state_of (r : outcome) : server :=
  match r with Ok st | Raise st => st end.

Definition and_then (r : outcome) (k : server → outcome) : outcome :=
  match r with Ok st => k st | Raise st => Raise st end.

Definition try_except (r : outcome) (handler : server → outcome) : outcome :=
  match r with Ok st => Ok st | Raise st => handler st end.

Notation "'let*' st ':=' r 'in' k" := (and_then r (λ st, k))
  (at level 10, st name, r at level 100, k at level 200).

(** An entry of the shared directory. *)
Inductive fs_entry :=
| Directory
| Regular (content : bytes).

(** A socket that [select] reports as readable: the listening socket, with
    what [accept] and the first [receive_message] on the new connection then
    return ([None] if [accept] raises), or the socket of a client, with what
    [receive_message] returns on it. *)
Inductive ready :=
| Listener (accepted : option (socket * (text * Z) * option text))
| Peer (sock : socket) (received : option text).

Section Environment.

(** Whether [sendall] on a socket raises, given what has been sent so far. *)
Variable link_down : list event → socket → bool.
(** [str.upper] *)
Variable str_upper : text → text.
(** [os.listdir(self.shared_files_path)], [None] if it raises. *)
Variable listdir : option (list text).
(** What is at [os.path.join(self.shared_files_path, filename)]. *)
Variable shared : text → option fs_entry.
(** [str(e)] of a caught exception. *)
Variable exc_str : text.

(** *** Sending *)

(** [send_message]: [encode], [struct.pack] and both [sendall] are inside
    the [try], and whatever they raise is raised again.  The frame goes out
    whole or the call raises. *)
Definition send_message (sock : socket) (message : text) (st : server)
  : outcome :=
  match Channel.send_message message [] with
  | Some _ =>
      if link_down (trace st) sock || bool_decide (sock ∈ closed st)
      then Raise (log (SendFailed sock) st)
      else Ok (log (Sent sock message) st)
  | None => Raise (log (SendFailed sock) st)
  end.

(** [for sock in list(self.clients.keys()): ...] of [broadcast_message],
    over the snapshot, with [remove] for [self.remove_client]. *)
Definition broadcast_loop (remove : socket → server → option server)
    (message : text) (exclude_socket : option socket)
  : list socket → server → option server :=
  fix go snapshot st :=
    match snapshot with
    | [] => Some st
    | sock :: rest =>
        if bool_decide (Some sock ≠ exclude_socket) then
          match send_message sock message st with
          | Ok st1 => go rest st1
          | Raise st1 => st2 ← remove sock st1; go rest st2
          end
        else go rest st
    end.

(** [for group_name in list(self.groups.keys()): ...] of [remove_client];
    each key of a [dict] is visited once. *)
Fixpoint purge_groups (sock : socket) (gs : list (text * list socket))
  : list (text * list socket) :=
  match gs with
  | [] => []
  | (group_name, members) :: rest =>
      if bool_decide (sock ∈ members) then
        match list_remove sock members with
        | [] => purge_groups sock rest
        | members' => (group_name, members') :: purge_groups sock rest
        end
      else (group_name, members) :: purge_groups sock rest
  end.

(** [remove_client], which broadcasts the leave message, which may call
    [remove_client] again: [fuel] bounds that nesting, [None] is "out of
    fuel". *)
Fixpoint remove_client_fuel (fuel : nat) (sock : socket) (st : server)
  : option server :=
  match dict_get sock (clients st) with
  | Some info =>
      match fuel with
      | O => None
      | S fuel' =>
          let st1 := set_groups (purge_groups sock (groups st)) st in
          let st2 := set_clients (dict_del sock (clients st1)) st1 in
          let st3 := close sock st2 in
          let leave_msg := username info ++ lit " has left" in
          broadcast_loop (remove_client_fuel fuel') leave_msg None
                         (keys (clients st3)) st3
      end
  | None => Some st
  end.

(** Every nested call finds one client fewer, so the number of clients is
    fuel enough. *)
Definition remove_client (sock : socket) (st : server) : server :=
  default st (remove_client_fuel (length (clients st)) sock st).

Definition broadcast_message (message : text) (exclude_socket : option socket)
    (st : server) : server :=
  default st (broadcast_loop (remove_client_fuel (length (clients st)))
                             message exclude_socket (keys (clients st)) st).

(** [unicast_message]: the first client of that name that is not the
    sender. *)
Definition find_target (target_username : text)
    (exclude_socket : option socket) (st : server) : option socket :=
  fst <$> find (λ '(sock, info),
                  bool_decide (username info = target_username)
                  && bool_decide (Some sock ≠ exclude_socket))
               (clients st).

Definition unicast_message (message target_username : text)
    (exclude_socket : option socket) (st : server) : outcome :=
  match find_target target_username exclude_socket st with
  | Some target_socket =>
      match send_message target_socket message st with
      | Ok st1 => Ok st1
      | Raise st1 => Ok (remove_client target_socket st1)
      end
  | None =>
      match exclude_socket with
      | Some sock =>
          send_message sock
            (lit "User '" ++ target_username ++ lit "' not found") st
      | None => Ok st
      end
  end.

(** *** Groups *)

(** [self.clients[sock]['username']]; [KeyError] for a socket that is not
    registered. *)
Definition username_of (sock : socket) (st : server) : option text :=
  username <$> dict_get sock (clients st).

Definition join_group (sock : socket) (group_name : text) (st : server)
  : outcome :=
  let st1 :=
    match dict_get group_name (groups st) with
    | None => set_groups (groups st ++ [(group_name, [])]) st
    | Some _ => st
    end in
  let members := default [] (dict_get group_name (groups st1)) in
  if bool_decide (sock ∉ members) then
    let st2 :=
      set_groups (dict_set group_name (members ++ [sock]) (groups st1)) st1 in
    match username_of sock st2 with
    | None => Raise st2
    | Some _ =>
        send_message sock (lit "Joined group '" ++ group_name ++ lit "'") st2
    end
  else
    send_message sock (lit "Already in group '" ++ group_name ++ lit "'") st1.

Definition leave_group (sock : socket) (group_name : text) (st : server)
  : outcome :=
  match dict_get group_name (groups st) with
  | Some members =>
      if bool_decide (sock ∈ members) then
        let st1 :=
          set_groups
            (dict_set group_name (list_remove sock members) (groups st)) st in
        match username_of sock st1 with
        | None => Raise st1
        | Some _ =>
            let* st2 :=
              send_message sock (lit "Left group '" ++ group_name ++ lit "'") st1 in
              (* Remove empty groups *)
              match dict_get group_name (groups st2) with
              | Some [] => Ok (set_groups (dict_del group_name (groups st2)) st2)
              | _ => Ok st2
              end
        end
      else
        send_message sock (lit "Not in group '" ++ group_name ++ lit "'") st
  | None =>
      send_message sock
        (lit "Group '" ++ group_name ++ lit "' does not exist") st
  end.

(** [for sock in self.groups[group_name]: ...] of [send_group_message].  The
    loop walks the member list itself, by position, while [remove_client]
    takes members out of it; it ends when the position is past the end.  The
    list never grows, so its first length bounds the rounds. *)
Fixpoint group_loop (rounds : nat) (i : nat) (message group_name : text)
    (exclude_socket : option socket) (st : server) : server :=
  match rounds with
  | O => st
  | S rounds' =>
      match default [] (dict_get group_name (groups st)) !! i with
      | None => st
      | Some sock =>
          let st1 :=
            if bool_decide (Some sock ≠ exclude_socket) then
              match send_message sock message st with
              | Ok st1 => st1
              | Raise st1 => remove_client sock st1
              end
            else st in
          group_loop rounds' (S i) message group_name exclude_socket st1
      end
  end.

Definition send_group_message (message group_name : text)
    (exclude_socket : option socket) (st : server) : outcome :=
  match dict_get group_name (groups st) with
  | Some members =>
      Ok (group_loop (length members) 0 message group_name exclude_socket st)
  | None =>
      match exclude_socket with
      | Some sock =>
          send_message sock
            (lit "Group '" ++ group_name ++ lit "' does not exist") st
      | None => Ok st
      end
  end.

(** *** Listings *)

Definition list_users (sock : socket) (st : server) : outcome :=
  let usernames := (λ p, username p.2) <$> clients st in
  send_message sock
    (lit "Connected users (" ++ str_of_int (Z.of_nat (length usernames))
       ++ lit "): " ++ join (lit ", ") usernames) st.

(** One line of [list_groups]. *)
Definition group_line (st : server) (g : text * list socket) : text :=
  let member_names := omap (λ s, username_of s st) g.2 in
  g.1 ++ lit " (" ++ str_of_int (Z.of_nat (length member_names))
      ++ lit " members): " ++ join (lit ", ") member_names.

Definition list_groups (sock : socket) (st : server) : outcome :=
  match groups st with
  | [] => send_message sock (lit "No groups exist") st
  | gs => send_message sock (join [10] (group_line st <$> gs)) st
  end.

Definition list_files (sock : socket) (st : server) : outcome :=
  let handler st := send_message sock
                      (lit "Error accessing SharedFiles: " ++ exc_str) st in
  match listdir with
  | None => handler st
  | Some files =>
      try_except
        (let* st1 :=
           send_message sock
             (lit "Successfully accessed SharedFiles folder. Number of files: "
                ++ str_of_int (Z.of_nat (length files))) st in
           match files with
           | [] => send_message sock (lit "SharedFiles folder is empty") st1
           | _ => send_message sock
                    (lit "Files in SharedFiles:" ++ [10] ++ join [10] files) st1
           end)
        handler
  end.

(** *** File transfer *)

(** A raw [sock.sendall(data)] of [send_file_tcp]. *)
Definition sendall (sock : socket) (data : bytes) (st : server) : outcome :=
  if link_down (trace st) sock || bool_decide (sock ∈ closed st)
  then Raise (log (SendFailed sock) st)
  else Ok (log (SentBlock sock data) st).

(** [while True: chunk = f.read(4096) ...] of [send_file_tcp]; at most
    [length f] rounds. *)
Fixpoint send_blocks (rounds : nat) (sock : socket) (f : bytes) (st : server)
  : outcome :=
  match take 4096 f, rounds with
  | [], _ | _, O => Ok st
  | chunk, S rounds' =>
      match pack_I (Z.of_nat (length chunk)) with
      | None => Raise st
      | Some header =>
          let* st1 := sendall sock header st in
          let* st2 := sendall sock chunk st1 in
          send_blocks rounds' sock (drop 4096 f) st2
      end
  end.

Definition send_file_tcp (sock : socket) (content : bytes) (filename : text)
    (file_size : Z) (st : server) : outcome :=
  try_except
    (let* st1 :=
       send_message sock
         (lit "DOWNLOAD_START:" ++ filename ++ lit ":" ++ str_of_int file_size)
         st in
     let* st2 := send_blocks (length content) sock content st1 in
     send_message sock
       (lit "DOWNLOAD_COMPLETE:" ++ filename ++ lit ":" ++ str_of_int file_size)
       st2)
    (λ st', send_message sock (lit "ERROR: Failed to send file: " ++ exc_str) st').

(** [udp_socket.sendto(datagram, (host, udp_port))]: the address is checked
    before anything is sent, and a port outside [0..65535] raises
    [OverflowError]. *)
Definition sendto (host : text) (udp_port : Z) (datagram : bytes) (st : server)
  : outcome :=
  if bool_decide (0 ≤ udp_port ≤ 65535)
  then Ok (log (SentTo host udp_port datagram) st)
  else Raise st.

(** The [sendto] of the chunk loop, one datagram after the other, up to the
    first that raises. *)
Fixpoint sendto_all (host : text) (udp_port : Z) (datagrams : list bytes)
    (st : server) : outcome :=
  match datagrams with
  | [] => Ok st
  | datagram :: rest =>
      let* st1 := sendto host udp_port datagram st in
      sendto_all host udp_port rest st1
  end.

Definition send_file_udp (sock : socket) (content : bytes) (filename : text)
    (file_size : Z) (st : server) : outcome :=
  try_except
    match dict_get sock (clients st) with
    | None => Raise st
    | Some info =>
        let client_address := address info in
        let* st1 :=
          send_message sock
            (lit "DOWNLOAD_START_UDP:" ++ filename ++ lit ":"
               ++ str_of_int file_size) st in
        let udp_port := port st1 + 1 in
        let* st2 :=
          send_message sock (lit "UDP_PORT:" ++ str_of_int udp_port) st1 in
        match Datagram.file_datagrams content with
        | None => Raise st2
        | Some (datagrams, finished) =>
            let* st3 := sendto_all client_address.1 udp_port datagrams st2 in
            if finished then
              send_message sock
                (lit "DOWNLOAD_COMPLETE_UDP:" ++ filename ++ lit ":"
                   ++ str_of_int file_size) st3
            else Raise st3
        end
    end
    (λ st', send_message sock
              (lit "ERROR: Failed to send file via UDP: " ++ exc_str) st').

Definition handle_file_download (sock : socket) (filename protocol : text)
    (st : server) : outcome :=
  match shared filename with
  | None =>
      send_message sock (lit "ERROR: File '" ++ filename ++ lit "' not found") st
  | Some Directory =>
      send_message sock (lit "ERROR: '" ++ filename ++ lit "' is not a file") st
  | Some (Regular content) =>
      let file_size := Z.of_nat (length content) in
      if bool_decide (str_upper protocol = lit "TCP") then
        send_file_tcp sock content filename file_size st
      else if bool_decide (str_upper protocol = lit "UDP") then
        send_file_udp sock content filename file_size st
      else
        send_message sock
          (lit "ERROR: Invalid protocol '" ++ protocol
             ++ lit "'. Use TCP or UDP") st
  end.

(** *** The command router *)

(** The [if]/[elif] chain of [handle_client_message], for a registered
    sender. *)
Definition dispatch (sock : socket) (username message : text) (st : server)
  : outcome :=
  let parts := split 2 (strip message) in
  let command := str_upper (default [] (parts !! 0%nat)) in
  if bool_decide (command = lit "/LEAVE") then Ok (remove_client sock st)
  else if bool_decide (command = lit "/BROADCAST") then
    match parts !! 1%nat with
    | Some body =>
        Ok (broadcast_message
              (lit "[BROADCAST] " ++ username ++ lit ": " ++ body) (Some sock) st)
    | None => Ok st
    end
  else if bool_decide (command = lit "/UNICAST") then
    match parts with
    | [_; target_username; body] =>
        unicast_message (lit "[UNICAST] " ++ username ++ lit ": " ++ body)
                        target_username (Some sock) st
    | _ => send_message sock (lit "Usage: /UNICAST <username> <message>") st
    end
  else if bool_decide (command = lit "/JOINGROUP") then
    match parts !! 1%nat with
    | Some group_name => join_group sock group_name st
    | None => send_message sock (lit "Usage: /JOINGROUP <group_name>") st
    end
  else if bool_decide (command = lit "/LEAVEGROUP") then
    match parts !! 1%nat with
    | Some group_name => leave_group sock group_name st
    | None => send_message sock (lit "Usage: /LEAVEGROUP <group_name>") st
    end
  else if bool_decide (command = lit "/GROUP") then
    match parts with
    | [_; group_name; body] =>
        send_group_message
          (lit "[GROUP:" ++ group_name ++ lit "] " ++ username ++ lit ": " ++ body)
          group_name (Some sock) st
    | _ => send_message sock (lit "Usage: /GROUP <group_name> <message>") st
    end
  else if bool_decide (command = lit "/LISTFILES") then list_files sock st
  else if bool_decide (command = lit "/DOWNLOAD") then
    match parts !! 1%nat with
    | Some filename =>
        let protocol :=
          match parts !! 2%nat with
          | Some p => str_upper p
          | None => lit "TCP"
          end in
        handle_file_download sock filename protocol st
    | None => send_message sock (lit "Usage: /DOWNLOAD <filename> [TCP|UDP]") st
    end
  else if bool_decide (command = lit "/LISTUSERS") then list_users sock st
  else if bool_decide (command = lit "/LISTGROUPS") then list_groups sock st
  else
    Ok (broadcast_message (username ++ lit ": " ++ message) (Some sock) st).

(** [handle_client_message], given what [self.receive_message(sock)]
    returned. *)
Definition handle_client_message (sock : socket) (received : option text)
    (st : server) : server :=
  match received with
  | None | Some [] => remove_client sock st
  | Some message =>
      match username_of sock st with
      | None => st
      | Some username =>
          match dispatch sock username message st with
          | Ok st' => st'
          | Raise st' => remove_client sock st'
          end
      end
  end.

(** [accept_client], given the new socket, its peer address and what
    [self.receive_message(client_socket)] returned. *)
Definition accept_client (client_socket : socket) (addr : text * Z)
    (received : option text) (st : server) : server :=
  match send_message client_socket
          (lit "Welcome to the Instant Messenger Server!") st with
  | Raise st' => st'
  | Ok st1 =>
      match received with
      | None | Some [] => st1
      | Some username =>
          let st2 :=
            set_clients
              (dict_set client_socket (ClientInfo username addr) (clients st1))
              st1 in
          broadcast_message (username ++ lit " has joined")
                            (Some client_socket) st2
      end
  end.

(** *** The main loop *)

(** [for sock in readable: ...] of [start], one socket. *)
Definition serve_readable (r : ready) (st : server) : server :=
  match r with
  | Listener (Some (client_socket, addr, received)) =>
      accept_client client_socket addr received st
  | Listener None => st
  | Peer sock received => handle_client_message sock received st
  end.

(** [for sock in exceptional: ...] of [start]; [None] stands for the
    listening socket, at which the loop breaks. *)
Fixpoint serve_exceptional (exceptional : list (option socket)) (st : server)
  : server :=
  match exceptional with
  | [] => st
  | None :: _ => st
  | Some sock :: rest => serve_exceptional rest (remove_client sock st)
  end.

(** One round of [while True] in [start], given what [select] returned. *)
Definition select_round (readable : list ready)
    (exceptional : list (option socket)) (st : server) : server :=
  serve_exceptional exceptional (foldl (λ st r, serve_readable r st) st readable).

(** [start], from the state of [__init__], over the rounds of the loop. *)
Definition start (p : Z)
    (rounds : list (list ready * list (option socket))) : server :=
  foldl (λ st round, select_round round.1 round.2 st) (Server p [] [] [] []) rounds.

End Environment.

(** *** Vocabulary for the statements *)

Definition registered (s : socket) (st : server) : Prop :=
  is_Some (dict_get s (clients st)).

Definition in_group (s : socket) (st : server) : Prop :=
  ∃ g m, (g, m) ∈ groups st ∧ s ∈ m.

Definition no_empty_group (st : server) : Prop :=
  ∀ g m, (g, m) ∈ groups st → m ≠ [].

(** Members are listed once and are registered clients. *)
Definition wf (st : server) : Prop :=
  (∀ g m, (g, m) ∈ groups st → NoDup m) ∧
  (∀ s, in_group s st → registered s st).

Definition is_leave (m : text) : Prop := ∃ u, m = u ++ lit " has left".

(** [send_message] to this socket would not raise now. *)
Definition sendable (link_down : list event → socket → bool) (s : socket)
    (m : text) (st : server) : Prop :=
  send_message link_down s m st = Ok (log (Sent s m) st).

(** [evolves msg gone delta st st']: from [st] to [st'] the server has added
    [delta] to its trace; what it sent is a message of [msg] or a leave
    notice; clients and group members have only been taken away, and a
    client has been taken away only after a send to it failed, or because it
    is in [gone]. *)
Record evolves (msg : text → Prop) (gone : socket → Prop) (delta : list event)
    (st st' : server) : Prop := Evolves {
  ev_port : port st' = port st;
  ev_trace : trace st' = trace st ++ delta;
  ev_sent : ∀ s m, Sent s m ∈ delta → msg m ∨ is_leave m;
  ev_clients : ∀ s info, dict_get s (clients st') = Some info →
                         dict_get s (clients st) = Some info;
  ev_length : (length (clients st') ≤ length (clients st))%nat;
  ev_groups : ∀ s, in_group s st' → in_group s st;
  ev_removed : ∀ s, registered s st → ¬ registered s st' →
                    SendFailed s ∈ delta ∨ gone s;
  ev_no_empty : no_empty_group st → no_empty_group st';
  ev_wf : wf st → wf st';
  ev_failed : wf st → ∀ s, SendFailed s ∈ delta →
                           ¬ registered s st' ∧ ¬ in_group s st'
}.

Arguments ev_port {msg gone delta st st'} _.
Arguments ev_trace {msg gone delta st st'} _.
Arguments ev_sent {msg gone delta st st'} _.
Arguments ev_clients {msg gone delta st st'} _.
Arguments ev_length {msg gone delta st st'} _.
Arguments ev_groups {msg gone delta st st'} _.
Arguments ev_removed {msg gone delta st st'} _.
Arguments ev_no_empty {msg gone delta st st'} _.
Arguments ev_wf {msg gone delta st st'} _.
Arguments ev_failed {msg gone delta st st'} _.

(** [remove_client sock] has run from [st] to [st']. *)
Definition removes (sock : socket) (delta : list event) (st st' : server) : Prop :=
  evolves (λ _, False) (λ s, s = sock) delta st st' ∧
  ¬ registered sock st' ∧
  (wf st → ¬ in_group sock st').

(** The first part of [remove_client]: the socket leaves the groups and the
    registry and is closed. *)
Definition unregister (sock : socket) (st : server) : server :=
  let st1 := set_groups (purge_groups sock (groups st)) st in
  let st2 := set_clients (dict_del sock (clients st1)) st1 in
  close sock st2.

(** [emits P st st']: from [st] to [st'] the server has only added events of
    [P] to its trace. *)
Definition emits (P : event → Prop) (st st' : server) : Prop :=
  port st' = port st ∧ clients st' = clients st ∧ groups st' = groups st ∧
  ∃ delta, trace st' = trace st ++ delta ∧ Forall P delta.

(** What [send_file_udp] may put on the network for a download by [sock]
    from a server listening on port [p]. *)
Definition udp_download_event (exc_str : text) (p : Z) (sock : socket)
    (filename : text) (file_size : Z) (ev : event) : Prop :=
  match ev with
  | Sent s m =>
      s = sock ∧
      (m = lit "DOWNLOAD_START_UDP:" ++ filename ++ lit ":" ++ str_of_int file_size
       ∨ m = lit "UDP_PORT:" ++ str_of_int (p + 1)
       ∨ m = lit "DOWNLOAD_COMPLETE_UDP:" ++ filename ++ lit ":"
               ++ str_of_int file_size
       ∨ m = lit "ERROR: Failed to send file via UDP: " ++ exc_str)
  | SendFailed s => s = sock
  | SentTo _ udp_port _ => udp_port = p + 1
  | SentBlock _ _ => False
  end.

Definition step_ok (st st' : server) : Prop :=
  port st' = port st ∧ (wf st → wf st').

(** The states of a server that started on port [p] with no client: each
    step accepts a connection on a fresh socket or handles what it received
    from a socket. *)
Inductive reachable (link_down : list event → socket → bool)
    (str_upper : text → text) (listdir : option (list text))
    (shared : text → option fs_entry) (exc_str : text) (p : Z)
  : server → Prop :=
| reach_start :
    reachable link_down str_upper listdir shared exc_str p (Server p [] [] [] [])
| reach_accept st client_socket addr received :
    reachable link_down str_upper listdir shared exc_str p st →
    ¬ registered client_socket st →
    client_socket ∉ closed st →
    reachable link_down str_upper listdir shared exc_str p
      (accept_client link_down client_socket addr received st)
| reach_message st sock received :
    reachable link_down str_upper listdir shared exc_str p st →
    reachable link_down str_upper listdir shared exc_str p
      (handle_client_message link_down str_upper listdir shared exc_str
         sock received st).

(** From [st] to [st'] no client has been added, and the sockets closed are
    those of the clients taken away. *)
Definition retires (st st' : server) : Prop :=
  (∀ s info, dict_get s (clients st') = Some info →
             dict_get s (clients st) = Some info) ∧
  (∀ s, s ∈ closed st' ↔ s ∈ closed st ∨ (registered s st ∧ ¬ registered s st')).

(** No socket of the registry has been closed. *)
Definition open_registry (st : server) : Prop :=
  ∀ s, registered s st → s ∉ closed st.

(** The sockets [accept] returns in a round of the main loop. *)
Definition accepted_sockets (readable : list ready) : list socket :=
  omap (λ r, match r with
             | Listener (Some (client_socket, _, _)) => Some client_socket
             | _ => None
             end) readable.

(** [accept] returns sockets the server has not seen before. *)
Definition fresh_sockets (readable : list ready) (st : server) : Prop :=
  NoDup (accepted_sockets readable) ∧
  ∀ s, s ∈ accepted_sockets readable → ¬ registered s st ∧ s ∉ closed st.

(** No send has failed in this part of the trace. *)
Definition no_failure (delta : list event) : Prop :=
  ∀ s, SendFailed s ∉ delta.

(** What [send_file_tcp] writes for one block of the file: its length in
    four bytes, then the block. *)
Definition block_events (sock : socket) (b : bytes) : list event :=
  [SentBlock sock (default [] (pack_I (Z.of_nat (length b)))); SentBlock sock b].

End Server.

(** ** The client: message loop, downloads and input *)

Module Client.
Import Wire.

(** [s.split(':')]: cut at every separator. *)
Fixpoint split_all (sep : Z) (s : text) : list text :=
  match s with
  | [] => [[]]
  | c :: s' =>
      if bool_decide (c = sep) then [] :: split_all sep s'
      else match split_all sep s' with
           | p :: ps => (c :: p) :: ps
           | [] => [[c]]
           end
  end.

(** [s.startswith(prefix)] *)
Definition startswith (prefix s : text) : bool :=
  bool_decide (take (length prefix) s = prefix).

(** What the client prints. *)
Inductive notice :=
| Shown (message : text)
| ConnectionLost
| ReceiveError
| SendError
| Help
| Downloaded (filename : text) (file_size : Z)
| Incomplete (filename : text) (received file_size : Z)
| ReceiveFileError
| DownloadedUdp (filename : text) (file_size : Z)
| IncompleteUdp (filename : text) (received file_size : Z)
| ReceiveUdpError
| UdpSetupError
| DownloadComplete (filename : text) (file_size : Z).

(** The attributes of [Client] that the loops use: the two directions of
    the socket, the datagram receiver, the download in progress, and with
    them the files written in the download directory (latest first) and what
    has been printed. *)
Record client := Client {
  running : bool;
  inbox : list bytes;
  outbox : list bytes;
  udp_port : option Z;
  udp_receiver : option Z;
  download_filename : option text;
  download : option Datagram.session;
  files : list (text * bytes);
  console : list notice
}.

Definition stop (c : client) : client :=
  Client false (inbox c) (outbox c) (udp_port c) (udp_receiver c)
         (download_filename c) (download c) (files c) (console c).
Definition set_inbox (s : list bytes) (c : client) : client :=
  Client (running c) s (outbox c) (udp_port c) (udp_receiver c)
         (download_filename c) (download c) (files c) (console c).
Definition set_outbox (s : list bytes) (c : client) : client :=
  Client (running c) (inbox c) s (udp_port c) (udp_receiver c)
         (download_filename c) (download c) (files c) (console c).
Definition set_udp_port (p : Z) (c : client) : client :=
  Client (running c) (inbox c) (outbox c) (Some p) (udp_receiver c)
         (download_filename c) (download c) (files c) (console c).
Definition set_udp_receiver (r : option Z) (c : client) : client :=
  Client (running c) (inbox c) (outbox c) (udp_port c) r
         (download_filename c) (download c) (files c) (console c).
Definition set_download_filename (filename : text) (c : client) : client :=
  Client (running c) (inbox c) (outbox c) (udp_port c) (udp_receiver c)
         (Some filename) (download c) (files c) (console c).
Definition set_download (st : Datagram.session) (c : client) : client :=
  Client (running c) (inbox c) (outbox c) (udp_port c) (udp_receiver c)
         (download_filename c) (Some st) (files c) (console c).
Definition save_file (filename : text) (data : bytes) (c : client) : client :=
  Client (running c) (inbox c) (outbox c) (udp_port c) (udp_receiver c)
         (download_filename c) (download c) ((filename, data) :: files c)
         (console c).
Definition print (n : notice) (c : client) : client :=
  Client (running c) (inbox c) (outbox c) (udp_port c) (udp_receiver c)
         (download_filename c) (download c) (files c) (console c ++ [n]).

(** A handler returns, or raises into the [except] of [receive_messages]. *)
Inductive result :=
| Done (c : client)
| Raised (c : client).

(** The loop [while len(chunk) < chunk_len: data = recv(...)] of
    [receive_file_tcp]; it breaks at an empty [recv]. *)
Fixpoint recv_chunk (chunk_len : Z) (chunk : bytes) (s : list bytes)
  : bytes * list bytes :=
  if bool_decide (Z.of_nat (length chunk) < chunk_len) then
    match s with
    | [] => (chunk, [])
    | seg :: rest =>
        let n := Z.to_nat (chunk_len - Z.of_nat (length chunk)) in
        if bool_decide (length seg ≤ n)%nat then
          match seg with
          | [] => (chunk, rest)
          | _ => recv_chunk chunk_len (chunk ++ seg) rest
          end
        else (chunk ++ take n seg, drop n seg :: rest)
    end
  else (chunk, s).

(** The loop [while received < file_size: ...] of [receive_file_tcp]: the
    bytes written, the counter and what is left of the stream.  A round that
    does not break has read a four-byte length, so the number of bytes in
    the stream is fuel enough; [None] is "out of fuel".  [struct.unpack]
    does not raise on the four bytes read; the loop is left as by [break]
    were it to. *)
Fixpoint receive_blocks (fuel : nat) (file_size received : Z) (written : bytes)
    (s : list bytes) : option (bytes * Z * list bytes) :=
  if bool_decide (received < file_size) then
    let '(length_data, s1) := Channel.recv 4 s in
    if bool_decide (length length_data < 4)%nat then Some (written, received, s1)
    else
      match fuel with
      | O => None
      | S fuel' =>
          match unpack_I length_data with
          | None => Some (written, received, s1)
          | Some chunk_len =>
              let '(chunk, s2) := recv_chunk chunk_len [] s1 in
              receive_blocks fuel' file_size (received + Z.of_nat (length chunk))
                             (written ++ chunk) s2
          end
      end
  else Some (written, received, s).

Section Environment.

(** [int(s)], [None] for [ValueError]. *)
Variable int_of : text → option Z.
(** [str.upper] *)
Variable str_upper : text → text.
(** Whether [open(os.path.join(self.download_dir, filename), 'wb')]
    raises. *)
Variable open_fails : text → bool.
(** Whether [self.udp_socket.bind(('', port))] raises. *)
Variable bind_fails : Z → bool.

(** [Client.send_message]: the frame is written, or the client stops. *)
Definition send_message (message : text) (c : client) : client :=
  match Channel.send_message message (outbox c) with
  | Some s => set_outbox s c
  | None => stop (print SendError c)
  end.

(** [receive_file_tcp] *)
Definition receive_file_tcp (filename : text) (file_size : Z) (c : client)
  : client :=
  if open_fails filename then print ReceiveFileError c
  else
    match receive_blocks (length (concat (inbox c))) file_size 0 []
                         (inbox c) with
    | Some (written, received, s) =>
        print (if bool_decide (received = file_size)
               then Downloaded filename file_size
               else Incomplete filename received file_size)
              (save_file filename written (set_inbox s c))
    | None => c
    end.

(** [receive_file_udp], the thread started by [setup_udp_receiver], over
    what [recvfrom] returns; [None] while the loop is running. *)
Definition receive_file_udp (evs : list Datagram.udp_event) (c : client)
  : option client :=
  match download_filename c, download c with
  | Some filename, Some st =>
      match Datagram.receive_loop evs st with
      | Datagram.Exited st' =>
          let c1 := set_download st' c in
          if open_fails filename
          then Some (set_udp_receiver None (print ReceiveUdpError c1))
          else
            Some (set_udp_receiver None
                    (print (if bool_decide (Datagram.download_received st'
                                            = Datagram.download_file_size st')
                            then DownloadedUdp filename
                                   (Datagram.download_file_size st')
                            else IncompleteUdp filename
                                   (Datagram.download_received st')
                                   (Datagram.download_file_size st'))
                       (save_file filename (Datagram.write_file st') c1)))
      | Datagram.Waiting _ => None
      end
  | _, _ => Some (set_udp_receiver None (print ReceiveUdpError c))
  end.

(** [handle_download_start] *)
Definition handle_download_start (message : text) (c : client) : result :=
  match split_all 58 message with
  | _ :: filename :: size :: _ =>
      match int_of size with
      | Some file_size => Done (receive_file_tcp filename file_size c)
      | None => Raised c
      end
  | _ => Done c
  end.

(** [handle_download_start_udp] *)
Definition handle_download_start_udp (message : text) (c : client) : result :=
  match split_all 58 message with
  | _ :: filename :: size :: _ =>
      let c1 := set_download_filename filename c in
      match int_of size with
      | Some file_size =>
          Done (set_download (Datagram.handle_download_start_udp file_size) c1)
      | None => Raised c1
      end
  | _ => Done c
  end.

(** [setup_udp_receiver]: the socket is bound and the receive thread
    started, or the error is printed. *)
Definition setup_udp_receiver (c : client) : client :=
  match udp_port c with
  | Some p =>
      if bind_fails p then print UdpSetupError c
      else set_udp_receiver (Some p) c
  | None => print UdpSetupError c
  end.

(** [handle_udp_port] *)
Definition handle_udp_port (message : text) (c : client) : result :=
  match split_all 58 message with
  | _ :: p :: _ =>
      match int_of p with
      | Some n => Done (setup_udp_receiver (set_udp_port n c))
      | None => Raised c
      end
  | _ => Done c
  end.

(** [handle_download_complete] *)
Definition handle_download_complete (message : text) (c : client) : result :=
  match split_all 58 message with
  | _ :: filename :: size :: _ =>
      match int_of size with
      | Some file_size => Done (print (DownloadComplete filename file_size) c)
      | None => Raised c
      end
  | _ => Done c
  end.

(** [handle_download_complete_udp] *)
Definition handle_download_complete_udp (message : text) (c : client)
  : result :=
  match split_all 58 message with
  | _ :: filename :: size :: _ =>
      match int_of size with
      | Some file_size => Done c
      | None => Raised c
      end
  | _ => Done c
  end.

(** The [if]/[elif] chain of [receive_messages]. *)
Definition handle_message (message : text) (c : client) : result :=
  if startswith (lit "DOWNLOAD_START:") message
  then handle_download_start message c
  else if startswith (lit "DOWNLOAD_START_UDP:") message
  then handle_download_start_udp message c
  else if startswith (lit "UDP_PORT:") message
  then handle_udp_port message c
  else if startswith (lit "DOWNLOAD_COMPLETE:") message
  then handle_download_complete message c
  else if startswith (lit "DOWNLOAD_COMPLETE_UDP:") message
  then handle_download_complete_udp message c
  else Done (print (Shown message) c).

(** One round of [receive_messages] in which the socket is readable. *)
Definition receive_messages_round (c : client) : client :=
  let '(received, s) := Channel.receive_message (inbox c) in
  let c1 := set_inbox s c in
  match received with
  | None | Some [] => stop (print ConnectionLost c1)
  | Some message =>
      match handle_message message c1 with
      | Done c2 => c2
      | Raised c2 => stop (if running c2 then print ReceiveError c2 else c2)
      end
  end.

(** [receive_messages]: [while self.running: ...], for so many rounds. *)
Fixpoint receive_messages (rounds : nat) (c : client) : client :=
  match rounds with
  | O => c
  | S rounds' =>
      if running c then receive_messages rounds' (receive_messages_round c)
      else c
  end.

(** One round of [handle_input], for the line read; the empty line is the
    end of the input. *)
Definition handle_input_line (line : text) (c : client) : client :=
  match Server.strip line with
  | [] => c
  | user_input =>
      if bool_decide (str_upper user_input = lit "/HELP") then print Help c
      else if bool_decide (str_upper user_input = lit "/QUIT")
              || bool_decide (str_upper user_input = lit "/EXIT")
      then stop (send_message (lit "/LEAVE") c)
      else send_message user_input c
  end.

End Environment.

(** *** Vocabulary for the statements *)

(** What the client connected as [sock] finds in its socket: each
    [sendall] of the server arrives as one segment. *)
Definition arrive (sock : Server.socket) (s : list bytes) (ev : Server.event)
  : list bytes :=
  match ev with
  | Server.Sent s' message =>
      if bool_decide (s' = sock)
      then default s (Channel.send_message message s)
      else s
  | Server.SentBlock s' data =>
      if bool_decide (s' = sock) then Channel.sendall data s else s
  | _ => s
  end.

Definition wire_of (sock : Server.socket) (evs : list Server.event)
  : list bytes :=
  foldl (arrive sock) [] evs.

(** The segments of one frame, and of one block of a file sent over the
    stream. *)
Definition frame (message : text) : list bytes :=
  default [] (Channel.send_message message []).

Definition block_segments (b : bytes) : list bytes :=
  [default [] (pack_I (Z.of_nat (length b))); b].

(** The datagrams the server has sent to a port. *)
Definition datagrams_to (p : Z) (evs : list Server.event) : list bytes :=
  omap (λ ev, match ev with
              | Server.SentTo _ udp_port d =>
                  if bool_decide (udp_port = p) then Some d else None
              | _ => None
              end) evs.

End Client.

(** ** Scenarios *)

Module Scenario.
Import Wire Server.

(** A stream that ends after two bytes, and one that ends after two of five
    payload bytes. *)
Definition stream_cut_in_prefix : list bytes := [[x00; x00]].
Definition stream_cut_in_payload : list bytes := [[x00; x00; x00; x05]; [x68; x69]].

(** A file of two chunks: 1024 bytes and one byte. *)
Definition two_chunk_file : bytes := replicate 1024 x01 ++ [x02].

(** The datagram of chunk 1, the last byte, of [two_chunk_file]. *)
Definition lone_last_chunk : bytes :=
  [x00; x00; x00; x01; x00; x00; x00; x01; x02].

(** A run of the server: an ASCII [str.upper], three clients, a group. *)
Definition ascii_upper (s : text) : text :=
  (λ c, if bool_decide (97 ≤ c ≤ 122) then c - 32 else c) <$> s.

Definition three_clients : Server.server :=
  Server.Server 5000
    [(1%nat, Server.ClientInfo (Wire.lit "bob") (Wire.lit "10.0.0.1", 40001));
     (2%nat, Server.ClientInfo (Wire.lit "alice") (Wire.lit "10.0.0.2", 40002));
     (3%nat, Server.ClientInfo (Wire.lit "carol") (Wire.lit "10.0.0.3", 40003))]
    [(Wire.lit "g", [2%nat; 3%nat])] [] [].

(** The three clients, all in one group, the sender last. *)
Definition group_of_three : Server.server :=
  Server.Server 5000 (Server.clients three_clients)
    [(Wire.lit "g", [2%nat; 3%nat; 1%nat])] [] [].

(** A link to client 1 that goes down once four frames have been sent. *)
Definition flaky_link (sent : list Server.event) (s : Server.socket) : bool :=
  bool_decide (s = 1%nat ∧ (4 ≤ length sent)%nat).

(** One message handled by a server with that link, an ASCII [str.upper]
    and an empty shared directory. *)
Definition handle (sock : Server.socket) (message : string)
    (st : Server.server) : Server.server :=
  Server.handle_client_message flaky_link ascii_upper (Some []) (λ _, None) []
    sock (Some (Wire.lit message)) st.

(** From the start: alice and bob connect, alice creates group [g]. *)
Definition sole_member : Server.server :=
  handle 1%nat "/JOINGROUP g"
    (Server.accept_client flaky_link 2%nat (Wire.lit "10.0.0.2", 40002)
       (Some (Wire.lit "bob"))
       (Server.accept_client flaky_link 1%nat (Wire.lit "10.0.0.1", 40001)
          (Some (Wire.lit "alice"))
          (Server.Server 5000 [] [] [] []))).

(** Alice asks to leave [g]; the confirmation cannot be sent to her. *)
Definition after_failed_leave : Server.server :=
  handle 1%nat "/LEAVEGROUP g" sole_member.

(** [int] on decimal digits. *)
Definition decimal_int (s : text) : option Z :=
  Z.of_int <$> NilZero.int_of_string
                 (string_of_list_ascii ((λ c, ascii_of_N (Z.to_N c)) <$> s)).

(** A client that has just connected, with these bytes to read. *)
Definition connected (wire : list bytes) : Client.client :=
  Client.Client true wire [] None None None None [] [].

(** A download of a three-byte file by client 2, over the stream and by
    datagrams, on links that stay up: what the server sends. *)
Definition small_file : bytes := [x61; x62; x63].

Definition tcp_download : list Server.event :=
  Server.trace
    (Server.state_of
       (Server.send_file_tcp (λ _ _, false) [] 2%nat small_file (Wire.lit "f.txt")
          3 three_clients)).

Definition udp_download : list Server.event :=
  Server.trace
    (Server.state_of
       (Server.send_file_udp (λ _ _, false) [] 2%nat small_file (Wire.lit "f.txt")
          3 three_clients)).

(** The same clients on a server that listens on the last port. *)
Definition on_last_port : Server.server :=
  Server.Server 65535 (Server.clients three_clients) [] [] [].

(** A shared directory that holds the one file. *)
Definition one_file (name : text) : option Server.fs_entry :=
  if bool_decide (name = Wire.lit "f.txt") then Some (Server.Regular small_file)
  else None.

(** Two rounds of the main loop: alice and bob connect; then alice joins
    group [g], and [select] reports the socket of bob and then the listening
    socket as exceptional. *)
Definition two_rounds
  : list (list Server.ready * list (option Server.socket)) :=
  [([Server.Listener
       (Some (1%nat, (Wire.lit "10.0.0.1", 40001), Some (Wire.lit "alice")));
     Server.Listener
       (Some (2%nat, (Wire.lit "10.0.0.2", 40002), Some (Wire.lit "bob")))],
    []);
   ([Server.Peer 1%nat (Some (Wire.lit "/JOINGROUP g"))], [Some 2%nat; None])].

(** A fourth client connects to the three, on links that stay up. *)
Definition dave_arrives : Server.server :=
  Server.accept_client (λ _ _, false) 4%nat (Wire.lit "10.0.0.4", 40004)
    (Some (Wire.lit "dave")) three_clients.

End Scenario.

(** * Proofs *)

(** ** Bytes and [struct] *)

Section WireFacts.
Import Wire.

Lemma Z_of_byte_range (b : byte) : 0 ≤ Z_of_byte b < 256.
Proof.
  unfold Z_of_byte. pose proof (Byte.to_N_bounded b). lia.
Qed.

Lemma Z_of_byte_of_Z (z : Z) : 0 ≤ z < 256 → Z_of_byte (byte_of_Z z) = z.
Proof.
  intros Hz. unfold Z_of_byte, byte_of_Z.
  destruct (Byte.of_N (Z.to_N z)) as [b|] eqn:E; simpl.
  - apply Byte.to_of_N in E. lia.
  - apply Byte.of_N_None_iff in E. lia.
Qed.

Lemma pack_I_is_Some (n : Z) : 0 ≤ n < 2 ^ 32 → is_Some (pack_I n).
Proof. intros Hn. unfold pack_I. rewrite bool_decide_eq_true_2 by done. eauto. Qed.

Lemma pack_I_range (n : Z) (h : bytes) : pack_I n = Some h → 0 ≤ n < 2 ^ 32.
Proof. unfold pack_I. case_bool_decide; [done | discriminate]. Qed.

Lemma pack_I_length (n : Z) (h : bytes) : pack_I n = Some h → length h = 4%nat.
Proof. unfold pack_I. case_bool_decide; [|discriminate]. by intros [= <-]. Qed.

Lemma unpack_pack_I (n : Z) (h : bytes) : pack_I n = Some h → unpack_I h = Some n.
Proof.
  unfold pack_I. case_bool_decide as Hn; [|discriminate]. intros [= <-].
  unfold unpack_I. rewrite !Z_of_byte_of_Z.
  - f_equal. change (2 ^ 24) with 16777216. change (2 ^ 16) with 65536.
    change (2 ^ 8) with 256. Z.div_mod_to_equations. lia.
  - apply Z.mod_pos_bound. lia.
  - apply Z.mod_pos_bound. lia.
  - apply Z.mod_pos_bound. lia.
  - change (2 ^ 24) with 16777216. change (2 ^ 32) with 4294967296 in Hn.
    Z.div_mod_to_equations. lia.
Qed.

Lemma unpack_pack_II (a b : Z) (h : bytes) (rest : bytes) :
  pack_II a b = Some h →
  length h = 8%nat ∧ unpack_II (take 8 (h ++ rest)) = Some (a, b).
Proof.
  unfold pack_II. intros H.
  destruct (pack_I a) as [ha|] eqn:Ha; [|discriminate]. simpl in H.
  destruct (pack_I b) as [hb|] eqn:Hb; [|discriminate]. simpl in H.
  injection H as <-.
  pose proof (pack_I_length _ _ Ha) as La. pose proof (pack_I_length _ _ Hb) as Lb.
  split; [rewrite length_app; lia|].
  rewrite take_app_length' by (rewrite length_app; lia).
  unfold unpack_II.
  rewrite take_app_length' by done. rewrite drop_app_length' by done.
  rewrite (unpack_pack_I _ _ Ha), (unpack_pack_I _ _ Hb). done.
Qed.

End WireFacts.

(** ** UTF-8 *)

Section Utf8Facts.
Import Wire.

Lemma utf8_decode_char (c : Z) (zs : list Z) (rest : bytes) :
  utf8_char c = Some zs →
  utf8_decode ((byte_of_Z <$> zs) ++ rest) = cons c <$> utf8_decode rest.
Proof.
  unfold utf8_char.
  repeat match goal with
         | |- context [?a <? ?b] => destruct (Z.ltb_spec a b)
         | |- context [?a <=? ?b] => destruct (Z.leb_spec a b)
         end; simpl; try discriminate; intros [= <-];
    cbn [fmap list_fmap app utf8_decode]; unfold is_cont, cont;
    rewrite !Z_of_byte_of_Z by (Z.div_mod_to_equations; lia).
  all: repeat match goal with
         | |- context [?a <? ?b] =>
             destruct (Z.ltb_spec a b); try (exfalso; Z.div_mod_to_equations; lia)
         | |- context [?a <=? ?b] =>
             destruct (Z.leb_spec a b); try (exfalso; Z.div_mod_to_equations; lia)
         end; cbn [andb negb].
  all: try (do 2 f_equal; Z.div_mod_to_equations; lia).
  all: try done.
Qed.

Lemma utf8_round_trip (s : text) (data : bytes) :
  utf8_encode s = Some data → utf8_decode data = Some s.
Proof.
  revert data. induction s as [|c s IH]; intros data; simpl.
  - by intros [= <-].
  - destruct (utf8_char c) as [zs|] eqn:Hc; [|discriminate]. simpl.
    destruct (utf8_encode s) as [rest|]; [|discriminate]. simpl.
    intros [= <-]. rewrite (utf8_decode_char _ _ _ Hc), (IH rest eq_refl). done.
Qed.

Lemma utf8_char_is_Some (c : Z) : scalar c ↔ is_Some (utf8_char c).
Proof.
  unfold scalar, utf8_char.
  repeat match goal with
         | |- context [?a <? ?b] => destruct (Z.ltb_spec a b)
         | |- context [?a <=? ?b] => destruct (Z.leb_spec a b)
         end; simpl; split; intros Hx; try (by eauto); try lia;
    by (destruct Hx as [? ?]; discriminate).
Qed.

Lemma utf8_encode_is_Some (s : text) :
  Forall scalar s ↔ is_Some (utf8_encode s).
Proof.
  induction s as [|c s IH]; simpl.
  - split; eauto.
  - rewrite Forall_cons, IH, utf8_char_is_Some.
    destruct (utf8_char c), (utf8_encode s); simpl; split;
      try (intros [[? ?] [? ?]]); try (intros [? ?]); try discriminate; eauto.
Qed.

End Utf8Facts.

(** ** The framed channel *)

Section ChannelFacts.
Import Wire Channel Scenario.

(** With enough bytes to come, in segments none of which is empty, the
    payload loop returns exactly the bytes asked for. *)
Lemma recv_payload_enough (message_len : Z) (s : stream) (message : bytes) :
  Forall (λ seg, seg ≠ []) s →
  Z.of_nat (length message) ≤ message_len ≤
    Z.of_nat (length message + length (concat s)) →
  ∃ s',
    recv_payload message_len message s =
      (Some (message ++ take (Z.to_nat message_len - length message) (concat s)), s')
    ∧ concat s' = drop (Z.to_nat message_len - length message) (concat s)
    ∧ Forall (λ seg, seg ≠ []) s'.
Proof.
  revert message. induction s as [|seg rest IH]; intros message Hne Hlen; simpl.
  - simpl in Hlen. rewrite bool_decide_eq_false_2 by lia.
    exists []. rewrite take_nil, drop_nil, app_nil_r. done.
  - case_bool_decide as Hlt.
    + pose proof Hne as Hne'. apply Forall_cons in Hne as [Hseg Hrest].
      case_bool_decide as Hfit.
      * destruct seg as [|b seg]; [done|].
        simpl in Hlen. rewrite length_app in Hlen.
        destruct (IH (message ++ b :: seg) Hrest) as (s' & Heq & Hcat & Hs').
        { rewrite length_app. simpl in *. lia. }
        exists s'. rewrite Heq, Hcat. rewrite length_app.
        rewrite take_app, drop_app.
        replace (take (Z.to_nat message_len - length message) (b :: seg))
          with (b :: seg) by (symmetry; apply take_ge; lia).
        replace (drop (Z.to_nat message_len - length message) (b :: seg))
          with (@nil byte) by (symmetry; apply drop_ge; lia).
        rewrite <- app_assoc. simpl.
        replace (Z.to_nat message_len - (length message + S (length seg)))%nat
          with (Z.to_nat message_len - length message - S (length seg))%nat by lia.
        done.
      * exists (drop (Z.to_nat (message_len - Z.of_nat (length message))) seg :: rest).
        replace (Z.to_nat (message_len - Z.of_nat (length message)))
          with (Z.to_nat message_len - length message)%nat by lia.
        rewrite take_app, drop_app. simpl.
        replace (Z.to_nat message_len - length message - length seg)%nat
          with 0%nat by lia.
        rewrite take_0, drop_0, app_nil_r. split_and!; [done..|].
        apply Forall_cons. split; [|done].
        intros Hnil. apply (f_equal length) in Hnil. rewrite length_drop in Hnil.
        simpl in Hnil. lia.
    + exists (seg :: rest).
      replace (Z.to_nat message_len - length message)%nat with 0%nat by lia.
      rewrite take_0, drop_0, app_nil_r. done.
Qed.

(** With too few bytes to come, the payload loop returns [None]. *)
Lemma recv_payload_short (message_len : Z) (s : stream) (message : bytes) :
  Z.of_nat (length message + length (concat s)) < message_len →
  (recv_payload message_len message s).1 = None.
Proof.
  revert message. induction s as [|seg rest IH]; intros message Hlen; simpl.
  - simpl in Hlen. rewrite bool_decide_eq_true_2 by lia. done.
  - simpl in Hlen. rewrite length_app in Hlen.
    rewrite bool_decide_eq_true_2 by lia.
    rewrite bool_decide_eq_true_2 by lia.
    destruct seg as [|b seg]; [done|].
    apply IH. rewrite length_app. lia.
Qed.

(** A stream cut in any way, as long as the first [recv] returns the whole
    header: the message is decoded and the rest of the stream is left. *)
Lemma receive_message_segmented (message : text) (header payload more : bytes)
    (s : stream) :
  utf8_encode message = Some payload →
  pack_I (Z.of_nat (length payload)) = Some header →
  Forall (λ seg, seg ≠ []) s →
  (∃ seg rest, s = seg :: rest ∧ (4 ≤ length seg)%nat) →
  concat s = header ++ payload ++ more →
  ∃ s', receive_message s = (Some message, s') ∧ concat s' = more
        ∧ Forall (λ seg, seg ≠ []) s'.
Proof.
  intros Henc Hpack Hne (seg & rest & -> & Hseg) Hcat.
  pose proof (pack_I_length _ _ Hpack) as Hlen.
  assert (take 4 seg = header) as Htake.
  { simpl in Hcat. apply (f_equal (take 4)) in Hcat.
    rewrite take_app_le in Hcat by lia.
    rewrite take_app_length' in Hcat by done. done. }
  assert (concat (if bool_decide (length seg ≤ 4)%nat then rest
                  else drop 4 seg :: rest) = payload ++ more) as Hrest.
  { simpl in Hcat. apply (f_equal (drop 4)) in Hcat.
    rewrite (drop_app_length' header) in Hcat by done.
    rewrite drop_app_le in Hcat by lia.
    case_bool_decide; simpl; [|done].
    rewrite drop_ge in Hcat by lia. done. }
  assert (Forall (λ seg, seg ≠ []) (if bool_decide (length seg ≤ 4)%nat then rest
                  else drop 4 seg :: rest)) as Hne'.
  { apply Forall_cons in Hne as [_ Hne]. case_bool_decide; [done|].
    apply Forall_cons. split; [|done].
    intros Hnil. apply (f_equal length) in Hnil. rewrite length_drop in Hnil.
    simpl in Hnil. lia. }
  unfold receive_message, recv.
  case_bool_decide as Hfit.
  - assert (seg = header) as -> by (rewrite <- Htake; symmetry; apply take_ge; lia).
    rewrite bool_decide_eq_false_2 by lia.
    rewrite (unpack_pack_I _ _ Hpack).
    destruct (recv_payload_enough (Z.of_nat (length payload)) rest [] Hne')
      as (s' & -> & Hs' & Hne''); [rewrite Hrest, length_app; simpl; lia|].
    exists s'. rewrite Hs', Hrest. simpl.
    rewrite Nat2Z.id, Nat.sub_0_r, take_app_length, drop_app_length.
    by rewrite (utf8_round_trip _ _ Henc).
  - rewrite length_take, Htake. rewrite bool_decide_eq_false_2 by lia.
    rewrite (unpack_pack_I _ _ Hpack).
    destruct (recv_payload_enough (Z.of_nat (length payload))
                (drop 4 seg :: rest) [] Hne')
      as (s' & -> & Hs' & Hne''); [rewrite Hrest, length_app; simpl; lia|].
    exists s'. rewrite Hs', Hrest. simpl.
    rewrite Nat2Z.id, Nat.sub_0_r, take_app_length, drop_app_length.
    by rewrite (utf8_round_trip _ _ Henc).
Qed.

Lemma concat_nil_nonempty (s : stream) :
  Forall (λ seg, seg ≠ []) s → concat s = [] → s = [].
Proof.
  destruct s as [|seg rest]; [done|].
  intros [Hseg _]%Forall_cons Hcat. simpl in Hcat.
  by apply app_eq_nil in Hcat as [-> _].
Qed.

(** C2. For every text message that [send_message] can frame, the bytes it
    writes are a 4-byte big-endian header followed by the UTF-8 encoding of
    the text, the header holds exactly the byte length of that encoding, and
    [receive_message] on what was written returns the text and consumes all
    of it. *)
Theorem frame_round_trip (message : text) (wire : stream) :
  Channel.send_message message [] = Some wire →
  ∃ header payload,
    utf8_encode message = Some payload ∧
    concat wire = header ++ payload ∧
    length header = 4%nat ∧
    unpack_I header = Some (Z.of_nat (length payload)) ∧
    receive_message wire = (Some message, []).
Proof.
  unfold Channel.send_message. intros Hsend.
  destruct (utf8_encode message) as [payload|] eqn:Henc; [|discriminate].
  simpl in Hsend.
  destruct (pack_I (Z.of_nat (length payload))) as [header|] eqn:Hpack;
    [|discriminate].
  simpl in Hsend. injection Hsend as <-.
  pose proof (pack_I_length _ _ Hpack) as Hlen.
  exists header, payload.
  assert (Channel.sendall header [] = [header]) as ->
    by (destruct header; [done|done]).
  assert (concat (Channel.sendall payload [header]) = header ++ payload) as Hcat.
  { destruct payload; simpl; by rewrite ?app_nil_r. }
  assert (Forall (λ seg : bytes, seg ≠ []) (Channel.sendall payload [header])) as Hne.
  { assert (header ≠ []) by (intros ->; done).
    destruct payload; simpl; repeat constructor; done. }
  split_and!; [done|done|done|by apply unpack_pack_I|].
  destruct (receive_message_segmented message header payload []
              (Channel.sendall payload [header]) Henc Hpack Hne)
    as (s' & -> & Hs' & Hne').
  - destruct payload; simpl; eexists _, _; split; try done; lia.
  - by rewrite app_nil_r.
  - by rewrite (concat_nil_nonempty s' Hne' Hs').
Qed.

Lemma frame_round_trip_witness :
  receive_message [[x00; x00; x00; x02]; [x68; x69]] = (Some (lit "hi"), []).
Proof.
  destruct (frame_round_trip (lit "hi") [[x00; x00; x00; x02]; [x68; x69]])
    as (header & payload & _ & _ & _ & _ & H); [by vm_compute | exact H].
Defined.

(** [send_message] frames every text of code points that UTF-8 can encode
    in fewer than [2^32] bytes. *)
Lemma send_message_is_Some (message : text) (payload : bytes) :
  utf8_encode message = Some payload →
  Z.of_nat (length payload) < 2 ^ 32 →
  is_Some (Channel.send_message message []).
Proof.
  intros Henc Hlen. unfold Channel.send_message. rewrite Henc. simpl.
  destruct (pack_I_is_Some (Z.of_nat (length payload))) as [h ->]; [lia|].
  by eexists.
Qed.

(** The length prefix is read with one [recv]: when that returns fewer than
    four bytes, [receive_message] gives up although the frame is whole. *)
Example header_short_read :
  concat [[x00; x00]; [x00; x02; x68; x69]]
  = concat [[x00; x00; x00; x02]; [x68; x69]] ∧
  receive_message [[x00; x00]; [x00; x02; x68; x69]]
  = (None, [[x00; x02; x68; x69]]).
Proof. split; reflexivity. Qed.

(** C6, as stated, fails: a stream that ends inside the length prefix and
    one that ends inside the payload give the same result. *)
Lemma receive_failures_same_outcome :
  ends_before_prefix stream_cut_in_prefix ∧
  ends_mid_payload stream_cut_in_payload ∧
  (receive_message stream_cut_in_prefix).1
    = (receive_message stream_cut_in_payload).1.
Proof.
  split_and!.
  - unfold ends_before_prefix. simpl. lia.
  - exists 5. by vm_compute.
  - reflexivity.
Qed.

(** C6, amended. [receive_message] returns [None] when the stream ends
    before a complete 4-byte length prefix, and the same [None] when it ends
    after the prefix but before the declared number of payload bytes. *)
Theorem receive_failures_collapse (s : stream) :
  ends_before_prefix s ∨ ends_mid_payload s →
  (receive_message s).1 = None.
Proof.
  unfold ends_before_prefix, ends_mid_payload, receive_message.
  intros [Hshort | (message_len & Hlen & Hun & Hrest)].
  - destruct (recv 4 s) as [length_data s1] eqn:Hrecv.
    assert (length length_data < 4)%nat as Hlt.
    { unfold recv in Hrecv. destruct s as [|seg rest]; simplify_eq; simpl in *.
      - lia.
      - rewrite length_app in Hshort. case_bool_decide; simplify_eq; lia. }
    by rewrite bool_decide_eq_true_2.
  - destruct (recv 4 s) as [length_data s1]. simpl in *.
    rewrite bool_decide_eq_false_2 by lia. rewrite Hun.
    pose proof (recv_payload_short message_len s1 []) as Hp.
    destruct (recv_payload message_len [] s1) as [[message|] s2]; simpl in *.
    + discriminate Hp. lia.
    + done.
Qed.

Lemma receive_failures_collapse_witness :
  (receive_message stream_cut_in_payload).1 = None.
Proof.
  apply receive_failures_collapse. right. exists 5. by vm_compute.
Defined.

End ChannelFacts.

(** ** The datagram transport *)

Section DatagramFacts.
Import Wire Datagram Scenario.

Lemma chunk_count_nil : chunk_count [] = 0.
Proof. reflexivity. Qed.

Lemma chunk_count_drop (f : bytes) :
  f ≠ [] → chunk_count f = 1 + chunk_count (drop (Z.to_nat chunk_size) f).
Proof.
  intros Hf. unfold chunk_count. rewrite length_drop.
  assert (0 < length f)%nat by (destruct f; [done | simpl; lia]).
  change (Z.to_nat chunk_size) with 1024%nat.
  destruct (decide (length f ≤ 1024)%nat).
  - replace (length f - 1024)%nat with 0%nat by lia.
    change (Z.of_nat 0 + 1023) with 1023. Z.div_mod_to_equations. lia.
  - rewrite Nat2Z.inj_sub by lia. change (Z.of_nat 1024) with 1024.
    Z.div_mod_to_equations. lia.
Qed.

Lemma chunk_of_drop (f : bytes) (j : nat) :
  chunk_of (drop (Z.to_nat chunk_size) f) (Z.of_nat j) = chunk_of f (Z.of_nat (S j)).
Proof.
  unfold chunk_of. rewrite drop_drop. do 2 f_equal. unfold chunk_size. lia.
Qed.

Lemma chunk_of_length (f : bytes) (i : Z) : (length (chunk_of f i) ≤ 1024)%nat.
Proof. unfold chunk_of. rewrite length_take. change (Z.to_nat chunk_size) with 1024%nat. lia. Qed.

Lemma take_chunk_nil (f : bytes) : take (Z.to_nat chunk_size) f = [] → f = [].
Proof. by destruct f. Qed.

(** What the chunk loop sends when it reaches the end of the file. *)
Lemma send_chunks_lookup (fuel : nat) (k : Z) (f : bytes) (sent : list bytes) :
  send_chunks fuel k f = Some (sent, true) →
  Z.of_nat (length sent) = chunk_count f ∧
  ∀ (j : nat) d, sent !! j = Some d →
    ∃ header,
      pack_II (k + Z.of_nat j) (Z.of_nat (length (chunk_of f (Z.of_nat j))))
        = Some header ∧
      d = header ++ chunk_of f (Z.of_nat j).
Proof.
  revert k f sent. induction fuel as [|fuel IH]; intros k f sent.
  - destruct f as [|b f]; [|discriminate]. intros [= <-]. split; [done|].
    intros j d Hj. by rewrite lookup_nil in Hj.
  - destruct (decide (f = [])) as [->|Hf].
    { intros [= <-]. split; [done|]. intros j d Hj. by rewrite lookup_nil in Hj. }
    cbn [send_chunks].
    assert (take (Z.to_nat chunk_size) f = chunk_of f 0) as Hchunk.
    { unfold chunk_of. by rewrite Z.mul_0_r. }
    destruct (take (Z.to_nat chunk_size) f) as [|b chunk] eqn:Htake.
    { by apply take_chunk_nil in Htake. }
    destruct (pack_II k (Z.of_nat (length (b :: chunk)))) as [header|] eqn:Hpack;
      [|discriminate].
    destruct (send_chunks fuel (k + 1) (drop (Z.to_nat chunk_size) f))
      as [[sent' ok]|] eqn:Hrec; [|discriminate].
    cbn [mbind option_bind]. intros [= <- ->].
    destruct (IH _ _ _ Hrec) as [Hlen Hlook].
    split.
    + rewrite (chunk_count_drop f Hf). rewrite <- Hlen. simpl length. lia.
    + intros [|j] d Hj; simpl in Hj.
      * injection Hj as <-. exists header. rewrite Z.add_0_r.
        change (Z.of_nat 0) with 0. rewrite <- Hchunk. done.
      * destruct (Hlook j d Hj) as (h & Hh & ->). exists h.
        rewrite <- chunk_of_drop. split; [|done].
        rewrite <- Hh. f_equal. lia.
Qed.

(** The number of bytes in the file is fuel enough for the chunk loop. *)
Lemma send_chunks_fuel (fuel : nat) (k : Z) (f : bytes) :
  (length f ≤ fuel)%nat → is_Some (send_chunks fuel k f).
Proof.
  revert k f. induction fuel as [|fuel IH]; intros k f Hlen.
  - destruct f; [by eexists | simpl in Hlen; lia].
  - cbn [send_chunks].
    destruct (take (Z.to_nat chunk_size) f) as [|b chunk] eqn:Htake; [by eexists|].
    destruct (pack_II k _); [|by eexists].
    destruct (IH (k + 1) (drop (Z.to_nat chunk_size) f)) as [[sent ok] ->].
    + rewrite length_drop. change (Z.to_nat chunk_size) with 1024%nat.
      destruct f; [done|]. simpl in *. lia.
    + by eexists.
Qed.

Lemma file_datagrams_is_Some (f : bytes) : is_Some (file_datagrams f).
Proof. by apply send_chunks_fuel. Qed.

Lemma file_datagrams_genuine (f : bytes) (sent : list bytes) :
  file_datagrams f = Some (sent, true) →
  Z.of_nat (length sent) = chunk_count f ∧
  ∀ (j : nat) d, sent !! j = Some d → genuine f (Z.of_nat j) d.
Proof.
  intros Hsent. destruct (send_chunks_lookup _ _ _ _ Hsent) as [Hlen Hlook].
  split; [done|]. intros j d Hj. split.
  - apply lookup_lt_Some in Hj. lia.
  - destruct (Hlook j d Hj) as (h & Hh & ->). exists h. by rewrite Z.add_0_l in Hh.
Qed.

(** The chunk loop reaches the end of every file of at most [2^32] chunks:
    [struct.pack] raises only for a chunk number that does not fit 32
    bits. *)
Lemma send_chunks_complete (fuel : nat) (k : Z) (f : bytes) :
  (length f ≤ fuel)%nat → 0 ≤ k → k + chunk_count f ≤ 2 ^ 32 →
  ∃ sent, send_chunks fuel k f = Some (sent, true).
Proof.
  revert k f. induction fuel as [|fuel IH]; intros k f Hlen Hk Hcount.
  - destruct f; [by eexists | simpl in Hlen; lia].
  - destruct (decide (f = [])) as [-> | Hf]; [by eexists|].
    cbn [send_chunks].
    destruct (take (Z.to_nat chunk_size) f) as [|b chunk] eqn:Htake.
    { by apply take_chunk_nil in Htake. }
    assert (length (b :: chunk) ≤ 1024)%nat as Hchunk.
    { rewrite <- Htake, length_take. change (Z.to_nat chunk_size) with 1024%nat. lia. }
    rewrite (chunk_count_drop f Hf) in Hcount.
    assert (0 ≤ chunk_count (drop (Z.to_nat chunk_size) f)) as Hnn
      by (unfold chunk_count; Z.div_mod_to_equations; lia).
    destruct (pack_I_is_Some k) as [hk Hhk]; [lia|].
    destruct (pack_I_is_Some (Z.of_nat (length (b :: chunk)))) as [hl Hhl].
    { change (2 ^ 32) with 4294967296. lia. }
    unfold pack_II. rewrite Hhk, Hhl. cbn [mbind option_bind].
    destruct (IH (k + 1) (drop (Z.to_nat chunk_size) f)) as [sent Hsent];
      [|lia|lia|].
    + rewrite length_drop. change (Z.to_nat chunk_size) with 1024%nat.
      destruct f; [done | simpl in *; lia].
    + rewrite Hsent. by eexists.
Qed.

Lemma file_datagrams_complete (f : bytes) :
  chunk_count f ≤ 2 ^ 32 → ∃ sent, file_datagrams f = Some (sent, true).
Proof. intros Hcount. by apply send_chunks_complete. Qed.

(** *** The receiver *)

Lemma write_file_pieces (st : session) :
  write_file st = concat (piece (download_chunks st) <$> seqZ 0 (expected_chunks st)).
Proof. reflexivity. Qed.

Lemma pieces_insert_notin (m : gmap Z bytes) (k : Z) (c : bytes) (l : list Z) :
  k ∉ l → piece (<[k:=c]> m) <$> l = piece m <$> l.
Proof.
  intros Hk. apply list_fmap_ext. intros j i Hi. unfold piece.
  rewrite lookup_insert_ne; [done|]. intros ->. apply Hk.
  by eapply list_elem_of_lookup_2.
Qed.

Lemma pieces_insert_in (m : gmap Z bytes) (k : Z) (c : bytes) (l : list Z) :
  NoDup l → k ∈ l → m !! k = None →
  length (concat (piece (<[k:=c]> m) <$> l))
  = (length (concat (piece m <$> l)) + length c)%nat.
Proof.
  intros Hnd Hk Hm. induction l as [|i l IH]; [by apply elem_of_nil in Hk|].
  apply NoDup_cons in Hnd as [Hi Hnd]. rewrite !fmap_cons. simpl.
  rewrite !length_app. destruct (decide (i = k)) as [->|Hne].
  - rewrite (pieces_insert_notin m k c l Hi). unfold piece.
    rewrite lookup_insert_eq, Hm. simpl. lia.
  - apply elem_of_cons in Hk as [->|Hk]; [done|].
    rewrite (IH Hnd Hk). unfold piece. rewrite lookup_insert_ne by done. lia.
Qed.

(** Pieces that are the chunk or nothing: no longer than the chunks, and
    equal to them when as long. *)
Lemma sub_pieces_length (p c : Z → bytes) (l : list Z) :
  (∀ i, i ∈ l → p i = c i ∨ p i = []) →
  (length (concat (p <$> l)) ≤ length (concat (c <$> l)))%nat.
Proof.
  induction l as [|i l IH]; intros Hp; [done|].
  rewrite !fmap_cons. simpl. rewrite !length_app.
  assert (length (concat (p <$> l)) ≤ length (concat (c <$> l)))%nat
    by (apply IH; intros j Hj; apply Hp; by right).
  destruct (Hp i) as [-> | ->]; [by left | lia | simpl; lia].
Qed.

Lemma sub_pieces_full (p c : Z → bytes) (l : list Z) :
  (∀ i, i ∈ l → p i = c i ∨ p i = []) →
  (length (concat (c <$> l)) ≤ length (concat (p <$> l)))%nat →
  concat (p <$> l) = concat (c <$> l).
Proof.
  induction l as [|i l IH]; intros Hp Hlen; [done|].
  rewrite !fmap_cons in *. simpl in *. rewrite !length_app in Hlen.
  assert (length (concat (p <$> l)) ≤ length (concat (c <$> l)))%nat
    by (apply sub_pieces_length; intros j Hj; apply Hp; by right).
  assert (p i = c i) as Hpi.
  { destruct (Hp i) as [-> | Hnil]; [by left | done |].
    rewrite Hnil in *. simpl in Hlen.
    destruct (c i); [done | simpl in Hlen; lia]. }
  rewrite Hpi in *.
  f_equal. apply IH; [intros j Hj; apply Hp; by right | lia].
Qed.

Lemma concat_chunks (f : bytes) (a : Z) (n : nat) :
  0 ≤ a →
  concat (chunk_of f <$> seqZ a (Z.of_nat n))
  = take (1024 * n) (drop (Z.to_nat (1024 * a)) f).
Proof.
  intros Ha. induction n as [|n IH].
  - by rewrite Nat.mul_0_r, take_0.
  - rewrite seqZ_S, fmap_app, concat_app, IH. simpl. rewrite app_nil_r.
    unfold chunk_of. change (Z.to_nat chunk_size) with 1024%nat.
    replace (Z.to_nat (chunk_size * (a + Z.of_nat n)))
      with (Z.to_nat (1024 * a) + 1024 * n)%nat by (unfold chunk_size; lia).
    rewrite <- drop_drop, take_take_drop. f_equal. lia.
Qed.

Lemma concat_all_chunks (f : bytes) :
  concat (chunk_of f <$> seqZ 0 (chunk_count f)) = f.
Proof.
  assert (0 ≤ chunk_count f) as Hn
    by (unfold chunk_count; Z.div_mod_to_equations; lia).
  rewrite <- (Z2Nat.id (chunk_count f)) by done.
  rewrite concat_chunks by done. simpl. rewrite drop_0. apply take_ge.
  unfold chunk_count in *. Z.div_mod_to_equations. lia.
Qed.

Lemma chunk_of_nonempty (f : bytes) (i : Z) :
  0 ≤ i < chunk_count f → chunk_of f i ≠ [].
Proof.
  intros Hi Hnil. apply (f_equal length) in Hnil. unfold chunk_of in Hnil.
  rewrite length_take, length_drop in Hnil.
  change (length (@nil byte)) with 0%nat in Hnil.
  unfold chunk_count, chunk_size in *.
  change (Z.to_nat 1024) with 1024%nat in Hnil.
  Z.div_mod_to_equations. lia.
Qed.

Lemma inv_expected (f : bytes) (A : Z → Prop) (st : session) :
  inv f A st → expected_chunks st = chunk_count f.
Proof. intros (Hsize & _ & _). unfold expected_chunks, chunk_count. by rewrite Hsize. Qed.

Lemma inv_start (f : bytes) (A : Z → Prop) :
  inv f A (handle_download_start_udp (Z.of_nat (length f))).
Proof.
  unfold inv. rewrite write_file_pieces. unfold handle_download_start_udp.
  cbn [download_file_size download_chunks download_received].
  split_and!; [done | intros i c; by rewrite lookup_empty |].
  assert (∀ l : list Z, concat (piece (∅ : gmap Z bytes) <$> l) = []) as ->; [|done].
  induction l as [|i l IH]; [done|]. rewrite fmap_cons. simpl.
  unfold piece at 1. by rewrite lookup_empty.
Qed.

Lemma inv_piece (f : bytes) (A : Z → Prop) (st : session) (i : Z) :
  inv f A st →
  piece (download_chunks st) i = chunk_of f i ∨ piece (download_chunks st) i = [].
Proof.
  intros (_ & Hch & _). unfold piece.
  destruct (download_chunks st !! i) as [c|] eqn:Hi; [left | by right].
  by destruct (Hch i c Hi) as (_ & _ & ->).
Qed.

Lemma inv_written_le (f : bytes) (A : Z → Prop) (st : session) :
  inv f A st → (length (write_file st) ≤ length f)%nat.
Proof.
  intros Hinv. rewrite write_file_pieces, (inv_expected _ _ _ Hinv).
  apply Nat.le_trans with (length (concat (chunk_of f <$> seqZ 0 (chunk_count f)))).
  - apply sub_pieces_length. intros i _. by eapply inv_piece.
  - by rewrite concat_all_chunks.
Qed.

Lemma inv_written_full (f : bytes) (A : Z → Prop) (st : session) :
  inv f A st → download_file_size st ≤ download_received st → write_file st = f.
Proof.
  intros Hinv Hge. pose proof Hinv as (Hsize & _ & Hrecv).
  rewrite Hsize, Hrecv in Hge.
  etransitivity; [|apply concat_all_chunks].
  rewrite write_file_pieces, (inv_expected _ _ _ Hinv).
  apply sub_pieces_full; [intros i _; by eapply inv_piece|].
  rewrite concat_all_chunks.
  rewrite write_file_pieces, (inv_expected _ _ _ Hinv) in Hge. lia.
Qed.

(** A genuine datagram is stored under its index, once. *)
Lemma store_datagram_genuine (f : bytes) (i : Z) (d : bytes) (st : session) :
  genuine f i d →
  store_datagram d st =
    Some match download_chunks st !! i with
         | Some _ => st
         | None =>
             Session (download_file_size st)
               (<[i := chunk_of f i]> (download_chunks st))
               (download_received st + Z.of_nat (length (chunk_of f i)))
         end.
Proof.
  intros (Hi & header & Hpack & ->).
  destruct (unpack_pack_II _ _ _ (chunk_of f i) Hpack) as [Hlen Hun].
  pose proof (chunk_of_length f i) as Hc.
  unfold store_datagram.
  rewrite (take_ge (header ++ chunk_of f i)) by (rewrite length_app; lia).
  rewrite bool_decide_eq_true_2 by (rewrite length_app; lia).
  rewrite Hun. cbn [mbind option_bind].
  rewrite drop_app_length' by done. rewrite Nat2Z.id, firstn_all.
  by destruct (download_chunks st !! i).
Qed.

Lemma inv_store (f : bytes) (A : Z → Prop) (i : Z) (d : bytes) (st : session) :
  inv f A st → genuine f i d → A i →
  ∃ st', store_datagram d st = Some st' ∧ inv f A st' ∧
         is_Some (download_chunks st' !! i).
Proof.
  intros Hinv Hgen HA. rewrite (store_datagram_genuine f i d st Hgen).
  destruct (download_chunks st !! i) as [c|] eqn:Hi.
  - exists st. by rewrite Hi.
  - eexists. split; [done|]. split; [|simpl; by rewrite lookup_insert_eq].
    pose proof Hinv as (Hsize & Hch & Hrecv). destruct Hgen as [Hrange _].
    split_and!; simpl.
    + done.
    + intros k c. rewrite lookup_insert. case_decide as Hk.
      * subst k. by intros [= <-].
      * by apply Hch.
    + rewrite Hrecv, !write_file_pieces. unfold expected_chunks. simpl.
      rewrite pieces_insert_in; [lia | apply NoDup_seqZ | | done].
      apply elem_of_seqZ. fold (expected_chunks st).
      rewrite (inv_expected _ _ _ Hinv). lia.
Qed.

(** *** The receive loop *)

Lemma elem_of_delivered (d : bytes) (evs : list udp_event) :
  d ∈ delivered evs ↔ Datagram d ∈ evs.
Proof.
  unfold delivered. rewrite list_elem_of_omap. split.
  - intros (ev & Hev & Hd). destruct ev; simplify_eq. done.
  - intros Hd. by exists (Datagram d).
Qed.

Lemma store_datagram_mono (raw : bytes) (st st' : session) (k : Z) :
  store_datagram raw st = Some st' →
  is_Some (download_chunks st !! k) → is_Some (download_chunks st' !! k).
Proof.
  unfold store_datagram. case_bool_decide; [|by intros [= <-]].
  destruct (unpack_II _) as [[chunk_num chunk_len]|]; [|discriminate].
  cbn [mbind option_bind].
  destruct (download_chunks st !! chunk_num) eqn:Hc; intros [= <-]; [done|].
  cbn [download_chunks]. intros Hk. rewrite lookup_insert.
  case_decide; [by eexists | done].
Qed.

Lemma receive_loop_mono (evs : list udp_event) (st : session) (k : Z) :
  is_Some (download_chunks st !! k) →
  is_Some (download_chunks (run_state (receive_loop evs st)) !! k).
Proof.
  revert st. induction evs as [|ev evs IH]; intros st Hk; cbn [receive_loop].
  - by case_bool_decide.
  - case_bool_decide; [|done]. destruct ev as [raw| |]; [| |done].
    + destruct (store_datagram raw st) as [st'|] eqn:Hst; [|done].
      apply IH. by eapply store_datagram_mono.
    + case_bool_decide; [done|]. by apply IH.
Qed.

Lemma receive_loop_app (evs evs2 : list udp_event) (st : session) :
  receive_loop (evs ++ evs2) st =
    match receive_loop evs st with
    | Exited st' => Exited st'
    | Waiting st' => receive_loop evs2 st'
    end.
Proof.
  revert st. induction evs as [|ev evs IH]; intros st.
  - rewrite app_nil_l. cbn [receive_loop].
    case_bool_decide as Hlt; [done|].
    destruct evs2; cbn [receive_loop]; by rewrite bool_decide_eq_false_2.
  - rewrite <- app_comm_cons. cbn [receive_loop].
    case_bool_decide; [|done]. destruct ev as [raw| |]; [| |done].
    + by destruct (store_datagram raw st).
    + by case_bool_decide.
Qed.

Lemma receive_loop_datagram (raw : bytes) (evs : list udp_event) (st : session) :
  receive_loop (Datagram raw :: evs) st =
    if bool_decide (download_received st < download_file_size st) then
      match store_datagram raw st with
      | Some st' => receive_loop evs st'
      | None => Exited st
      end
    else Exited st.
Proof. reflexivity. Qed.

Lemma timeouts_keep_waiting (st : session) (n : nat) :
  download_received st < download_file_size st →
  Z.of_nat (size (download_chunks st)) < expected_chunks st →
  receive_loop (replicate n SockTimeout) st = Waiting st.
Proof.
  intros Hrecv Hsize. induction n as [|n IH]; cbn [replicate receive_loop].
  - by rewrite bool_decide_eq_true_2.
  - rewrite bool_decide_eq_true_2 by done. by rewrite bool_decide_eq_false_2 by lia.
Qed.

Lemma receive_loop_inv (f : bytes) (A : Z → Prop) (evs : list udp_event)
    (st : session) :
  inv f A st → events_from f A evs →
  inv f A (run_state (receive_loop evs st)) ∧
  match receive_loop evs st with
  | Exited st' =>
      download_file_size st' ≤ download_received st' ∨
      expected_chunks st' ≤ Z.of_nat (size (download_chunks st'))
  | Waiting st' =>
      download_received st' < download_file_size st' ∧
      ∀ i d, Datagram d ∈ evs → genuine f i d →
             is_Some (download_chunks st' !! i)
  end.
Proof.
  revert st. induction evs as [|ev evs IH]; intros st Hinv Hevs;
    cbn [receive_loop].
  - case_bool_decide; simpl; [|split; [done | left; lia]].
    split_and!; [done..|]. intros i d Hd. by apply elem_of_nil in Hd.
  - case_bool_decide as Hlt; [|simpl; split; [done | left; lia]].
    apply Forall_cons in Hevs as [Hev Hevs].
    destruct Hev as [-> | (i0 & d0 & -> & Hgen & HA)].
    + case_bool_decide as Hall; [simpl; split; [done | by right]|].
      destruct (IH st Hinv Hevs) as [Hinv' Hres]. split; [done|].
      destruct (receive_loop evs st) as [st'|st']; [done|].
      destruct Hres as [Hlt' Hpres]. split; [done|].
      intros i d [Hd|Hd]%elem_of_cons; [discriminate | by eapply Hpres].
    + destruct (inv_store f A i0 d0 st Hinv Hgen HA) as (st1 & Hst & Hinv1 & _).
      rewrite Hst. destruct (IH st1 Hinv1 Hevs) as [Hinv' Hres]. split; [done|].
      pose proof (receive_loop_mono evs st1) as Hmono.
      destruct (receive_loop evs st1) as [st'|st']; [done|].
      destruct Hres as [Hlt' Hpres]. split; [done|].
      intros i d [Hd|Hd]%elem_of_cons Hg; [|by eapply Hpres].
      injection Hd as ->. apply Hmono.
      rewrite (store_datagram_genuine f i d0 st Hg) in Hst.
      injection Hst as <-. destruct (download_chunks st !! i) eqn:Hi.
      * by rewrite Hi.
      * cbn [download_chunks]. by rewrite lookup_insert_eq.
Qed.

(** A session that holds as many chunks as expected holds every one. *)
Lemma inv_all_present (f : bytes) (A : Z → Prop) (st : session) (i : Z) :
  inv f A st →
  expected_chunks st ≤ Z.of_nat (size (download_chunks st)) →
  0 ≤ i < chunk_count f → is_Some (download_chunks st !! i).
Proof.
  intros Hinv Hsize Hi. rewrite (inv_expected _ _ _ Hinv) in Hsize.
  destruct Hinv as (_ & Hch & _).
  set (X := dom (download_chunks st) : gset Z).
  set (Y := list_to_set (seqZ 0 (chunk_count f)) : gset Z).
  assert (X = Y) as HXY.
  { apply set_subseteq_size_eq.
    - intros k [c Hk]%elem_of_dom. apply elem_of_list_to_set, elem_of_seqZ.
      destruct (Hch k c Hk) as (? & _ & _). lia.
    - unfold X, Y. rewrite size_dom, size_list_to_set by apply NoDup_seqZ.
      rewrite length_seqZ. lia. }
  apply elem_of_dom. fold X. rewrite HXY.
  apply elem_of_list_to_set, elem_of_seqZ. lia.
Qed.

Lemma inv_written_all (f : bytes) (A : Z → Prop) (st : session) :
  inv f A st →
  (∀ i, 0 ≤ i < chunk_count f → is_Some (download_chunks st !! i)) →
  write_file st = f.
Proof.
  intros Hinv Hall. rewrite write_file_pieces, (inv_expected _ _ _ Hinv).
  etransitivity; [|apply concat_all_chunks]. f_equal.
  apply list_fmap_ext. intros j i Hi.
  apply list_elem_of_lookup_2, elem_of_seqZ in Hi.
  destruct (Hall i) as [c Hc]; [lia|]. unfold piece. rewrite Hc. simpl.
  destruct Hinv as (_ & Hch & _). by destruct (Hch i c Hc) as (_ & _ & ->).
Qed.

(** *** Reassembly *)

Lemma genuine_of_sent (f : bytes) (sent : list bytes) (d : bytes) :
  file_datagrams f = Some (sent, true) → d ∈ sent → ∃ i, genuine f i d.
Proof.
  intros Hsent [j Hj]%list_elem_of_lookup_1.
  exists (Z.of_nat j). by apply (file_datagrams_genuine f sent Hsent).
Qed.

Lemma sent_of_index (f : bytes) (sent : list bytes) (i : Z) :
  file_datagrams f = Some (sent, true) → 0 ≤ i < chunk_count f →
  ∃ d, sent !! Z.to_nat i = Some d ∧ genuine f i d.
Proof.
  intros Hsent Hi. destruct (file_datagrams_genuine f sent Hsent) as [Hlen Hgen].
  destruct (lookup_lt_is_Some_2 sent (Z.to_nat i)) as [d Hd]; [lia|].
  exists d. split; [done|]. rewrite <- (Z2Nat.id i) by lia. by apply Hgen.
Qed.

(** C1. For every file the sender can chunk, if the datagrams of all its
    chunks reach the receive loop exactly once each, in any order and with
    any poll time-outs in between, then the loop ends, the file written is
    the original file, byte for byte, and the download is reported as
    successful. *)
Theorem reassembly_complete (f : bytes) (sent : list bytes)
    (evs : list udp_event) :
  file_datagrams f = Some (sent, true) →
  SockError ∉ evs →
  delivered evs ≡ₚ sent →
  receive_file_udp evs (handle_download_start_udp (Z.of_nat (length f)))
    = Some (f, true).
Proof.
  intros Hsent Herr Hperm.
  set (st0 := handle_download_start_udp (Z.of_nat (length f))).
  assert (events_from f (λ _, True) evs) as Hevs.
  { apply Forall_forall. intros [d| |] Hev; [right | by left | done].
    assert (d ∈ sent) as Hd by (rewrite <- Hperm; by apply elem_of_delivered).
    destruct (genuine_of_sent f sent d Hsent Hd) as [i Hi]. by exists i, d. }
  destruct (receive_loop_inv f (λ _, True) evs st0 (inv_start f _) Hevs)
    as [Hinv Hres].
  assert (∀ st', inv f (λ _, True) st' → write_file st' = f →
            (write_file st',
             bool_decide (download_received st' = download_file_size st'))
            = (f, true)) as Hdone.
  { intros st' (Hsize & _ & Hrecv) Hw. rewrite Hw in *.
    by rewrite bool_decide_eq_true_2 by lia. }
  unfold receive_file_udp. fold st0.
  destruct (receive_loop evs st0) as [st'|st']; simpl in Hinv.
  - f_equal. apply Hdone; [done|]. destruct Hres as [Hfull | Hcount].
    + by eapply inv_written_full.
    + eapply inv_written_all; [done|]. intros i Hi. by eapply inv_all_present.
  - exfalso. destruct Hres as [Hlt Hpres].
    assert (write_file st' = f) as Hw.
    { eapply inv_written_all; [done|]. intros i Hi.
      destruct (sent_of_index f sent i Hsent Hi) as (d & Hd & Hgen).
      eapply Hpres; [|done]. apply elem_of_delivered. rewrite Hperm.
      by eapply list_elem_of_lookup_2. }
    destruct Hinv as (Hsize & _ & Hrecv). rewrite Hw in Hrecv. lia.
Qed.

Lemma reassembly_complete_witness :
  ∃ d0 d1,
    receive_file_udp [Datagram d1; SockTimeout; Datagram d0]
                     (handle_download_start_udp 1025)
    = Some (two_chunk_file, true).
Proof.
  destruct (file_datagrams two_chunk_file) as [[sent ok]|] eqn:Hsent;
    [|by vm_compute in Hsent].
  destruct sent as [|d0 [|d1 [|d2 sent]]]; try by vm_compute in Hsent.
  destruct ok; [|by vm_compute in Hsent].
  exists d0, d1.
  apply (reassembly_complete two_chunk_file [d0; d1]
           [Datagram d1; SockTimeout; Datagram d0]).
  - exact Hsent.
  - intros H. repeat (apply elem_of_cons in H as [H|H]; [discriminate|]).
    by apply elem_of_nil in H.
  - simpl. apply perm_swap.
Defined.

(** Whatever has arrived, the file written is made of the chunks that are
    in the chunk map, in index order, and of nothing else. *)
Lemma written_chunks (f : bytes) (A : Z → Prop) (st : session) :
  inv f A st →
  write_file st
  = concat ((λ i, if decide (is_Some (download_chunks st !! i))
                  then chunk_of f i else [])
              <$> seqZ 0 (chunk_count f)).
Proof.
  intros Hinv. rewrite write_file_pieces, (inv_expected _ _ _ Hinv). f_equal.
  apply list_fmap_ext. intros j i _. unfold piece.
  destruct Hinv as (_ & Hch & _).
  destruct (download_chunks st !! i) as [c|] eqn:Hc.
  - rewrite decide_True by by eexists. by destruct (Hch i c Hc) as (_ & _ & ->).
  - rewrite decide_False; [done|]. by intros [? ?].
Qed.

(** *** A chunk that never arrives *)

Lemma sub_pieces_strict (p c : Z → bytes) (l : list Z) (k : Z) :
  (∀ i, i ∈ l → p i = c i ∨ p i = []) →
  k ∈ l → p k = [] → c k ≠ [] →
  (length (concat (p <$> l)) < length (concat (c <$> l)))%nat.
Proof.
  intros Hp Hk Hpk Hck. induction l as [|i l IH]; [by apply elem_of_nil in Hk|].
  rewrite !fmap_cons. simpl. rewrite !length_app.
  assert (length (concat (p <$> l)) ≤ length (concat (c <$> l)))%nat
    by (apply sub_pieces_length; intros j Hj; apply Hp; by right).
  assert (length (p i) ≤ length (c i))%nat
    by (destruct (Hp i) as [-> | ->]; [by left | done | simpl; lia]).
  apply elem_of_cons in Hk as [<- | Hk].
  - rewrite Hpk. destruct (c k); [done | simpl; lia].
  - assert (length (concat (p <$> l)) < length (concat (c <$> l)))%nat
      by (apply IH; [intros j Hj; apply Hp; by right | done]).
    lia.
Qed.

Lemma elem_of_delete (sent : list bytes) (k : nat) (d : bytes) :
  d ∈ delete k sent → ∃ j, j ≠ k ∧ sent !! j = Some d.
Proof.
  intros [j Hj]%list_elem_of_lookup_1. destruct (decide (j < k)%nat).
  - rewrite list_lookup_delete_lt in Hj by done. exists j. split; [lia | done].
  - rewrite list_lookup_delete_ge in Hj by lia. exists (S j). split; [lia | done].
Qed.

Lemma elem_of_delete_2 (sent : list bytes) (k j : nat) (d : bytes) :
  j ≠ k → sent !! j = Some d → d ∈ delete k sent.
Proof.
  intros Hne Hj. destruct (decide (j < k)%nat).
  - apply (list_elem_of_lookup_2 _ j). by rewrite list_lookup_delete_lt.
  - apply (list_elem_of_lookup_2 _ (pred j)). rewrite list_lookup_delete_ge by lia.
    by replace (S (pred j)) with j by lia.
Qed.

(** The file written when exactly chunk [k] is missing. *)
Lemma written_without (f : bytes) (A : Z → Prop) (st : session) (k : Z) :
  inv f A st → 0 ≤ k < chunk_count f →
  download_chunks st !! k = None →
  (∀ i, 0 ≤ i < chunk_count f → i ≠ k → is_Some (download_chunks st !! i)) →
  write_file st
  = take (1024 * Z.to_nat k) f ++ drop (1024 * (Z.to_nat k + 1)) f.
Proof.
  intros Hinv Hk Hnone Hall.
  rewrite write_file_pieces, (inv_expected _ _ _ Hinv).
  assert (∀ i, 0 ≤ i < chunk_count f → i ≠ k →
            piece (download_chunks st) i = chunk_of f i) as Hpiece.
  { intros i Hi Hne. destruct (Hall i Hi Hne) as [c Hc]. unfold piece.
    rewrite Hc. destruct Hinv as (_ & Hch & _).
    by destruct (Hch i c Hc) as (_ & _ & ->). }
  replace (chunk_count f) with (k + (1 + (chunk_count f - k - 1))) by lia.
  rewrite seqZ_app by lia. rewrite (seqZ_app (0 + k)) by lia.
  rewrite !fmap_app, !concat_app.
  replace (seqZ (0 + k) 1) with [k] by (by rewrite Z.add_0_l).
  rewrite fmap_cons. cbn [fmap list_fmap concat]. unfold piece at 2.
  rewrite Hnone. cbn [default]. rewrite !app_nil_l.
  rewrite (list_fmap_ext (piece (download_chunks st)) (chunk_of f) (seqZ 0 k)).
  2:{ intros j i Hi. apply list_elem_of_lookup_2, elem_of_seqZ in Hi.
      apply Hpiece; lia. }
  rewrite (list_fmap_ext (piece (download_chunks st)) (chunk_of f)
             (seqZ (0 + k + 1) (chunk_count f - k - 1))).
  2:{ intros j i Hi. apply list_elem_of_lookup_2, elem_of_seqZ in Hi.
      apply Hpiece; lia. }
  rewrite <- (Z2Nat.id k) at 1 by lia.
  rewrite <- (Z2Nat.id (chunk_count f - k - 1)) by lia.
  rewrite !concat_chunks by lia.
  change (Z.to_nat (1024 * 0)) with 0%nat. rewrite drop_0.
  replace (Z.to_nat (1024 * (0 + k + 1))) with (1024 * (Z.to_nat k + 1))%nat by lia.
  f_equal. apply take_ge. rewrite length_drop.
  unfold chunk_count in *. Z.div_mod_to_equations. lia.
Qed.

(** C4, as stated, fails: with chunk 0 of a 1025-byte file lost and chunk 1
    delivered, the file written is the single byte of chunk 1, not 1025
    bytes with a zero-filled range. *)
Lemma gap_output_is_short :
  (∃ d0, file_datagrams two_chunk_file = Some ([d0; lone_last_chunk], true)) ∧
  receive_file_udp [Datagram lone_last_chunk; SockError]
                   (handle_download_start_udp 1025) = Some ([x02], false) ∧
  length [x02] ≠ length two_chunk_file.
Proof.
  split_and!.
  - eexists. by vm_compute.
  - by vm_compute.
  - by vm_compute.
Qed.

(** C4, amended. If the datagrams of all chunks but chunk [k] reach the
    receive loop and the loop then ends (by a receive error, the only way it
    can), the file written is the original file with the byte range of chunk
    [k] cut out: the bytes before the range are in place, the bytes after it
    follow at once, the file is shorter than announced, and the download is
    reported as incomplete. *)
Theorem missing_chunk_gap (f : bytes) (sent : list bytes) (k : nat)
    (evs rest : list udp_event) :
  file_datagrams f = Some (sent, true) →
  (k < length sent)%nat →
  SockError ∉ evs →
  delivered evs ≡ₚ delete k sent →
  receive_file_udp (evs ++ SockError :: rest)
                   (handle_download_start_udp (Z.of_nat (length f)))
    = Some (take (1024 * k) f ++ drop (1024 * (k + 1)) f, false)
  ∧ (length (take (1024 * k) f ++ drop (1024 * (k + 1)) f) < length f)%nat.
Proof.
  intros Hsent Hk Herr Hperm.
  set (st0 := handle_download_start_udp (Z.of_nat (length f))).
  set (A := λ i : Z, i ≠ Z.of_nat k).
  destruct (file_datagrams_genuine f sent Hsent) as [Hlen Hgen].
  assert (0 ≤ Z.of_nat k < chunk_count f) as Hkr by lia.
  assert (events_from f A evs) as Hevs.
  { apply Forall_forall. intros [d| |] Hev; [right | by left | done].
    assert (d ∈ delete k sent) as Hd by (rewrite <- Hperm; by apply elem_of_delivered).
    destruct (elem_of_delete sent k d Hd) as (j & Hne & Hj).
    exists (Z.of_nat j), d. split_and!; [done | by apply Hgen | unfold A; lia]. }
  destruct (receive_loop_inv f A evs st0 (inv_start f _) Hevs) as [Hinv Hres].
  assert (download_chunks (run_state (receive_loop evs st0)) !! Z.of_nat k = None)
    as Hnone.
  { destruct (download_chunks _ !! Z.of_nat k) as [c|] eqn:Hc; [|done].
    destruct Hinv as (_ & Hch & _). by destruct (Hch _ c Hc) as (_ & HA & _). }
  assert (length (write_file (run_state (receive_loop evs st0))) < length f)%nat
    as Hshort.
  { rewrite write_file_pieces, (inv_expected _ _ _ Hinv).
    rewrite <- (concat_all_chunks f) at 2.
    apply (sub_pieces_strict _ _ _ (Z.of_nat k)).
    - intros i _. by eapply inv_piece.
    - apply elem_of_seqZ. lia.
    - unfold piece. by rewrite Hnone.
    - by apply chunk_of_nonempty. }
  unfold receive_file_udp. fold st0. rewrite receive_loop_app.
  destruct (receive_loop evs st0) as [st'|st'] eqn:Hloop; cbn [run_state] in *.
  - exfalso. destruct Hres as [Hfull | Hcount].
    + destruct Hinv as (Hsize & _ & Hrecv). lia.
    + destruct (inv_all_present f A st' (Z.of_nat k) Hinv Hcount Hkr) as [c Hc].
      by rewrite Hc in Hnone.
  - destruct Hres as [Hlt Hpres]. cbn [receive_loop].
    rewrite bool_decide_eq_true_2 by done.
    rewrite bool_decide_eq_false_2 by lia.
    assert (write_file st' = take (1024 * k) f ++ drop (1024 * (k + 1)) f) as Hw.
    { rewrite (written_without f A st' (Z.of_nat k) Hinv Hkr Hnone).
      - by rewrite Nat2Z.id.
      - intros i Hi Hne.
        destruct (sent_of_index f sent i Hsent Hi) as (d & Hd & Hg).
        eapply Hpres; [|done]. apply elem_of_delivered. rewrite Hperm.
        eapply elem_of_delete_2; [|done]. lia. }
    rewrite <- Hw. split; [done | lia].
Qed.

Lemma missing_chunk_gap_witness :
  receive_file_udp ([Datagram lone_last_chunk] ++ SockError :: [])
                   (handle_download_start_udp (Z.of_nat (length two_chunk_file)))
    = Some (take (1024 * 0) two_chunk_file
              ++ drop (1024 * (0 + 1)) two_chunk_file, false)
  ∧ (length (take (1024 * 0) two_chunk_file
               ++ drop (1024 * (0 + 1)) two_chunk_file)
     < length two_chunk_file)%nat.
Proof.
  destruct (file_datagrams two_chunk_file) as [[sent ok]|] eqn:Hsent;
    [|by vm_compute in Hsent].
  destruct sent as [|d0 [|d1 [|d2 sent]]]; try by vm_compute in Hsent.
  destruct ok; [|by vm_compute in Hsent].
  assert (d1 = lone_last_chunk) as ->
    by (vm_compute in Hsent; by injection Hsent as _ <-).
  apply (missing_chunk_gap two_chunk_file [d0; lone_last_chunk] 0
           [Datagram lone_last_chunk] []).
  - exact Hsent.
  - simpl. lia.
  - intros H. apply elem_of_cons in H as [H|H]; [discriminate|].
    by apply elem_of_nil in H.
  - reflexivity.
Defined.

(** *** Termination *)

(** C3, as stated, fails: with chunk 0 of a 1025-byte file lost, no number
    of poll time-outs ends the receive loop. *)
Lemma lost_chunk_never_ends :
  ¬ session_ends [Datagram lone_last_chunk] (handle_download_start_udp 1025).
Proof.
  intros (n & st' & Hend). rewrite receive_loop_app in Hend.
  assert (receive_loop [Datagram lone_last_chunk] (handle_download_start_udp 1025)
          = Waiting (Session 1025 {[1 := [x02]]} 1)) as Hfirst by by vm_compute.
  rewrite Hfirst in Hend.
  rewrite timeouts_keep_waiting in Hend; [discriminate | by vm_compute..].
Qed.

(** C3, amended. The receive loop ends as soon as the received-byte counter
    has reached the announced size, at a receive error, and at a poll
    time-out at which the number of chunk indices stored has reached the
    expected count.  There is no quiet-period time-out: while bytes are
    missing and fewer indices than expected are stored, any number of poll
    time-outs in a row leaves the loop running, its state unchanged. *)
Theorem receive_loop_exits (st : session) :
  (download_file_size st ≤ download_received st →
   ∀ evs, receive_loop evs st = Exited st) ∧
  (download_received st < download_file_size st →
   (∀ evs, receive_loop (SockError :: evs) st = Exited st) ∧
   (expected_chunks st ≤ Z.of_nat (size (download_chunks st)) →
    ∀ evs, receive_loop (SockTimeout :: evs) st = Exited st) ∧
   (Z.of_nat (size (download_chunks st)) < expected_chunks st →
    ∀ n, receive_loop (replicate n SockTimeout) st = Waiting st)).
Proof.
  split; [|intros Hlt; split_and!].
  - intros Hge evs. destruct evs; cbn [receive_loop];
      by rewrite bool_decide_eq_false_2 by lia.
  - intros evs. cbn [receive_loop]. by rewrite bool_decide_eq_true_2.
  - intros Hcount evs. cbn [receive_loop].
    rewrite bool_decide_eq_true_2 by done. by rewrite bool_decide_eq_true_2.
  - intros Hcount n. by apply timeouts_keep_waiting.
Qed.

Lemma receive_loop_exits_witness :
  receive_loop (replicate 5 SockTimeout) (Session 1025 {[1 := [x02]]} 1)
  = Waiting (Session 1025 {[1 := [x02]]} 1).
Proof.
  apply (receive_loop_exits (Session 1025 {[1 := [x02]]} 1)); by vm_compute.
Defined.

(** *** Duplicates *)

(** C9. A datagram whose chunk index is already in the chunk map leaves the
    session as it is, chunk map and received-byte counter alike, and the
    loop goes on as if it had not arrived; so a session given a datagram
    twice ends as the session given it once, with the same file written. *)
Theorem duplicate_chunk_ignored (st : session) (raw : bytes) (k : Z) :
  chunk_index raw = Some k →
  is_Some (download_chunks st !! k) →
  store_datagram raw st = Some st ∧
  (∀ evs, receive_loop (Datagram raw :: evs) st = receive_loop evs st) ∧
  (∀ st0 evs, receive_file_udp (Datagram raw :: Datagram raw :: evs) st0
              = receive_file_udp (Datagram raw :: evs) st0).
Proof.
  unfold chunk_index. case_bool_decide as Hlen; [|discriminate].
  intros Hk [c Hc].
  assert (∀ st1, is_Some (download_chunks st1 !! k) →
                 store_datagram raw st1 = Some st1) as Hsame.
  { intros st1 [c1 Hc1]. unfold store_datagram.
    rewrite bool_decide_eq_true_2 by done.
    destruct (unpack_II _) as [[chunk_num chunk_len]|]; [|discriminate].
    injection Hk as ->. cbn [mbind option_bind]. by rewrite Hc1. }
  assert (∀ st1, ∃ st2, store_datagram raw st1 = Some st2 ∧
                        is_Some (download_chunks st2 !! k)) as Hstored.
  { intros st1. unfold store_datagram. rewrite bool_decide_eq_true_2 by done.
    destruct (unpack_II _) as [[chunk_num chunk_len]|]; [|discriminate].
    injection Hk as ->. cbn [mbind option_bind].
    destruct (download_chunks st1 !! k) eqn:Hk1; eexists; (split; [done|]).
    - by rewrite Hk1.
    - cbn [download_chunks]. by rewrite lookup_insert_eq. }
  assert (∀ st1 evs, is_Some (download_chunks st1 !! k) →
            receive_loop (Datagram raw :: evs) st1 = receive_loop evs st1) as Hskip.
  { intros st1 evs Hk1. cbn [receive_loop]. rewrite (Hsame st1 Hk1).
    case_bool_decide as Hlt; [done|].
    destruct evs; cbn [receive_loop]; by rewrite bool_decide_eq_false_2. }
  split_and!; [by apply Hsame; eexists | intros evs; apply Hskip; by eexists |].
  intros st0 evs. unfold receive_file_udp.
  rewrite (receive_loop_datagram raw (Datagram raw :: evs) st0).
  rewrite (receive_loop_datagram raw evs st0).
  case_bool_decide as Hlt; [|done].
  destruct (Hstored st0) as (st2 & -> & Hk2). by rewrite Hskip.
Qed.

Lemma duplicate_chunk_ignored_witness :
  store_datagram lone_last_chunk (Session 1025 {[1 := [x02]]} 1)
  = Some (Session 1025 {[1 := [x02]]} 1).
Proof.
  destruct (duplicate_chunk_ignored (Session 1025 {[1 := [x02]]} 1)
              lone_last_chunk 1) as [H _].
  - by vm_compute.
  - exists [x02]. by vm_compute.
  - exact H.
Defined.

End DatagramFacts.

(** ** The server *)

Section ServerFacts.
Import Wire Server.

Variable link_down : list event → socket → bool.
Variable str_upper : text → text.
Variable listdir : option (list text).
Variable shared : text → option fs_entry.
Variable exc_str : text.

Local Abbreviation send_message := (Server.send_message link_down).
Local Abbreviation broadcast_loop := (Server.broadcast_loop link_down).
Local Abbreviation remove_client_fuel := (Server.remove_client_fuel link_down).
Local Abbreviation remove_client := (Server.remove_client link_down).
Local Abbreviation broadcast_message := (Server.broadcast_message link_down).
Local Abbreviation unicast_message := (Server.unicast_message link_down).
Local Abbreviation join_group := (Server.join_group link_down).
Local Abbreviation leave_group := (Server.leave_group link_down).
Local Abbreviation send_file_udp := (Server.send_file_udp link_down exc_str).
Local Abbreviation dispatch :=
  (Server.dispatch link_down str_upper listdir shared exc_str).
Local Abbreviation handle_client_message :=
  (Server.handle_client_message link_down str_upper listdir shared exc_str).
Local Abbreviation sendable := (Server.sendable link_down).
Local Abbreviation udp_download_event := (Server.udp_download_event exc_str).

(** *** Containers *)

Lemma dict_get_dict_del {V : Type} (s x : socket) (d : list (socket * V)) :
  dict_get s (dict_del x d) = if decide (s = x) then None else dict_get s d.
Proof.
  unfold dict_del. induction d as [|[k v] d IH]; simpl.
  - by case_decide.
  - rewrite filter_cons. simpl. destruct (decide (k ≠ x)) as [Hk|Hk]; simpl.
    + case_bool_decide as Hks; [|done].
      subst k. by rewrite decide_False by done.
    + apply dec_stable in Hk. subst k. rewrite IH.
      destruct (decide (s = x)); [done|]. by rewrite bool_decide_eq_false_2 by done.
Qed.

Lemma dict_del_length {V : Type} (x : socket) (d : list (socket * V)) :
  (length (dict_del x d) ≤ length d)%nat.
Proof. apply length_filter. Qed.

Lemma dict_del_length_lt {V : Type} (x : socket) (d : list (socket * V)) :
  is_Some (dict_get x d) → (length (dict_del x d) < length d)%nat.
Proof.
  unfold dict_del. induction d as [|[k v] d IH]; simpl.
  - by intros [? ?].
  - rewrite filter_cons. simpl. case_bool_decide as Hk.
    + intros _. destruct (decide (k ≠ x)); [done|].
      pose proof (length_filter (λ p : socket * V, p.1 ≠ x) d). lia.
    + intros Hd. destruct (decide (k ≠ x)); [|done]. simpl. apply IH in Hd. lia.
Qed.

Lemma dict_get_elem_of {K V : Type} `{EqDecision K} (k : K) (v : V)
    (d : list (K * V)) :
  dict_get k d = Some v → (k, v) ∈ d.
Proof.
  induction d as [|[k' v'] d IH]; simpl; [done|].
  case_bool_decide as Hk.
  - intros [= ->]. subst. by left.
  - intros Hd. right. by apply IH.
Qed.

Lemma elem_of_dict_get {K V : Type} `{EqDecision K} (k : K) (v : V)
    (d : list (K * V)) :
  (k, v) ∈ d → is_Some (dict_get k d).
Proof.
  induction d as [|[k' v'] d IH]; simpl; [by intros ?%elem_of_nil|].
  intros [[= -> ->] | Hd]%elem_of_cons.
  - rewrite bool_decide_eq_true_2 by done. by eexists.
  - case_bool_decide; [by eexists | by apply IH].
Qed.

Lemma list_remove_elem_of (s x : socket) (m : list socket) :
  x ∈ list_remove s m → x ∈ m.
Proof.
  induction m as [|y m IH]; simpl; [done|].
  case_bool_decide; [by right|].
  intros [->|Hx]%elem_of_cons; [by left | right; by apply IH].
Qed.

Lemma list_remove_NoDup (s : socket) (m : list socket) :
  NoDup m → NoDup (list_remove s m) ∧ s ∉ list_remove s m.
Proof.
  induction m as [|y m IH]; simpl.
  - intros _. split; [constructor | by intros ?%elem_of_nil].
  - intros [Hy Hm]%NoDup_cons. case_bool_decide as Hys.
    + subst y. done.
    + destruct (IH Hm) as [Hnd Hs]. split.
      * apply NoDup_cons. split; [|done].
        intros Hin. apply Hy. by eapply list_remove_elem_of.
      * intros [->|Hin]%elem_of_cons; [done | by apply Hs].
Qed.

(** What [purge_groups] keeps. *)
Lemma purge_groups_elem_of (sock : socket) (gs : list (text * list socket))
    (g : text) (m' : list socket) :
  (g, m') ∈ purge_groups sock gs →
  ∃ m, (g, m) ∈ gs ∧
       (((sock ∉ m) ∧ m' = m) ∨ (sock ∈ m ∧ m' = list_remove sock m ∧ m' ≠ [])).
Proof.
  induction gs as [|[g0 m0] gs IH]; simpl; [by intros ?%elem_of_nil|].
  assert ((g, m') ∈ purge_groups sock gs →
          ∃ m, (g, m) ∈ (g0, m0) :: gs ∧
            (((sock ∉ m) ∧ m' = m) ∨
             (sock ∈ m ∧ m' = list_remove sock m ∧ m' ≠ []))) as Htail.
  { intros Hin. destruct (IH Hin) as (m & Hm & Hcase).
    exists m. split; [by right | done]. }
  case_bool_decide as Hs.
  - destruct (list_remove sock m0) as [|y r] eqn:Hrm; [done|].
    intros [[= -> ->] | Hin]%elem_of_cons; [|by apply Htail].
    exists m0. split; [by left|]. right. by rewrite Hrm.
  - intros [[= -> ->] | Hin]%elem_of_cons; [|by apply Htail].
    exists m0. split; [by left | by left].
Qed.

(** *** How a run of sends and removals changes the state *)

Lemma evolves_registered msg gone delta st st' s :
  evolves msg gone delta st st' → registered s st' → registered s st.
Proof. intros Hev [info Hs]. exists info. by eapply ev_clients. Qed.

Lemma evolves_refl msg gone st : evolves msg gone [] st st.
Proof.
  split; try done.
  - by rewrite app_nil_r.
  - by intros s m ?%elem_of_nil.
  - by intros _ s ?%elem_of_nil.
Qed.

Lemma evolves_trans msg gone d1 d2 st st1 st2 :
  evolves msg gone d1 st st1 → evolves msg gone d2 st1 st2 →
  evolves msg gone (d1 ++ d2) st st2.
Proof.
  intros H1 H2. split.
  - by rewrite (ev_port H2), (ev_port H1).
  - by rewrite (ev_trace H2), (ev_trace H1), app_assoc.
  - intros s m [Hin|Hin]%elem_of_app;
      [exact (ev_sent H1 s m Hin) | exact (ev_sent H2 s m Hin)].
  - intros s info Hs.
    exact (ev_clients H1 s info (ev_clients H2 s info Hs)).
  - pose proof (ev_length H1). pose proof (ev_length H2). lia.
  - intros s Hs. exact (ev_groups H1 s (ev_groups H2 s Hs)).
  - intros s Hs Hns. destruct (dict_get s (clients st1)) as [info|] eqn:Hs1.
    + destruct (ev_removed H2 s) as [Hf|Hg]; [by eexists | done | | by right].
      left. apply elem_of_app. by right.
    + destruct (ev_removed H1 s) as [Hf|Hg]; [done | | | by right].
      * intros [info Hinfo]. unfold registered in *. congruence.
      * left. apply elem_of_app. by left.
  - intros Hne. exact (ev_no_empty H2 (ev_no_empty H1 Hne)).
  - intros Hwf. exact (ev_wf H2 (ev_wf H1 Hwf)).
  - intros Hwf s [Hin|Hin]%elem_of_app.
    + destruct (ev_failed H1 Hwf s Hin) as [Hr Hg]. split.
      * intros Hr2. apply Hr. exact (evolves_registered _ _ _ _ _ _ H2 Hr2).
      * intros Hg2. apply Hg. exact (ev_groups H2 s Hg2).
    + exact (ev_failed H2 (ev_wf H1 Hwf) s Hin).
Qed.

Lemma evolves_weaken (msg msg' : text → Prop) (gone gone' : socket → Prop)
    delta st st' :
  (∀ m, msg m → msg' m ∨ is_leave m) → (∀ s, gone s → gone' s) →
  evolves msg gone delta st st' → evolves msg' gone' delta st st'.
Proof.
  intros Hmsg Hgone H. split; try by destruct H.
  - intros s m Hin. destruct (ev_sent H s m Hin); [by apply Hmsg | by right].
  - intros s Hs Hns. destruct (ev_removed H s Hs Hns); [by left | right; by apply Hgone].
Qed.

Lemma evolves_log_sent msg gone s m st :
  msg m → evolves msg gone [Sent s m] st (log (Sent s m) st).
Proof.
  intros Hm. split; try done.
  - intros s' m' [[= -> ->] | ?%elem_of_nil]%elem_of_cons; [by left | done].
  - intros _ s' [? | ?%elem_of_nil]%elem_of_cons; done.
Qed.

Lemma send_message_cases (s : socket) (m : text) (st : server) :
  send_message s m st = Ok (log (Sent s m) st) ∨
  send_message s m st = Raise (log (SendFailed s) st).
Proof.
  unfold Server.send_message. destruct (Channel.send_message m []); [|by right].
  destruct (_ || _); [by right | by left].
Qed.

Lemma unregister_removes (sock : socket) (st : server) :
  removes sock [] st (unregister sock st).
Proof.
  assert (∀ s, in_group s (unregister sock st) →
               in_group s st ∧ ((∀ g m, (g, m) ∈ groups st → NoDup m) → s ≠ sock))
    as Hgroups.
  { intros s (g & m' & Hg & Hs). simpl in Hg.
    destruct (purge_groups_elem_of _ _ _ _ Hg) as (m & Hm & [[Hn ->] | (Hin & -> & _)]).
    - split; [by exists g, m|]. intros _ ->. done.
    - split; [exists g, m; split; [done | by eapply list_remove_elem_of]|].
      intros Hnd ->. by apply (list_remove_NoDup sock m (Hnd g m Hm)). }
  assert (∀ s, dict_get s (clients (unregister sock st))
               = if decide (s = sock) then None else dict_get s (clients st))
    as Hclients by (intros s; apply dict_get_dict_del).
  split_and!.
  - split.
    + done.
    + by rewrite app_nil_r.
    + by intros s m ?%elem_of_nil.
    + intros s info. rewrite Hclients. by case_decide.
    + apply dict_del_length.
    + intros s Hs. by apply Hgroups.
    + intros s Hs Hns. right. destruct (decide (s = sock)) as [|Hne]; [done|].
      exfalso. apply Hns. unfold registered. rewrite Hclients.
      by rewrite decide_False.
    + intros Hne g m' Hg. simpl in Hg.
      destruct (purge_groups_elem_of _ _ _ _ Hg) as (m & Hm & [[Hn ->] | (_ & _ & Hm')]);
        [by eapply Hne | done].
    + intros [Hnd Hreg]. split.
      * intros g m' Hg. simpl in Hg.
        destruct (purge_groups_elem_of _ _ _ _ Hg) as (m & Hm & [[Hn ->] | (_ & -> & _)]);
          [by eapply Hnd|].
        by apply list_remove_NoDup, (Hnd g m).
      * intros s Hs. destruct (Hgroups s Hs) as [Hs0 Hne].
        unfold registered. rewrite Hclients. rewrite decide_False by by apply Hne.
        by apply Hreg.
    + by intros _ s ?%elem_of_nil.
  - unfold registered. rewrite Hclients. rewrite decide_True by done. by intros [? ?].
  - intros [Hnd _] Hs. by destruct (Hgroups sock Hs) as [_ Hne]; apply Hne.
Qed.

Lemma unregister_length (sock : socket) (st : server) :
  registered sock st →
  (length (clients (unregister sock st)) < length (clients st))%nat.
Proof. intros Hs. by apply dict_del_length_lt. Qed.

(** A failed send followed by [remove_client]. *)
Lemma evolves_failed_removed msg s d st st2 :
  removes s d (log (SendFailed s) st) st2 →
  evolves msg (λ _, False) (SendFailed s :: d) st st2.
Proof.
  intros (H & Hns & Hng). split.
  - by rewrite (ev_port H).
  - rewrite (ev_trace H). simpl. by rewrite <- app_assoc.
  - intros s' m [? | Hin]%elem_of_cons; [done|].
    destruct (ev_sent H s' m Hin) as [[] | Hl]. by right.
  - apply (ev_clients H).
  - apply (ev_length H).
  - apply (ev_groups H).
  - intros s' Hs Hns'. left.
    destruct (ev_removed H s' Hs Hns') as [Hf | ->]; [by right | by left].
  - apply (ev_no_empty H).
  - apply (ev_wf H).
  - intros Hwf s' [[= ->] | Hin]%elem_of_cons.
    + split; [done | by apply Hng].
    + by apply (ev_failed H).
Qed.

(** The broadcast loop, for any [remove] that behaves as [remove_client]. *)
Lemma broadcast_loop_evolves (remove : socket → server → option server)
    (message : text) (exclude_socket : option socket) :
  (∀ s st1 st2, remove s st1 = Some st2 → ∃ d, removes s d st1 st2) →
  ∀ snapshot st st',
    broadcast_loop remove message exclude_socket snapshot st = Some st' →
    ∃ delta,
      evolves (λ m, m = message) (λ _, False) delta st st' ∧
      ∀ s, s ∈ snapshot → Some s ≠ exclude_socket →
           Sent s message ∈ delta ∨ SendFailed s ∈ delta.
Proof.
  intros Hremove. induction snapshot as [|sock rest IH]; intros st st' Hloop.
  - injection Hloop as <-. exists []. split; [apply evolves_refl|].
    by intros s ?%elem_of_nil.
  - cbn [Server.broadcast_loop] in Hloop. case_bool_decide as Hex.
    + destruct (send_message_cases sock message st) as [Hsend | Hsend];
        rewrite Hsend in Hloop.
      * destruct (IH _ _ Hloop) as (d & Hev & Hdel).
        exists ([Sent sock message] ++ d). split.
        { eapply evolves_trans; [by apply evolves_log_sent | done]. }
        intros s [-> | Hs]%elem_of_cons Hne.
        -- left. apply elem_of_app. left. by left.
        -- destruct (Hdel s Hs Hne); [left | right]; apply elem_of_app; by right.
      * destruct (remove sock (log (SendFailed sock) st)) as [st2|] eqn:Hrm;
          [|discriminate].
        cbn [mbind option_bind] in Hloop.
        destruct (Hremove _ _ _ Hrm) as [d1 Hd1].
        destruct (IH _ _ Hloop) as (d & Hev & Hdel).
        exists ((SendFailed sock :: d1) ++ d). split.
        { eapply evolves_trans; [by apply evolves_failed_removed | done]. }
        intros s [-> | Hs]%elem_of_cons Hne.
        -- right. apply elem_of_app. left. by left.
        -- destruct (Hdel s Hs Hne); [left | right]; apply elem_of_app; by right.
    + destruct (IH _ _ Hloop) as (d & Hev & Hdel). exists d. split; [done|].
      intros s [-> | Hs]%elem_of_cons Hne; [|by apply Hdel].
      exfalso. by apply Hne.
Qed.

Lemma remove_client_fuel_removes (fuel : nat) (sock : socket) (st st' : server) :
  remove_client_fuel fuel sock st = Some st' → ∃ d, removes sock d st st'.
Proof.
  revert sock st st'. induction fuel as [|fuel IH]; intros sock st st'.
  - cbn [Server.remove_client_fuel].
    destruct (dict_get sock (clients st)) as [info|] eqn:Hs; [discriminate|].
    intros [= <-]. exists []. split_and!.
    + apply evolves_refl.
    + unfold registered. rewrite Hs. by intros [? ?].
    + intros [_ Hreg] Hg. apply Hreg in Hg. unfold registered in Hg.
      rewrite Hs in Hg. by destruct Hg.
  - cbn [Server.remove_client_fuel].
    destruct (dict_get sock (clients st)) as [info|] eqn:Hs.
    + fold (unregister sock st). intros Hloop.
      destruct (broadcast_loop_evolves _ _ _ (IH) _ _ _ Hloop) as (d & Hev & _).
      destruct (unregister_removes sock st) as (Hun & Hns & Hng).
      exists ([] ++ d). split_and!.
      * eapply evolves_trans; [done|].
        eapply evolves_weaken; [| |done].
        -- intros m ->. right. by eexists.
        -- done.
      * intros Hr. apply Hns. exact (evolves_registered _ _ _ _ _ _ Hev Hr).
      * intros Hwf Hg. apply (Hng Hwf). exact (ev_groups Hev _ Hg).
    + intros [= <-]. exists []. split_and!.
      * apply evolves_refl.
      * unfold registered. rewrite Hs. by intros [? ?].
      * intros [_ Hreg] Hg. apply Hreg in Hg. unfold registered in Hg.
        rewrite Hs in Hg. by destruct Hg.
Qed.

(** The number of clients is fuel enough. *)
Lemma broadcast_loop_total (fuel : nat) (message : text)
    (exclude_socket : option socket) :
  (∀ s st, (length (clients st) ≤ fuel)%nat →
           is_Some (remove_client_fuel fuel s st)) →
  ∀ snapshot st, (length (clients st) ≤ fuel)%nat →
    is_Some (broadcast_loop (remove_client_fuel fuel) message exclude_socket
                            snapshot st).
Proof.
  intros Hremove. induction snapshot as [|sock rest IH]; intros st Hlen.
  - by eexists.
  - cbn [Server.broadcast_loop]. case_bool_decide; [|by apply IH].
    destruct (send_message_cases sock message st) as [-> | ->]; [by apply IH|].
    destruct (Hremove sock (log (SendFailed sock) st) Hlen) as [st2 Hst2].
    rewrite Hst2. cbn [mbind option_bind]. apply IH.
    destruct (remove_client_fuel_removes _ _ _ _ Hst2) as (d & Hev & _).
    pose proof (ev_length Hev) as Hle. simpl in Hle. lia.
Qed.

Lemma remove_client_fuel_total (fuel : nat) (sock : socket) (st : server) :
  (length (clients st) ≤ fuel)%nat → is_Some (remove_client_fuel fuel sock st).
Proof.
  revert sock st. induction fuel as [|fuel IH]; intros sock st Hlen;
    cbn [Server.remove_client_fuel].
  - destruct (dict_get sock (clients st)) as [info|] eqn:Hs; [|by eexists].
    exfalso. destruct (clients st); [done | simpl in Hlen; lia].
  - destruct (dict_get sock (clients st)) as [info|] eqn:Hs; [|by eexists].
    fold (unregister sock st). apply broadcast_loop_total; [done|].
    assert (registered sock st) as Hr by by eexists.
    pose proof (unregister_length sock st Hr). lia.
Qed.

Lemma remove_client_removes (sock : socket) (st : server) :
  ∃ d, removes sock d st (remove_client sock st).
Proof.
  unfold Server.remove_client.
  destruct (remove_client_fuel_total (length (clients st)) sock st) as [st' Hst'];
    [done|].
  rewrite Hst'. by eapply remove_client_fuel_removes.
Qed.

Lemma elem_of_keys_registered (s : socket) (st : server) :
  s ∈ keys (clients st) ↔ registered s st.
Proof.
  unfold keys, registered. rewrite list_elem_of_fmap. split.
  - intros ([s' info] & -> & Hin). by eapply elem_of_dict_get.
  - intros [info Hs]. exists (s, info). split; [done | by apply dict_get_elem_of].
Qed.

Lemma broadcast_message_evolves (message : text)
    (exclude_socket : option socket) (st : server) :
  ∃ delta,
    evolves (λ m, m = message) (λ _, False) delta st
            (broadcast_message message exclude_socket st) ∧
    ∀ s, registered s st → Some s ≠ exclude_socket →
         Sent s message ∈ delta ∨ SendFailed s ∈ delta.
Proof.
  unfold Server.broadcast_message.
  destruct (broadcast_loop_total (length (clients st)) message exclude_socket
              (remove_client_fuel_total _) (keys (clients st)) st) as [st' Hst'];
    [done|].
  rewrite Hst'. simpl.
  destruct (broadcast_loop_evolves _ message exclude_socket
              (remove_client_fuel_removes _) _ _ _ Hst') as (d & Hev & Hdel).
  exists d. split; [done|]. intros s Hs. apply Hdel.
  by apply elem_of_keys_registered.
Qed.

(** *** Broadcast *)


(** *** Unicast *)

Lemma find_target_Some (target_username : text) (exclude_socket : option socket)
    (st : server) (t : socket) :
  find_target target_username exclude_socket st = Some t →
  Some t ≠ exclude_socket ∧
  ∃ info, (t, info) ∈ clients st ∧ username info = target_username.
Proof.
  unfold find_target. destruct (find _ (clients st)) as [[t' info]|] eqn:Hfind;
    [|discriminate].
  intros [= <-]. apply find_some in Hfind as [Hin Hp].
  apply andb_prop in Hp as [Hu He].
  apply bool_decide_eq_true in Hu. apply bool_decide_eq_true in He.
  split; [done|]. exists info. split; [by apply list_elem_of_In | done].
Qed.

Lemma find_target_None (target_username : text) (exclude_socket : option socket)
    (st : server) :
  find_target target_username exclude_socket st = None →
  ∀ s info, (s, info) ∈ clients st → username info = target_username →
            Some s = exclude_socket.
Proof.
  unfold find_target. destruct (find _ (clients st)) as [[t' info]|] eqn:Hfind;
    [discriminate|].
  intros _ s info Hin Hu.
  pose proof (find_none _ _ Hfind (s, info)) as Hp. simpl in Hp.
  rewrite bool_decide_eq_true_2 in Hp by done. simpl in Hp.
  apply list_elem_of_In, Hp in Hin. apply bool_decide_eq_false in Hin.
  by apply dec_stable in Hin.
Qed.

Lemma parse_unicast :
  split 2 (strip (lit "/UNICAST alice hello"))
  = [lit "/UNICAST"; lit "alice"; lit "hello"].
Proof. by vm_compute. Qed.

Lemma dispatch_unicast (sock : socket) (sender : text) (st : server) :
  str_upper (lit "/UNICAST") = lit "/UNICAST" →
  dispatch sock sender (lit "/UNICAST alice hello") st
  = unicast_message (lit "[UNICAST] " ++ sender ++ lit ": hello") (lit "alice")
                    (Some sock) st.
Proof.
  intros Hup. unfold Server.dispatch. rewrite parse_unicast.
  change (default [] ([lit "/UNICAST"; lit "alice"; lit "hello"] !! 0%nat))
    with (lit "/UNICAST").
  rewrite Hup.
  rewrite (bool_decide_eq_false_2 (lit "/UNICAST" = lit "/LEAVE")) by by vm_compute.
  rewrite (bool_decide_eq_false_2 (lit "/UNICAST" = lit "/BROADCAST")) by by vm_compute.
  by rewrite (bool_decide_eq_true_2 (lit "/UNICAST" = lit "/UNICAST")) by done.
Qed.

Lemma handle_client_message_dispatch (sock : socket) (sender message : text)
    (st : server) :
  message ≠ [] → username_of sock st = Some sender →
  handle_client_message sock (Some message) st
  = match dispatch sock sender message st with
    | Ok st' => st'
    | Raise st' => remove_client sock st'
    end.
Proof.
  intros Hne Hname. unfold Server.handle_client_message.
  destruct message; [done|]. by rewrite Hname.
Qed.

Lemma unicast_not_leave (sender : text) :
  ¬ is_leave (lit "[UNICAST] " ++ sender ++ lit ": hello").
Proof.
  intros [u Hu]. apply (f_equal last) in Hu. rewrite !last_app in Hu.
  vm_compute in Hu. discriminate.
Qed.

(** After a failed send to [s], [remove_client] has sent nothing but leave
    notices. *)
Lemma failed_send_removed (s : socket) (message : text) (st : server) :
  ¬ is_leave message →
  ∃ delta,
    trace (remove_client s (log (SendFailed s) st)) = trace st ++ delta ∧
    ∀ s', Sent s' message ∉ delta.
Proof.
  intros Hnl.
  destruct (remove_client_removes s (log (SendFailed s) st)) as (d & Hev & _).
  exists (SendFailed s :: d). split.
  - rewrite (ev_trace Hev). simpl. by rewrite <- app_assoc.
  - intros s' [? | Hin]%elem_of_cons; [done|].
    by destruct (ev_sent Hev s' message Hin).
Qed.

(** C8. When a registered sender's message [/UNICAST alice hello] is
    handled: if some connection other than the sender is registered as
    [alice], the message [[UNICAST] <sender>: hello] goes to the first such
    connection and to no other, and when the send to it does not fail that
    one frame is all the server sends and the registry is unchanged; if there
    is none, the message goes to nobody and, when the send to the sender
    does not fail, the server sends the sender [User 'alice' not found] and
    nothing else. *)
Theorem unicast_routing (sock : socket) (sender : text) (st : server) :
  str_upper (lit "/UNICAST") = lit "/UNICAST" →
  username_of sock st = Some sender →
  ∃ delta,
    trace (handle_client_message sock (Some (lit "/UNICAST alice hello")) st)
      = trace st ++ delta ∧
    match find_target (lit "alice") (Some sock) st with
    | Some target =>
        target ≠ sock ∧
        (∃ info, (target, info) ∈ clients st ∧ username info = lit "alice") ∧
        (∀ s, Sent s (lit "[UNICAST] " ++ sender ++ lit ": hello") ∈ delta →
              s = target) ∧
        (sendable target (lit "[UNICAST] " ++ sender ++ lit ": hello") st →
         delta = [Sent target (lit "[UNICAST] " ++ sender ++ lit ": hello")] ∧
         clients (handle_client_message sock
                    (Some (lit "/UNICAST alice hello")) st) = clients st)
    | None =>
        (∀ s info, (s, info) ∈ clients st → username info = lit "alice" →
                   s = sock) ∧
        (∀ s, Sent s (lit "[UNICAST] " ++ sender ++ lit ": hello") ∉ delta) ∧
        (sendable sock (lit "User 'alice' not found") st →
         delta = [Sent sock (lit "User 'alice' not found")] ∧
         clients (handle_client_message sock
                    (Some (lit "/UNICAST alice hello")) st) = clients st)
    end.
Proof.
  intros Hup Hname.
  rewrite (handle_client_message_dispatch sock sender) by done.
  rewrite dispatch_unicast by done. unfold Server.unicast_message.
  set (message := lit "[UNICAST] " ++ sender ++ lit ": hello").
  pose proof (unicast_not_leave sender : ¬ is_leave message) as Hnl.
  destruct (find_target (lit "alice") (Some sock) st) as [target|] eqn:Hfind.
  - destruct (find_target_Some _ _ _ _ Hfind) as [Hne Hinfo].
    assert (target ≠ sock) as Hne' by (by intros ->).
    unfold sendable.
    destruct (send_message_cases target message st) as [Hsend | Hsend];
      rewrite Hsend.
    + exists [Sent target message]. split; [done|]. split_and!; [done..| |done].
      intros s [[= ->] | ?%elem_of_nil]%elem_of_cons; done.
    + destruct (failed_send_removed target message st Hnl) as (delta & Htr & Hno).
      exists delta. split; [done|]. split_and!; [done..| |done].
      intros s Hs. by destruct (Hno s).
  - pose proof (find_target_None _ _ _ Hfind) as Hnone.
    assert (message ≠ lit "User 'alice' not found") as Hdiff.
    { intros Heq. apply (f_equal head) in Heq. vm_compute in Heq. discriminate. }
    unfold sendable.
    destruct (send_message_cases sock (lit "User '" ++ lit "alice" ++ lit "' not found") st)
      as [Hsend | Hsend]; rewrite Hsend.
    + exists [Sent sock (lit "User 'alice' not found")]. split; [done|].
      split_and!; [| |done].
      * intros s info Hin Hu. by injection (Hnone s info Hin Hu).
      * intros s [[= -> Heq] | ?%elem_of_nil]%elem_of_cons; done.
    + destruct (failed_send_removed sock message st Hnl) as (delta & Htr & Hno).
      exists delta. split; [done|]. split_and!; [| done |].
      * intros s info Hin Hu. by injection (Hnone s info Hin Hu).
      * intros Hok. change (lit "User '" ++ lit "alice" ++ lit "' not found")
          with (lit "User 'alice' not found") in Hsend. congruence.
Qed.

(** *** Calls that only send *)

Lemma emits_refl P st : emits P st st.
Proof. split_and!; [done..|]. exists []. by rewrite app_nil_r. Qed.

Lemma emits_trans P st st1 st2 : emits P st st1 → emits P st1 st2 → emits P st st2.
Proof.
  intros (Hp1 & Hc1 & Hg1 & d1 & Ht1 & Hd1) (Hp2 & Hc2 & Hg2 & d2 & Ht2 & Hd2).
  split_and!; [congruence..|]. exists (d1 ++ d2). split.
  - by rewrite Ht2, Ht1, app_assoc.
  - by apply Forall_app.
Qed.

Lemma emits_log P ev st : P ev → emits P st (log ev st).
Proof. intros Hev. split_and!; [done..|]. exists [ev]. split; [done|]. by constructor. Qed.

Lemma emits_send P s m st :
  P (Sent s m) → P (SendFailed s) → emits P st (state_of (send_message s m st)).
Proof.
  intros Hs Hf. destruct (send_message_cases s m st) as [-> | ->];
    by apply emits_log.
Qed.

Lemma emits_and_then P st r k :
  emits P st (state_of r) →
  (∀ st1, r = Ok st1 → emits P st1 (state_of (k st1))) →
  emits P st (state_of (and_then r k)).
Proof.
  intros Hr Hk. destruct r as [st1|st1]; simpl in *; [|done].
  eapply emits_trans; [done|]. by apply Hk.
Qed.

Lemma emits_try_except P st r h :
  emits P st (state_of r) →
  (∀ st1, r = Raise st1 → emits P st1 (state_of (h st1))) →
  emits P st (state_of (try_except r h)).
Proof.
  intros Hr Hh. destruct r as [st1|st1]; simpl in *; [done|].
  eapply emits_trans; [done|]. by apply Hh.
Qed.

Lemma emits_sendto_all P host udp_port datagrams st :
  (∀ d, P (SentTo host udp_port d)) →
  emits P st (state_of (sendto_all host udp_port datagrams st)).
Proof.
  intros HP. revert st. induction datagrams as [|d ds IH]; intros st.
  - apply emits_refl.
  - cbn [sendto_all]. unfold sendto. case_bool_decide; cbn [and_then state_of].
    + eapply emits_trans; [by apply emits_log | apply IH].
    + apply emits_refl.
Qed.

(** *** Datagram downloads *)

Lemma send_file_udp_emits (sock : socket) (content : bytes) (filename : text)
    (file_size : Z) (st : server) :
  emits (udp_download_event (port st) sock filename file_size) st
        (state_of (send_file_udp sock content filename file_size st)).
Proof.
  set (P := udp_download_event (port st) sock filename file_size).
  assert (∀ st1 m,
            m = lit "DOWNLOAD_START_UDP:" ++ filename ++ lit ":" ++ str_of_int file_size
            ∨ m = lit "UDP_PORT:" ++ str_of_int (port st + 1)
            ∨ m = lit "DOWNLOAD_COMPLETE_UDP:" ++ filename ++ lit ":"
                    ++ str_of_int file_size
            ∨ m = lit "ERROR: Failed to send file via UDP: " ++ exc_str →
            emits P st1 (state_of (send_message sock m st1))) as Hsend.
  { intros st1 m Hm. apply emits_send; simpl; auto. }
  unfold Server.send_file_udp.
  apply emits_try_except; [|intros st1 _; apply Hsend; auto].
  destruct (dict_get sock (clients st)) as [info|]; [|apply emits_refl].
  apply emits_and_then; [apply Hsend; auto|]. intros st1 H1.
  assert (port st1 = port st) as ->.
  { destruct (send_message_cases sock
                (lit "DOWNLOAD_START_UDP:" ++ filename ++ lit ":" ++ str_of_int file_size)
                st) as [Hs | Hs]; rewrite Hs in H1; by simplify_eq. }
  apply emits_and_then; [apply Hsend; auto|]. intros st2 H2.
  destruct (Datagram.file_datagrams content) as [[datagrams finished]|];
    [|apply emits_refl].
  apply emits_and_then; [by apply emits_sendto_all|]. intros st3 _.
  destruct finished; [apply Hsend; auto | apply emits_refl].
Qed.

Lemma not_udp_port_prefix (c : Z) (rest more : text) :
  c ≠ 85 → ¬ lit "UDP_PORT:" `prefix_of` (c :: rest) ++ more.
Proof. intros Hc [k Hk]. by injection Hk. Qed.

(** Datagrams are sent only after the announcement. *)
Lemma send_file_udp_announces (sock : socket) (content : bytes)
    (filename : text) (file_size : Z) (st : server) :
  ∃ delta,
    trace (state_of (send_file_udp sock content filename file_size st))
      = trace st ++ delta ∧
    (Forall (λ ev, ∀ host udp_port d, ev ≠ SentTo host udp_port d) delta ∨
     Sent sock (lit "UDP_PORT:" ++ str_of_int (port st + 1)) ∈ delta).
Proof.
  set (Q := λ ev : event, ∀ host udp_port d, ev ≠ SentTo host udp_port d).
  assert (∀ st1 m, emits Q st1 (state_of (send_message sock m st1))) as Hsend
    by (intros st1 m; by apply emits_send).
  assert (∀ st1 d1, trace st1 = trace st ++ d1 → Forall Q d1 →
            ∀ m, ∃ delta, trace (state_of (send_message sock m st1))
                          = trace st ++ delta ∧ Forall Q delta) as Hearly.
  { intros st1 d1 Ht1 Hd1 m. destruct (Hsend st1 m) as (_ & _ & _ & d & Ht & Hd).
    exists (d1 ++ d). split; [by rewrite Ht, Ht1, app_assoc | by apply Forall_app]. }
  unfold Server.send_file_udp.
  destruct (dict_get sock (clients st)) as [info|]; cbn [try_except].
  2:{ destruct (Hearly st [] (eq_sym (app_nil_r _)) (Forall_nil_2 _)
                  (lit "ERROR: Failed to send file via UDP: " ++ exc_str))
        as (delta & Ht & Hd). exists delta. split; [done | by left]. }
  destruct (send_message_cases sock
              (lit "DOWNLOAD_START_UDP:" ++ filename ++ lit ":" ++ str_of_int file_size)
              st) as [-> | ->]; cbn [and_then try_except].
  2:{ destruct (Hearly (log (SendFailed sock) st) [SendFailed sock])
        with (m := lit "ERROR: Failed to send file via UDP: " ++ exc_str)
        as (delta & Ht & Hd).
      - done.
      - by repeat constructor.
      - exists delta. split; [done | by left]. }
  set (st1 := log (Sent sock _) st).
  destruct (send_message_cases sock (lit "UDP_PORT:" ++ str_of_int (port st1 + 1)) st1)
    as [-> | ->]; cbn [and_then try_except].
  2:{ destruct (Hearly (log (SendFailed sock) st1)
                  [Sent sock (lit "DOWNLOAD_START_UDP:" ++ filename ++ lit ":"
                                ++ str_of_int file_size); SendFailed sock])
        with (m := lit "ERROR: Failed to send file via UDP: " ++ exc_str)
        as (delta & Ht & Hd).
      - unfold st1. simpl. by rewrite <- app_assoc.
      - by repeat constructor.
      - exists delta. split; [done | by left]. }
  set (st2 := log (Sent sock _) st1).
  set (rest := match Datagram.file_datagrams content with
               | Some (datagrams, finished) => _
               | None => Raise st2
               end).
  assert (emits (λ _, True) st2
            (state_of (try_except rest
               (λ st', send_message sock
                  (lit "ERROR: Failed to send file via UDP: " ++ exc_str) st'))))
    as (_ & _ & _ & d & Ht & _).
  { apply emits_try_except; [|intros; by apply emits_send].
    unfold rest. destruct (Datagram.file_datagrams content) as [[datagrams finished]|];
      [|apply emits_refl].
    apply emits_and_then; [by apply emits_sendto_all|]. intros st3 _.
    destruct finished; [by apply emits_send | apply emits_refl]. }
  exists ([Sent sock (lit "DOWNLOAD_START_UDP:" ++ filename ++ lit ":"
                        ++ str_of_int file_size);
           Sent sock (lit "UDP_PORT:" ++ str_of_int (port st + 1))] ++ d).
  split; [rewrite Ht; unfold st2, st1; simpl; by rewrite <- !app_assoc|].
  right. apply elem_of_app. left. right. by left.
Qed.

(** *** The group directory *)

Lemma dict_set_fresh {V : Type} (g : text) (v0 v : V) (gs : list (text * V)) :
  dict_get g gs = None → dict_set g v (gs ++ [(g, v0)]) = gs ++ [(g, v)].
Proof.
  induction gs as [|[g' v'] gs IH]; simpl.
  - by rewrite bool_decide_eq_true_2.
  - case_bool_decide; [discriminate|]. intros Hg. by rewrite IH.
Qed.

Lemma dict_get_fresh {V : Type} (g : text) (v0 : V) (gs : list (text * V)) :
  dict_get g gs = None → dict_get g (gs ++ [(g, v0)]) = Some v0.
Proof.
  induction gs as [|[g' v'] gs IH]; simpl.
  - by rewrite bool_decide_eq_true_2.
  - case_bool_decide; [discriminate | done].
Qed.

Lemma elem_of_dict_set {V : Type} (g g' : text) (v v' : V) (gs : list (text * V)) :
  (g', v') ∈ dict_set g v gs → (g', v') ∈ gs ∨ (g' = g ∧ v' = v).
Proof.
  induction gs as [|[g0 v0] gs IH]; simpl.
  - intros [[= -> ->] | ?%elem_of_nil]%elem_of_cons; [by right | done].
  - case_bool_decide as Hg.
    + intros [[= -> ->] | Hin]%elem_of_cons; [by right | left; by right].
    + intros [[= -> ->] | Hin]%elem_of_cons; [left; by left|].
      destruct (IH Hin); [left; by right | by right].
Qed.

Lemma dict_get_dict_set {V : Type} (g : text) (v : V) (gs : list (text * V)) :
  dict_get g (dict_set g v gs) = Some v.
Proof.
  induction gs as [|[g0 v0] gs IH]; simpl.
  - by rewrite bool_decide_eq_true_2.
  - case_bool_decide as Hg; simpl.
    + by rewrite bool_decide_eq_true_2.
    + by rewrite bool_decide_eq_false_2.
Qed.

Lemma elem_of_dict_del {V : Type} (g g' : text) (v' : V) (gs : list (text * V)) :
  (g', v') ∈ dict_del g gs ↔ (g', v') ∈ gs ∧ g' ≠ g.
Proof. unfold dict_del. by rewrite list_elem_of_filter, (comm and). Qed.

Lemma send_message_groups (s : socket) (m : text) (st : server) :
  groups (state_of (send_message s m st)) = groups st.
Proof. by destruct (send_message_cases s m st) as [-> | ->]. Qed.

Lemma no_empty_group_send (s : socket) (m : text) (st : server) :
  no_empty_group st → no_empty_group (state_of (send_message s m st)).
Proof. unfold no_empty_group. by rewrite send_message_groups. Qed.

(** Joining a group that does not exist creates it with the joiner as its
    only member. *)
Lemma join_group_creates (sock : socket) (group_name : text) (st : server) :
  dict_get group_name (groups st) = None →
  groups (state_of (join_group sock group_name st))
  = groups st ++ [(group_name, [sock])].
Proof.
  intros Hnew. unfold Server.join_group. rewrite Hnew. cbn [groups set_groups].
  rewrite (dict_get_fresh _ _ _ Hnew). cbn [default].
  rewrite bool_decide_eq_true_2 by (by intros ?%elem_of_nil).
  rewrite (dict_set_fresh _ _ _ _ Hnew).
  destruct (username_of sock _); [|done]. by rewrite send_message_groups.
Qed.

Lemma join_group_no_empty (sock : socket) (group_name : text) (st : server) :
  no_empty_group st → no_empty_group (state_of (join_group sock group_name st)).
Proof.
  intros Hne. destruct (dict_get group_name (groups st)) as [members|] eqn:Hg.
  - unfold Server.join_group. rewrite Hg. cbn [default]. rewrite Hg.
    case_bool_decide; [|by apply no_empty_group_send].
    assert (no_empty_group
              (set_groups (dict_set group_name (members ++ [sock]) (groups st)) st))
      as Hne'.
    { intros g m Hin. simpl in Hin.
      destruct (elem_of_dict_set _ _ _ _ _ Hin) as [Hin' | [_ ->]]; [by eapply Hne|].
      by destruct members. }
    destruct (username_of sock _); [by apply no_empty_group_send | done].
  - intros g m Hin. rewrite join_group_creates in Hin by done.
    apply elem_of_app in Hin as [Hin | [[= -> ->] | ?%elem_of_nil]%elem_of_cons];
      [by eapply Hne | done | done].
Qed.

(** A [leave_group] that returns leaves no empty group. *)
Lemma leave_group_no_empty (sock : socket) (group_name : text) (st st' : server) :
  no_empty_group st → leave_group sock group_name st = Ok st' →
  no_empty_group st'.
Proof.
  intros Hne. unfold Server.leave_group.
  assert (∀ m, send_message sock m st = Ok st' → no_empty_group st') as Hsend.
  { intros m Hm. pose proof (no_empty_group_send sock m st Hne) as H.
    by rewrite Hm in H. }
  destruct (dict_get group_name (groups st)) as [members|] eqn:Hg; [|by apply Hsend].
  case_bool_decide; [|by apply Hsend].
  destruct (username_of sock _); [|discriminate].
  set (gs1 := dict_set group_name (list_remove sock members) (groups st)).
  destruct (send_message_cases sock (lit "Left group '" ++ group_name ++ lit "'")
              (set_groups gs1 st)) as [-> | ->]; [|discriminate].
  cbn [and_then groups log set_groups].
  assert (dict_get group_name gs1 = Some (list_remove sock members)) as ->
    by apply dict_get_dict_set.
  destruct (list_remove sock members) as [|x r] eqn:Hrm; intros [= <-];
    intros g m Hin; simpl in Hin.
  - apply elem_of_dict_del in Hin as [Hin Hneq].
    destruct (elem_of_dict_set _ _ _ _ _ Hin) as [Hin' | [-> _]]; [by eapply Hne | done].
  - destruct (elem_of_dict_set _ _ _ _ _ Hin) as [Hin' | [_ ->]]; [by eapply Hne | done].
Qed.

(** [remove_client] leaves no empty group. *)
Lemma remove_client_no_empty (sock : socket) (st : server) :
  no_empty_group st → no_empty_group (remove_client sock st).
Proof.
  destruct (remove_client_removes sock st) as (d & Hev & _).
  apply (ev_no_empty Hev).
Qed.

(** *** Every step keeps the port and the shape of the directory *)

Lemma step_ok_refl st : step_ok st st.
Proof. by split. Qed.

Lemma step_ok_trans st st1 st2 : step_ok st st1 → step_ok st1 st2 → step_ok st st2.
Proof. intros [Hp1 Hw1] [Hp2 Hw2]. split; [congruence | auto]. Qed.

Lemma evolves_step_ok msg gone d st st' : evolves msg gone d st st' → step_ok st st'.
Proof. intros Hev. split; [apply (ev_port Hev) | apply (ev_wf Hev)]. Qed.

Lemma wf_same (st st' : server) :
  clients st' = clients st → groups st' = groups st → wf st → wf st'.
Proof. unfold wf, in_group, registered. by intros -> ->. Qed.

Lemma emits_step_ok P st st' : emits P st st' → step_ok st st'.
Proof. intros (Hp & Hc & Hg & _). split; [done | by apply wf_same]. Qed.

Lemma emits_true_send (s : socket) (m : text) (st : server) :
  emits (λ _, True) st (state_of (send_message s m st)).
Proof. by apply emits_send. Qed.

Lemma send_step_ok (s : socket) (m : text) (st : server) :
  step_ok st (state_of (send_message s m st)).
Proof. eapply emits_step_ok, emits_true_send. Qed.

Lemma remove_client_step_ok (sock : socket) (st : server) :
  step_ok st (remove_client sock st).
Proof.
  destruct (remove_client_removes sock st) as (d & Hev & _).
  by eapply evolves_step_ok.
Qed.

Lemma broadcast_message_step_ok (message : text) (exclude_socket : option socket)
    (st : server) :
  step_ok st (broadcast_message message exclude_socket st).
Proof.
  destruct (broadcast_message_evolves message exclude_socket st) as (d & Hev & _).
  by eapply evolves_step_ok.
Qed.

(** A send that may fail, followed by [remove_client] if it does. *)
Lemma send_or_remove_step_ok (s : socket) (m : text) (st : server) :
  step_ok st (match send_message s m st with
              | Ok st1 => st1
              | Raise st1 => remove_client s st1
              end).
Proof.
  destruct (send_message_cases s m st) as [-> | ->].
  - by apply (emits_step_ok (λ _, True)), emits_log.
  - eapply step_ok_trans; [|apply remove_client_step_ok].
    by apply (emits_step_ok (λ _, True)), emits_log.
Qed.

Lemma unicast_message_step_ok (message target_username : text)
    (exclude_socket : option socket) (st : server) :
  step_ok st (state_of (unicast_message message target_username exclude_socket st)).
Proof.
  unfold Server.unicast_message.
  destruct (find_target _ _ st) as [t|].
  - pose proof (send_or_remove_step_ok t message st) as H.
    by destruct (send_message t message st).
  - destruct exclude_socket; [apply send_step_ok | apply step_ok_refl].
Qed.

Lemma wf_dict_set (g : text) (m' : list socket) (st : server) :
  wf st → NoDup m' → (∀ x, x ∈ m' → registered x st) →
  wf (set_groups (dict_set g m' (groups st)) st).
Proof.
  intros [Hnd Hreg] Hnd' Hreg'. split.
  - intros g0 m0 Hin. simpl in Hin.
    destruct (elem_of_dict_set _ _ _ _ _ Hin) as [Hin' | [_ ->]]; [by eapply Hnd | done].
  - intros x (g0 & m0 & Hin & Hx). simpl in Hin.
    destruct (elem_of_dict_set _ _ _ _ _ Hin) as [Hin' | [_ ->]].
    + apply Hreg. by exists g0, m0.
    + by apply Hreg'.
Qed.

Lemma wf_dict_del (g : text) (st : server) :
  wf st → wf (set_groups (dict_del g (groups st)) st).
Proof.
  intros [Hnd Hreg]. split.
  - intros g0 m0 [Hin _]%elem_of_dict_del. by eapply Hnd.
  - intros x (g0 & m0 & [Hin _]%elem_of_dict_del & Hx). apply Hreg. by exists g0, m0.
Qed.

Lemma wf_new_group (g : text) (st : server) :
  wf st → wf (set_groups (groups st ++ [(g, [])]) st).
Proof.
  intros [Hnd Hreg]. split.
  - intros g0 m0 [Hin | [[= -> ->] | ?%elem_of_nil]%elem_of_cons]%elem_of_app;
      [by eapply Hnd | constructor | done].
  - intros x (g0 & m0 & [Hin | [[= -> ->] | ?%elem_of_nil]%elem_of_cons]%elem_of_app & Hx).
    + apply Hreg. by exists g0, m0.
    + by apply elem_of_nil in Hx.
    + done.
Qed.

Lemma join_group_step_ok (sock : socket) (group_name : text) (st : server) :
  registered sock st → step_ok st (state_of (join_group sock group_name st)).
Proof.
  intros Hsock. unfold Server.join_group.
  set (st1 := match dict_get group_name (groups st) with
              | None => set_groups (groups st ++ [(group_name, [])]) st
              | Some _ => st
              end).
  assert (step_ok st st1) as H1.
  { unfold st1. destruct (dict_get group_name (groups st)); [apply step_ok_refl|].
    split; [done | apply wf_new_group]. }
  assert (clients st1 = clients st) as Hc
    by (unfold st1; by destruct (dict_get group_name (groups st))).
  eapply step_ok_trans; [exact H1|].
  case_bool_decide as Hin; [|apply send_step_ok].
  set (members := default [] (dict_get group_name (groups st1))) in *.
  set (st2 := set_groups (dict_set group_name (members ++ [sock]) (groups st1)) st1).
  assert (step_ok st1 st2) as H2.
  { split; [done|]. intros Hwf. apply wf_dict_set; [done | |].
    - apply NoDup_app. split_and!.
      + unfold members. destruct (dict_get group_name (groups st1)) as [m|] eqn:Hg;
          [|constructor].
        destruct Hwf as [Hnd _]. eapply Hnd. by apply dict_get_elem_of.
      + intros x Hx [-> | ?%elem_of_nil]%elem_of_cons; done.
      + apply NoDup_singleton.
    - intros x [Hx | [-> | ?%elem_of_nil]%elem_of_cons]%elem_of_app.
      + destruct Hwf as [_ Hreg]. apply Hreg. exists group_name, members.
        split; [|done]. unfold members in *.
        destruct (dict_get group_name (groups st1)) as [m|] eqn:Hg;
          [by apply dict_get_elem_of | by apply elem_of_nil in Hx].
      + unfold registered. by rewrite Hc.
      + done. }
  eapply step_ok_trans; [exact H2|].
  destruct (username_of sock st2); [apply send_step_ok | apply step_ok_refl].
Qed.

Lemma leave_group_step_ok (sock : socket) (group_name : text) (st : server) :
  step_ok st (state_of (leave_group sock group_name st)).
Proof.
  unfold Server.leave_group.
  destruct (dict_get group_name (groups st)) as [members|] eqn:Hg; [|apply send_step_ok].
  case_bool_decide; [|apply send_step_ok].
  set (st1 := set_groups (dict_set group_name (list_remove sock members) (groups st)) st).
  assert (step_ok st st1) as H1.
  { split; [done|]. intros Hwf. pose proof Hwf as [Hnd Hreg].
    apply dict_get_elem_of in Hg. apply wf_dict_set; [done | |].
    - by apply list_remove_NoDup, (Hnd group_name).
    - intros x Hx. apply Hreg. exists group_name, members.
      split; [done | by eapply list_remove_elem_of]. }
  eapply step_ok_trans; [exact H1|].
  destruct (username_of sock st1); [|apply step_ok_refl].
  destruct (send_message_cases sock (lit "Left group '" ++ group_name ++ lit "'") st1)
    as [-> | ->]; cbn [and_then state_of].
  - set (st2 := log (Sent sock (lit "Left group '" ++ group_name ++ lit "'")) st1).
    eapply (step_ok_trans _ st2);
      [by apply (emits_step_ok (λ _, True)), emits_log|].
    destruct (dict_get group_name (groups st2)) as [[|x r]|]; cbn [state_of];
      [|apply step_ok_refl..].
    split; [done | apply wf_dict_del].
  - by apply (emits_step_ok (λ _, True)), emits_log.
Qed.

Lemma group_loop_step_ok (rounds i : nat) (message group_name : text)
    (exclude_socket : option socket) (st : server) :
  step_ok st (group_loop link_down rounds i message group_name exclude_socket st).
Proof.
  revert i st. induction rounds as [|rounds IH]; intros i st;
    cbn [Server.group_loop]; [apply step_ok_refl|].
  destruct (_ !! i) as [sock|]; [|apply step_ok_refl].
  eapply step_ok_trans; [|apply IH].
  case_bool_decide; [apply send_or_remove_step_ok | apply step_ok_refl].
Qed.

Lemma send_group_message_step_ok (message group_name : text)
    (exclude_socket : option socket) (st : server) :
  step_ok st (state_of (send_group_message link_down message group_name
                          exclude_socket st)).
Proof.
  unfold Server.send_group_message.
  destruct (dict_get group_name (groups st)); [apply group_loop_step_ok|].
  destruct exclude_socket; [apply send_step_ok | apply step_ok_refl].
Qed.

Lemma emits_true_sendall (sock : socket) (data : bytes) (st : server) :
  emits (λ _, True) st (state_of (Server.sendall link_down sock data st)).
Proof. unfold Server.sendall. destruct (_ || _); by apply emits_log. Qed.

Lemma send_blocks_emits (rounds : nat) (sock : socket) (f : bytes) (st : server) :
  emits (λ _, True) st (state_of (send_blocks link_down rounds sock f st)).
Proof.
  revert f st. induction rounds as [|rounds IH]; intros f st; cbn [send_blocks].
  - destruct (take 4096 f); apply emits_refl.
  - destruct (take 4096 f) as [|b chunk]; [apply emits_refl|].
    destruct (pack_I _) as [header|]; [|apply emits_refl].
    apply emits_and_then; [apply emits_true_sendall|]. intros st1 _.
    apply emits_and_then; [apply emits_true_sendall|]. intros st2 _. apply IH.
Qed.

Lemma send_file_tcp_emits (sock : socket) (content : bytes) (filename : text)
    (file_size : Z) (st : server) :
  emits (λ _, True) st
        (state_of (send_file_tcp link_down exc_str sock content filename file_size st)).
Proof.
  unfold Server.send_file_tcp.
  apply emits_try_except; [|intros st1 _; apply emits_true_send].
  apply emits_and_then; [apply emits_true_send|]. intros st1 _.
  apply emits_and_then; [apply send_blocks_emits|]. intros st2 _.
  apply emits_true_send.
Qed.

Lemma emits_true P st st' : emits P st st' → emits (λ _, True) st st'.
Proof.
  intros (Hp & Hc & Hg & d & Ht & _). split_and!; [done..|].
  exists d. split; [done|]. by apply Forall_true.
Qed.

Lemma handle_file_download_emits (sock : socket) (filename protocol : text)
    (st : server) :
  emits (λ _, True) st
        (state_of (handle_file_download link_down str_upper shared exc_str
                     sock filename protocol st)).
Proof.
  unfold Server.handle_file_download.
  destruct (shared filename) as [[|content]|];
    [apply emits_true_send | | apply emits_true_send].
  case_bool_decide; [apply send_file_tcp_emits|].
  case_bool_decide; [|apply emits_true_send].
  eapply emits_true, send_file_udp_emits.
Qed.

Lemma list_files_emits (sock : socket) (st : server) :
  emits (λ _, True) st (state_of (list_files link_down listdir exc_str sock st)).
Proof.
  unfold Server.list_files. destruct listdir as [files|]; [|apply emits_true_send].
  apply emits_try_except; [|intros st1 _; apply emits_true_send].
  apply emits_and_then; [apply emits_true_send|]. intros st1 _.
  destruct files; apply emits_true_send.
Qed.

Lemma list_groups_emits (sock : socket) (st : server) :
  emits (λ _, True) st (state_of (list_groups link_down sock st)).
Proof. unfold Server.list_groups. destruct (groups st); apply emits_true_send. Qed.

Lemma dispatch_step_ok (sock : socket) (sender message : text) (st : server) :
  registered sock st →
  step_ok st (state_of (dispatch sock sender message st)).
Proof.
  intros Hsock. unfold Server.dispatch.
  set (parts := split 2 (strip message)).
  case_bool_decide; [apply remove_client_step_ok|].
  case_bool_decide.
  { destruct (parts !! 1%nat); [apply broadcast_message_step_ok | apply step_ok_refl]. }
  case_bool_decide.
  { destruct parts as [|? [|? [|? [|? ?]]]];
      first [apply unicast_message_step_ok | apply send_step_ok]. }
  case_bool_decide.
  { destruct (parts !! 1%nat); [by apply join_group_step_ok | apply send_step_ok]. }
  case_bool_decide.
  { destruct (parts !! 1%nat); [apply leave_group_step_ok | apply send_step_ok]. }
  case_bool_decide.
  { destruct parts as [|? [|? [|? [|? ?]]]];
      first [apply send_group_message_step_ok | apply send_step_ok]. }
  case_bool_decide; [eapply emits_step_ok, list_files_emits|].
  case_bool_decide.
  { destruct (parts !! 1%nat);
      [eapply emits_step_ok, handle_file_download_emits | apply send_step_ok]. }
  case_bool_decide; [apply send_step_ok|].
  case_bool_decide; [eapply emits_step_ok, list_groups_emits|].
  apply broadcast_message_step_ok.
Qed.

(** Handling a message keeps the listening port, and keeps the groups lists
    of registered sockets without repetition. *)
Lemma handle_client_message_step_ok (sock : socket) (received : option text)
    (st : server) :
  step_ok st (handle_client_message sock received st).
Proof.
  unfold Server.handle_client_message.
  destruct received as [[|c message]|]; [apply remove_client_step_ok | |
                                         apply remove_client_step_ok].
  destruct (username_of sock st) as [sender|] eqn:Hname; [|apply step_ok_refl].
  assert (registered sock st) as Hsock.
  { unfold username_of in Hname. unfold registered.
    destruct (dict_get sock (clients st)); [by eexists | done]. }
  pose proof (dispatch_step_ok sock sender (c :: message) st Hsock) as Hd.
  destruct (dispatch sock sender (c :: message) st) as [st'|st']; [done|].
  eapply step_ok_trans; [exact Hd | apply remove_client_step_ok].
Qed.

Lemma dict_set_registered (s k : socket) (v : client_info)
    (d : list (socket * client_info)) :
  is_Some (dict_get s d) → is_Some (dict_get s (dict_set k v d)).
Proof.
  induction d as [|[k0 v0] d IH]; simpl; [by intros [? ?]|].
  intros Hs.
  destruct (bool_decide (k0 = k)); simpl; destruct (bool_decide (k0 = s));
    try (by eexists); try done; by apply IH.
Qed.

Lemma accept_client_step_ok (client_socket : socket) (addr : text * Z)
    (received : option text) (st : server) :
  step_ok st (accept_client link_down client_socket addr received st).
Proof.
  unfold Server.accept_client.
  destruct (send_message_cases client_socket
              (lit "Welcome to the Instant Messenger Server!") st) as [-> | ->];
    [|by apply (emits_step_ok (λ _, True)), emits_log].
  eapply step_ok_trans; [by apply (emits_step_ok (λ _, True)), emits_log|].
  destruct received as [[|c name]|]; [apply step_ok_refl | | apply step_ok_refl].
  eapply step_ok_trans; [|apply broadcast_message_step_ok].
  split; [done|]. intros [Hnd Hreg]. split; [done|].
  intros s Hs. apply Hreg in Hs. by apply dict_set_registered.
Qed.

(** A datagram download by a registered client begins with the two
    announcements, unless the send of one of them fails. *)
Lemma send_file_udp_begins (sock : socket) (content : bytes)
    (filename : text) (file_size : Z) (st : server) :
  registered sock st →
  ∃ delta,
    trace (state_of (send_file_udp sock content filename file_size st))
      = trace st ++ delta ∧
    ((∃ rest,
        delta = Sent sock (lit "DOWNLOAD_START_UDP:" ++ filename ++ lit ":"
                             ++ str_of_int file_size)
                  :: Sent sock (lit "UDP_PORT:" ++ str_of_int (port st + 1))
                  :: rest) ∨
     (∃ rest, delta = SendFailed sock :: rest) ∨
     (∃ rest,
        delta = Sent sock (lit "DOWNLOAD_START_UDP:" ++ filename ++ lit ":"
                             ++ str_of_int file_size)
                  :: SendFailed sock :: rest)).
Proof.
  intros [info Hsock].
  set (start_msg := lit "DOWNLOAD_START_UDP:" ++ filename ++ lit ":"
                      ++ str_of_int file_size).
  set (error_msg := lit "ERROR: Failed to send file via UDP: " ++ exc_str).
  assert (∀ st1, ∃ d, trace (state_of (send_message sock error_msg st1))
                      = trace st1 ++ d) as Hreply.
  { intros st1. destruct (send_message_cases sock error_msg st1) as [-> | ->];
      by eexists. }
  unfold Server.send_file_udp. rewrite Hsock. fold start_msg error_msg.
  destruct (send_message_cases sock start_msg st) as [-> | ->];
    cbn [and_then try_except].
  2:{ destruct (Hreply (log (SendFailed sock) st)) as [d ->].
      exists (SendFailed sock :: d). split; [simpl; by rewrite <- app_assoc|].
      right. left. by exists d. }
  set (st1 := log (Sent sock start_msg) st).
  change (port st1) with (port st).
  set (port_msg := lit "UDP_PORT:" ++ str_of_int (port st + 1)).
  destruct (send_message_cases sock port_msg st1) as [-> | ->];
    cbn [and_then try_except].
  2:{ destruct (Hreply (log (SendFailed sock) st1)) as [d ->].
      exists (Sent sock start_msg :: SendFailed sock :: d).
      split; [simpl; by rewrite <- !app_assoc|].
      right. right. by exists d. }
  set (st2 := log (Sent sock port_msg) st1).
  set (rest := match Datagram.file_datagrams content with
               | Some (datagrams, finished) => _
               | None => Raise st2
               end).
  assert (emits (λ _, True) st2
            (state_of (try_except rest (λ st', send_message sock error_msg st'))))
    as (_ & _ & _ & d & Ht & _).
  { apply emits_try_except; [|intros; by apply emits_send].
    unfold rest. destruct (Datagram.file_datagrams content) as [[datagrams finished]|];
      [|apply emits_refl].
    apply emits_and_then; [by apply emits_sendto_all|]. intros st3 _.
    destruct finished; [by apply emits_send | apply emits_refl]. }
  exists (Sent sock start_msg :: Sent sock port_msg :: d).
  split; [rewrite Ht; unfold st2, st1; simpl; by rewrite <- !app_assoc|].
  left. by exists d.
Qed.

(** Every state the server can reach lists, in its groups, registered
    sockets without repetition, and has kept the port it started on. *)
Lemma reachable_wf (p : Z) (st : server) :
  reachable link_down str_upper listdir shared exc_str p st →
  wf st ∧ port st = p.
Proof.
  induction 1 as [|st client_socket addr received _ [IHwf IHp] _ _
                  |st sock received _ [IHwf IHp]].
  - split; [|done]. split.
    + by intros g m ?%elem_of_nil.
    + by intros s (g & m & ?%elem_of_nil & _).
  - destruct (accept_client_step_ok client_socket addr received st) as [Hp Hwf].
    split; [by apply Hwf | congruence].
  - destruct (handle_client_message_step_ok sock received st) as [Hp Hwf].
    split; [by apply Hwf | congruence].
Qed.

(** C10. In every state of a server started on port [p], whatever the
    client and the file, a datagram download announces port [p + 1] in its
    [UDP_PORT] control message, sends every datagram to port [p + 1], and
    only after that announcement, and leaves the listening port as it is.
    The announcement is made: for a client that is registered, the download
    begins with the [DOWNLOAD_START_UDP] message and the [UDP_PORT] message
    for port [p + 1], unless the send of one of these two fails.  So all
    datagram downloads of a server, concurrent ones too, use one and the
    same destination port. *)
Theorem udp_port_is_listening_port_plus_one (p : Z) (st : server)
    (sock : socket) (content : bytes) (filename : text) (file_size : Z) :
  reachable link_down str_upper listdir shared exc_str p st →
  port (state_of (send_file_udp sock content filename file_size st)) = p ∧
  ∃ delta,
    trace (state_of (send_file_udp sock content filename file_size st))
      = trace st ++ delta ∧
    (∀ s m, Sent s m ∈ delta → lit "UDP_PORT:" `prefix_of` m →
            m = lit "UDP_PORT:" ++ str_of_int (p + 1)) ∧
    (∀ host udp_port d, SentTo host udp_port d ∈ delta →
       udp_port = p + 1 ∧
       Sent sock (lit "UDP_PORT:" ++ str_of_int (p + 1)) ∈ delta) ∧
    (registered sock st →
     (∃ rest,
        delta = Sent sock (lit "DOWNLOAD_START_UDP:" ++ filename ++ lit ":"
                             ++ str_of_int file_size)
                  :: Sent sock (lit "UDP_PORT:" ++ str_of_int (p + 1))
                  :: rest) ∨
     (∃ rest, delta = SendFailed sock :: rest) ∨
     (∃ rest,
        delta = Sent sock (lit "DOWNLOAD_START_UDP:" ++ filename ++ lit ":"
                             ++ str_of_int file_size)
                  :: SendFailed sock :: rest)).
Proof.
  intros [_ <-]%reachable_wf.
  destruct (send_file_udp_emits sock content filename file_size st)
    as (Hport & _ & _ & delta & Htrace & Hall).
  split; [done|]. exists delta. split; [done|].
  rewrite Forall_forall in Hall. split_and!.
  - intros s m Hin Hpre. destruct (Hall _ Hin) as [_ [-> | [-> | [-> | ->]]]].
    + by apply not_udp_port_prefix in Hpre.
    + done.
    + by apply not_udp_port_prefix in Hpre.
    + by apply not_udp_port_prefix in Hpre.
  - intros host udp_port d Hin. split; [exact (Hall _ Hin)|].
    destruct (send_file_udp_announces sock content filename file_size st)
      as (delta' & Htrace' & Hcase).
    rewrite Htrace in Htrace'. apply app_inv_head in Htrace' as <-.
    destruct Hcase as [Hno | Hyes]; [|done].
    rewrite Forall_forall in Hno. by destruct (Hno _ Hin host udp_port d).
  - intros Hreg.
    destruct (send_file_udp_begins sock content filename file_size st Hreg)
      as (delta' & Htrace' & Hcase).
    rewrite Htrace in Htrace'. by apply app_inv_head in Htrace' as <-.
Qed.

End ServerFacts.

(** ** The scenarios *)

Section ScenarioFacts.
Import Wire Server Scenario.

Lemma three_clients_wf : wf three_clients.
Proof.
  split.
  - intros g m [[= -> ->] | ?%elem_of_nil]%elem_of_cons; [|done].
    apply NoDup_cons. split; [|apply NoDup_singleton].
    by intros [? | ?%elem_of_nil]%elem_of_cons.
  - intros s (g & m & [[= -> ->] | ?%elem_of_nil]%elem_of_cons & Hs); [|done].
    apply elem_of_cons in Hs as [-> | Hs]; [by eexists|].
    apply elem_of_cons in Hs as [-> | ?%elem_of_nil]; [by eexists | done].
Qed.


Lemma unicast_routing_witness :
  ∃ delta,
    Server.trace (Server.handle_client_message (λ _ _, false) ascii_upper None
                    (λ _, None) [] 1%nat
                    (Some (Wire.lit "/UNICAST alice hello")) three_clients)
      = Server.trace three_clients ++ delta ∧
    delta = [Server.Sent 2%nat (Wire.lit "[UNICAST] bob: hello")].
Proof.
  destruct (unicast_routing (λ _ _, false) ascii_upper None (λ _, None) []
              1%nat (Wire.lit "bob") three_clients) as (delta & Htr & Hcase);
    [by vm_compute | by vm_compute |].
  exists delta. split; [exact Htr|].
  change (Server.find_target (Wire.lit "alice") (Some 1%nat) three_clients)
    with (Some 2%nat) in Hcase.
  destruct Hcase as (_ & _ & _ & Hok). apply Hok. by vm_compute.
Defined.

Lemma sole_member_reachable :
  reachable flaky_link ascii_upper (Some []) (λ _, None) [] 5000 sole_member.
Proof.
  apply reach_message, reach_accept; [apply reach_accept | |].
  - apply reach_start.
  - by intros [? ?].
  - by intros ?%elem_of_nil.
  - by vm_compute; intros [? ?].
  - by vm_compute; intros ?%elem_of_nil.
Qed.

(** C5, where the code departs from it: the only member of group [g] sends
    [/LEAVEGROUP g] and the confirmation cannot be sent to it.  [leave_group]
    has taken the member out of the list and raises before it deletes the
    empty group; [remove_client] then finds the socket in no group.  The
    group stays, with no member, and the next [/LISTGROUPS] reports it. *)
Lemma failed_leave_keeps_empty_group :
  reachable flaky_link ascii_upper (Some []) (λ _, None) [] 5000 sole_member ∧
  groups sole_member = [(lit "g", [1%nat])] ∧
  no_empty_group sole_member ∧
  groups after_failed_leave = [(lit "g", [])] ∧
  ¬ no_empty_group after_failed_leave ∧
  last (trace (handle 2%nat "/LISTGROUPS" after_failed_leave))
  = Some (Sent 2%nat (lit "g (0 members): ")).
Proof.
  assert (groups sole_member = [(lit "g", [1%nat])]) as Hg0 by by vm_compute.
  assert (groups after_failed_leave = [(lit "g", [])]) as Hg by by vm_compute.
  split_and!.
  - exact sole_member_reachable.
  - exact Hg0.
  - intros g m. rewrite Hg0. by intros [[= -> ->] | ?%elem_of_nil]%elem_of_cons.
  - exact Hg.
  - intros Hne. apply (Hne (lit "g") []); [|done]. rewrite Hg. by left.
  - by vm_compute.
Qed.

Lemma udp_port_is_listening_port_plus_one_witness :
  port (state_of (send_file_udp flaky_link [] 2%nat two_chunk_file
                    (lit "f.bin") 1025 sole_member)) = 5000 ∧
  ∃ delta,
    trace (state_of (send_file_udp flaky_link [] 2%nat two_chunk_file
                       (lit "f.bin") 1025 sole_member))
      = trace sole_member ++ delta ∧
    (∀ s m, Sent s m ∈ delta → lit "UDP_PORT:" `prefix_of` m →
            m = lit "UDP_PORT:" ++ str_of_int (5000 + 1)) ∧
    (∀ host udp_port d, SentTo host udp_port d ∈ delta →
       udp_port = 5000 + 1 ∧
       Sent 2%nat (lit "UDP_PORT:" ++ str_of_int (5000 + 1)) ∈ delta) ∧
    ∃ rest,
      delta = Sent 2%nat (lit "DOWNLOAD_START_UDP:" ++ lit "f.bin" ++ lit ":"
                            ++ str_of_int 1025)
                :: Sent 2%nat (lit "UDP_PORT:" ++ str_of_int (5000 + 1))
                :: rest.
Proof.
  destruct (udp_port_is_listening_port_plus_one flaky_link ascii_upper (Some [])
              (λ _, None) [] 5000 sole_member 2%nat two_chunk_file (lit "f.bin")
              1025 sole_member_reachable)
    as (Hport & delta & Ht & Hmsg & Hto & Hbegin).
  split; [exact Hport|]. exists delta. split_and!; [exact Ht | exact Hmsg | exact Hto |].
  destruct Hbegin as [Hsent | [[rest ->] | [rest ->]]].
  - vm_compute. by eexists.
  - exact Hsent.
  - exfalso. vm_compute in Ht. discriminate Ht.
  - exfalso. vm_compute in Ht. discriminate Ht.
Defined.

(** A datagram download of a 1025-byte file by client 2: what is sent on
    the control channel, and where the two datagrams go. *)
Example udp_download_run :
  let st' :=
    Server.state_of
      (Server.send_file_udp (λ _ _, false) [] 2%nat two_chunk_file
         (Wire.lit "f.bin") 1025 three_clients) in
  omap (λ ev, match ev with
              | Server.Sent s m => Some (s, m)
              | _ => None
              end) (Server.trace st')
  = [(2%nat, Wire.lit "DOWNLOAD_START_UDP:f.bin:1025");
     (2%nat, Wire.lit "UDP_PORT:5001");
     (2%nat, Wire.lit "DOWNLOAD_COMPLETE_UDP:f.bin:1025")] ∧
  omap (λ ev, match ev with
              | Server.SentTo host udp_port d => Some (host, udp_port, length d)
              | _ => None
              end) (Server.trace st')
  = [(Wire.lit "10.0.0.2", 5001, 1032%nat); (Wire.lit "10.0.0.2", 5001, 9%nat)].
Proof. split; by vm_compute. Qed.

(** Group delivery walks the member list while [remove_client] shortens it:
    after the failed send to client 2, client 3 has moved to the position
    just visited and is passed over; it gets the leave notice but not the
    group message of client 1. *)
Example group_send_skips_member :
  Server.trace
    (Server.handle_client_message (λ _ s, bool_decide (s = 2%nat)) ascii_upper
       None (λ _, None) [] 1%nat (Some (Wire.lit "/GROUP g hi")) group_of_three)
  = [Server.SendFailed 2%nat;
     Server.Sent 1%nat (Wire.lit "alice has left");
     Server.Sent 3%nat (Wire.lit "alice has left")].
Proof. by vm_compute. Qed.

End ScenarioFacts.

(** ** Frames in a stream *)

Section FrameStream.
Import Wire Channel Scenario.

(** The segments one [send_message] writes. *)
Lemma send_message_segments (message : text) (s wire : stream) :
  Channel.send_message message [] = Some wire →
  Channel.send_message message s = Some (s ++ wire) ∧
  ∃ header payload,
    utf8_encode message = Some payload ∧
    pack_I (Z.of_nat (length payload)) = Some header ∧
    wire = header :: match payload with [] => [] | _ => [payload] end.
Proof.
  unfold Channel.send_message.
  destruct (utf8_encode message) as [payload|]; [|discriminate].
  cbn [mbind option_bind].
  destruct (pack_I (Z.of_nat (length payload))) as [header|] eqn:Hpack;
    [|discriminate].
  cbn [mbind option_bind]. intros [= <-].
  pose proof (pack_I_length _ _ Hpack) as Hlen.
  destruct header as [|h header]; [discriminate|].
  unfold sendall at 2 4. split.
  - f_equal. destruct payload; simpl; [done|]. by rewrite <- app_assoc.
  - exists (h :: header), payload. split_and!; [done..|]. by destruct payload.
Qed.

Lemma receive_segments (message : text) (header payload : bytes) (rest : stream) :
  utf8_encode message = Some payload →
  pack_I (Z.of_nat (length payload)) = Some header →
  receive_message
    ((header :: match payload with [] => [] | _ => [payload] end) ++ rest)
  = (Some message, rest).
Proof.
  intros Henc Hpack. pose proof (pack_I_length _ _ Hpack) as Hlen.
  rewrite <- app_comm_cons. unfold receive_message, recv.
  rewrite bool_decide_eq_true_2 by lia.
  rewrite bool_decide_eq_false_2 by (cbn [length]; lia).
  rewrite (unpack_pack_I _ _ Hpack).
  rewrite <- (utf8_round_trip _ _ Henc).
  destruct payload as [|b payload].
  - rewrite app_nil_l. by destruct rest.
  - cbn [app recv_payload length]. 
    rewrite bool_decide_eq_true_2 by lia.
    rewrite bool_decide_eq_true_2 by lia.
    change ([] ++ b :: payload) with (b :: payload).
    destruct rest; cbn [recv_payload]; by rewrite bool_decide_eq_false_2 by (cbn [length]; lia).
Qed.

(** A frame delimits itself.  [send_message] appends its frame to whatever
    is in the stream already, and [receive_message] on a stream that begins
    with a frame returns the message and leaves what follows the frame as it
    is: messages sent one after the other are received one after the
    other. *)
Theorem frame_is_self_delimiting (message : text) (wire before rest : stream) :
  Channel.send_message message [] = Some wire →
  Channel.send_message message before = Some (before ++ wire) ∧
  receive_message (wire ++ rest) = (Some message, rest).
Proof.
  intros Hsend.
  destruct (send_message_segments message before wire Hsend)
    as (Happ & header & payload & Henc & Hpack & ->).
  split; [done|]. by apply receive_segments.
Qed.

Lemma frame_is_self_delimiting_witness :
  receive_message ([[x00; x00; x00; x02]; [x68; x69]]
                     ++ [[x00; x00; x00; x01]; [x21]])
  = (Some (lit "hi"), [[x00; x00; x00; x01]; [x21]]).
Proof.
  apply (frame_is_self_delimiting (lit "hi") _ [] [[x00; x00; x00; x01]; [x21]]).
  by vm_compute.
Defined.

(** The length prefix is read with a single [recv(4)].  When the first
    segment of a frame to arrive holds one, two or three bytes,
    [receive_message] returns [None]; the bytes read are gone and the rest of
    the frame is left in the stream. *)
Theorem split_header_loses_frame (message : text) (wire : stream) (k : nat) :
  Channel.send_message message [] = Some wire →
  (0 < k < 4)%nat →
  receive_message [take k (concat wire); drop k (concat wire)]
  = (None, [drop k (concat wire)]).
Proof.
  intros Hsend Hk.
  destruct (send_message_segments message [] wire Hsend)
    as (_ & header & payload & _ & Hpack & ->).
  pose proof (pack_I_length _ _ Hpack) as Hlen.
  unfold receive_message, recv.
  assert (length (take k (concat (header :: match payload with
                                           | [] => []
                                           | _ => [payload]
                                           end))) = k) as Hlk.
  { rewrite length_take. simpl. rewrite length_app. lia. }
  rewrite bool_decide_eq_true_2 by lia.
  by rewrite bool_decide_eq_true_2 by lia.
Qed.

Lemma split_header_loses_frame_witness :
  receive_message [take 2 (concat [[x00; x00; x00; x02]; [x68; x69]]);
                   drop 2 (concat [[x00; x00; x00; x02]; [x68; x69]])]
  = (None, [drop 2 (concat [[x00; x00; x00; x02]; [x68; x69]])]).
Proof.
  apply (split_header_loses_frame (lit "hi")); [by vm_compute | lia].
Defined.

(** A stream cut in any way, as long as the first [recv] returns the whole
    header: what [receive_message] decodes is the payload announced, and what
    follows it is left. *)
Lemma receive_message_payload (header payload more : bytes) (s : stream) :
  pack_I (Z.of_nat (length payload)) = Some header →
  Forall (λ seg, seg ≠ []) s →
  (∃ seg rest, s = seg :: rest ∧ (4 ≤ length seg)%nat) →
  concat s = header ++ payload ++ more →
  ∃ s', receive_message s = (utf8_decode payload, s') ∧ concat s' = more.
Proof.
  intros Hpack Hne (seg & rest & -> & Hseg) Hcat.
  pose proof (pack_I_length _ _ Hpack) as Hlen.
  set (s1 := if bool_decide (length seg ≤ 4)%nat then rest else drop 4 seg :: rest).
  assert (recv 4 (seg :: rest) = (header, s1)) as Hrecv.
  { unfold recv, s1. simpl in Hcat. apply (f_equal (take 4)) in Hcat.
    rewrite take_app_le in Hcat by lia.
    rewrite take_app_length' in Hcat by done.
    case_bool_decide; [|by rewrite Hcat].
    by rewrite <- Hcat, take_ge by lia. }
  assert (concat s1 = payload ++ more) as Hrest.
  { simpl in Hcat. apply (f_equal (drop 4)) in Hcat.
    rewrite (drop_app_length' header) in Hcat by done.
    rewrite drop_app_le in Hcat by lia.
    unfold s1. case_bool_decide; simpl; [|done].
    rewrite drop_ge in Hcat by lia. done. }
  assert (Forall (λ seg, seg ≠ []) s1) as Hne1.
  { apply Forall_cons in Hne as [_ Hne]. unfold s1. case_bool_decide; [done|].
    apply Forall_cons. split; [|done].
    intros Hnil. apply (f_equal length) in Hnil. rewrite length_drop in Hnil.
    simpl in Hnil. lia. }
  unfold receive_message. rewrite Hrecv.
  rewrite bool_decide_eq_false_2 by lia.
  rewrite (unpack_pack_I _ _ Hpack).
  destruct (recv_payload_enough (Z.of_nat (length payload)) s1 [] Hne1)
    as (s' & -> & Hs' & _); [rewrite Hrest, length_app; simpl; lia|].
  exists s'. rewrite Hs', Hrest. simpl.
  by rewrite Nat2Z.id, Nat.sub_0_r, take_app_length, drop_app_length.
Qed.

(** A frame whose payload is not UTF-8, however the stream is cut after the
    header: the frame is read in full, [receive_message] returns [None], as
    for a closed connection, and what follows the frame is left. *)
Theorem undecodable_payload_rejected (header payload more : bytes)
    (s : stream) :
  pack_I (Z.of_nat (length payload)) = Some header →
  utf8_decode payload = None →
  Forall (λ seg, seg ≠ []) s →
  (∃ seg rest, s = seg :: rest ∧ (4 ≤ length seg)%nat) →
  concat s = header ++ payload ++ more →
  ∃ s', receive_message s = (None, s') ∧ concat s' = more.
Proof.
  intros Hpack Hdec Hne Hfirst Hcat.
  destruct (receive_message_payload header payload more s Hpack Hne Hfirst Hcat)
    as (s' & Hrecv & Hs').
  exists s'. by rewrite Hrecv, Hdec.
Qed.

Lemma undecodable_payload_rejected_witness :
  ∃ s', receive_message [[x00; x00; x00; x02; xc3]; [x28; x00]] = (None, s') ∧
        concat s' = [x00].
Proof.
  apply (undecodable_payload_rejected [x00; x00; x00; x02] [xc3; x28] [x00]).
  - by vm_compute.
  - by vm_compute.
  - by repeat constructor.
  - eexists _, _. split; [done | simpl; lia].
  - done.
Defined.

End FrameStream.

(** ** The byte counter and the chunk map *)

Section SessionAccounting.
Import Wire Datagram Scenario.


Lemma stored_bytes_insert (m : gmap Z bytes) (k : Z) (c : bytes) :
  m !! k = None → stored_bytes (<[k := c]> m) = (length c + stored_bytes m)%nat.
Proof.
  intros Hk. unfold stored_bytes.
  rewrite map_fold_insert_L; [done | | done]. intros. lia.
Qed.

Lemma store_datagram_accounted (raw : bytes) (st st' : session) :
  store_datagram raw st = Some st' →
  accounted st → accounted st' ∧ download_file_size st' = download_file_size st.
Proof.
  unfold store_datagram. case_bool_decide; [|by intros [= <-]].
  destruct (unpack_II _) as [[chunk_num chunk_len]|]; [|discriminate].
  cbn [mbind option_bind].
  destruct (download_chunks st !! chunk_num) eqn:Hc; intros [= <-]; [done|].
  intros [Hrecv Hall]. split; [|done]. split; cbn [download_received download_chunks].
  - rewrite stored_bytes_insert by done. lia.
  - apply map_Forall_insert; [done|]. split; [|done].
    rewrite length_take, length_drop, length_take. lia.
Qed.

Lemma receive_loop_accounted (evs : list udp_event) (st : session) :
  accounted st →
  accounted (run_state (receive_loop evs st)) ∧
  download_file_size (run_state (receive_loop evs st)) = download_file_size st.
Proof.
  revert st. induction evs as [|ev evs IH]; intros st Hst; cbn [receive_loop].
  - by case_bool_decide.
  - case_bool_decide; [|done]. destruct ev as [raw| |]; [| |done].
    + destruct (store_datagram raw st) as [st'|] eqn:Hstore; [|done].
      destruct (store_datagram_accounted raw st st' Hstore Hst) as [Hst' Hsize].
      destruct (IH st' Hst') as [H1 H2]. split; [done | congruence].
    + case_bool_decide; [done|]. by apply IH.
Qed.

(** Whatever datagrams reach the receive loop, from anyone, in its state
    the announced size is as it was set, the counter [download_received] is
    the number of bytes held in the chunk map, and no chunk held is longer
    than 1024 bytes. *)
Theorem counter_matches_stored_bytes (file_size : Z) (evs : list udp_event) :
  let st := run_state (receive_loop evs (handle_download_start_udp file_size)) in
  download_file_size st = file_size ∧
  download_received st = Z.of_nat (stored_bytes (download_chunks st)) ∧
  map_Forall (λ _ c, (length c ≤ 1024)%nat) (download_chunks st).
Proof.
  destruct (receive_loop_accounted evs (handle_download_start_udp file_size))
    as [[H1 H2] H3].
  - split; [done|]. apply map_Forall_empty.
  - done.
Qed.

Lemma receive_loop_only_from (f : bytes) (evs : list udp_event) (st : session) :
  inv f (λ _, True) st → only_from f evs →
  inv f (λ _, True) (run_state (receive_loop evs st)).
Proof.
  revert st. induction evs as [|ev evs IH]; intros st Hinv Hevs; cbn [receive_loop].
  - by case_bool_decide.
  - case_bool_decide; [|done]. apply Forall_cons in Hevs as [Hev Hevs].
    destruct ev as [raw| |]; [| |done].
    + destruct Hev as [i Hgen].
      destruct (inv_store f _ i raw st Hinv Hgen I) as (st1 & -> & Hinv1 & _).
      by apply IH.
    + case_bool_decide; [done|]. by apply IH.
Qed.

(** When no datagram reaches the receive loop but datagrams of the file the
    server is sending (any of them, any number of times, in any order, with
    time-outs and a receive error among them), the download is reported as
    successful exactly when the file written is the file sent, and the file
    written is never longer than the file sent. *)
Theorem success_report_is_sound (f : bytes) (evs : list udp_event)
    (out : bytes) (ok : bool) :
  only_from f evs →
  receive_file_udp evs (handle_download_start_udp (Z.of_nat (length f)))
    = Some (out, ok) →
  (ok = true ↔ out = f) ∧ (length out ≤ length f)%nat.
Proof.
  intros Hevs. unfold receive_file_udp.
  pose proof (receive_loop_only_from f evs _ (inv_start f _) Hevs) as Hinv.
  destruct (receive_loop evs _) as [st'|st']; [|discriminate].
  cbn [run_state] in Hinv. intros [= <- <-].
  pose proof Hinv as (Hsize & _ & Hrecv).
  split; [|by eapply inv_written_le]. split.
  - intros Hok%bool_decide_eq_true. eapply inv_written_full; [done | lia].
  - intros Hw. apply bool_decide_eq_true. rewrite Hrecv, Hsize. by rewrite Hw.
Qed.

Lemma success_report_is_sound_witness :
  (false = true ↔ [x02] = two_chunk_file) ∧
  (length [x02] ≤ length two_chunk_file)%nat.
Proof.
  apply (success_report_is_sound two_chunk_file
           [Datagram lone_last_chunk; SockTimeout; SockError]).
  - repeat constructor. exists 1. split; [by vm_compute|].
    eexists. split; by vm_compute.
  - by vm_compute.
Defined.

(** A datagram whose chunk number is not below the expected count, and not
    yet in the chunk map, is stored and its bytes are counted, but the write
    loop never visits it: the file written is the same as without it. *)
Theorem stray_chunk_counted_not_written (st : session) (raw : bytes) (k : Z) :
  chunk_index raw = Some k →
  ¬ (0 ≤ k < expected_chunks st) →
  download_chunks st !! k = None →
  ∃ c st',
    store_datagram raw st = Some st' ∧
    download_chunks st' = <[k := c]> (download_chunks st) ∧
    download_received st' = download_received st + Z.of_nat (length c) ∧
    write_file st' = write_file st.
Proof.
  unfold chunk_index, store_datagram. intros Hk Hout Hnone.
  case_bool_decide; [|discriminate].
  destruct (unpack_II _) as [[chunk_num chunk_len]|]; [|discriminate].
  injection Hk as ->. cbn [mbind option_bind]. rewrite Hnone.
  eexists _, _. split_and!; [done..|].
  rewrite !write_file_pieces. cbn [download_chunks].
  unfold expected_chunks in *. cbn [download_file_size].
  f_equal. apply pieces_insert_notin. rewrite elem_of_seqZ. lia.
Qed.

Lemma stray_chunk_counted_not_written_witness :
  ∃ c st',
    store_datagram [x00; x00; x00; x07; x00; x00; x00; x01; x02]
                   (handle_download_start_udp 1) = Some st' ∧
    download_chunks st' = <[7 := c]> ∅ ∧
    download_received st' = 0 + Z.of_nat (length c) ∧
    write_file st' = write_file (handle_download_start_udp 1).
Proof.
  apply (stray_chunk_counted_not_written (handle_download_start_udp 1)
           [x00; x00; x00; x07; x00; x00; x00; x01; x02] 7).
  - by vm_compute.
  - vm_compute. intros [_ H]. discriminate H.
  - done.
Defined.

(** What the sender's chunk loop produces fits the receiver: as many
    datagrams as the receiver expects chunks, each of more than 8 and at most
    1032 bytes, the [j]-th carrying chunk number [j] in its header, and their
    payloads in a row are the file. *)
Theorem datagrams_match_receiver (f : bytes) (sent : list bytes) :
  file_datagrams f = Some (sent, true) →
  Z.of_nat (length sent)
    = expected_chunks (handle_download_start_udp (Z.of_nat (length f))) ∧
  Forall (λ d, (8 < length d ≤ 1032)%nat) sent ∧
  (∀ (j : nat) d, sent !! j = Some d → chunk_index d = Some (Z.of_nat j)) ∧
  concat (drop 8 <$> sent) = f.
Proof.
  intros Hsent. destruct (file_datagrams_genuine f sent Hsent) as [Hlen Hgen].
  assert (∀ (j : nat) d, sent !! j = Some d →
            ∃ header, length header = 8%nat ∧
                      d = header ++ chunk_of f (Z.of_nat j) ∧
                      (0 < length (chunk_of f (Z.of_nat j)) ≤ 1024)%nat ∧
                      chunk_index d = Some (Z.of_nat j)) as Hshape.
  { intros j d Hj. destruct (Hgen j d Hj) as (Hrange & header & Hpack & ->).
    destruct (unpack_pack_II _ _ _ (chunk_of f (Z.of_nat j)) Hpack) as [Hh Hun].
    pose proof (chunk_of_length f (Z.of_nat j)).
    pose proof (chunk_of_nonempty f (Z.of_nat j) Hrange) as Hne.
    assert (0 < length (chunk_of f (Z.of_nat j)))%nat
      by (destruct (chunk_of f (Z.of_nat j)); [done | simpl; lia]).
    exists header. split_and!; [done | done | lia | lia |].
    unfold chunk_index.
    rewrite (take_ge (header ++ _)) by (rewrite length_app; lia).
    rewrite bool_decide_eq_true_2 by (rewrite length_app; lia).
    by rewrite Hun. }
  split_and!.
  - done.
  - apply Forall_lookup. intros j d Hj.
    destruct (Hshape j d Hj) as (header & Hh & -> & Hc & _).
    rewrite length_app. lia.
  - intros j d Hj. by destruct (Hshape j d Hj) as (header & _ & _ & _ & Hidx).
  - etransitivity; [|apply concat_all_chunks]. f_equal.
    apply list_eq. intros j. rewrite !list_lookup_fmap.
    destruct (sent !! j) as [d|] eqn:Hj; simpl.
    + destruct (Hshape j d Hj) as (header & Hh & -> & _ & _).
      apply lookup_lt_Some in Hj.
      rewrite lookup_seqZ_lt by lia. simpl.
      by rewrite drop_app_length'.
    + apply lookup_ge_None in Hj. by rewrite lookup_seqZ_ge by lia.
Qed.

End SessionAccounting.

(** ** The registry and the main loop *)

Section Registry.
Import Wire Server.

Variable link_down : list event → socket → bool.
Variable str_upper : text → text.
Variable listdir : option (list text).
Variable shared : text → option fs_entry.
Variable exc_str : text.

Local Abbreviation send_message := (Server.send_message link_down).
Local Abbreviation broadcast_loop := (Server.broadcast_loop link_down).
Local Abbreviation remove_client_fuel := (Server.remove_client_fuel link_down).
Local Abbreviation remove_client := (Server.remove_client link_down).
Local Abbreviation broadcast_message := (Server.broadcast_message link_down).
Local Abbreviation unicast_message := (Server.unicast_message link_down).
Local Abbreviation join_group := (Server.join_group link_down).
Local Abbreviation leave_group := (Server.leave_group link_down).
Local Abbreviation send_group_message := (Server.send_group_message link_down).
Local Abbreviation accept_client := (Server.accept_client link_down).
Local Abbreviation dispatch :=
  (Server.dispatch link_down str_upper listdir shared exc_str).
Local Abbreviation handle_client_message :=
  (Server.handle_client_message link_down str_upper listdir shared exc_str).
Local Abbreviation reachable :=
  (Server.reachable link_down str_upper listdir shared exc_str).
Local Abbreviation select_round :=
  (Server.select_round link_down str_upper listdir shared exc_str).
Local Abbreviation serve_readable :=
  (Server.serve_readable link_down str_upper listdir shared exc_str).
Local Abbreviation start :=
  (Server.start link_down str_upper listdir shared exc_str).
Local Abbreviation sendable := (Server.sendable link_down).

(** *** Who is registered and what is closed *)

Lemma retires_refl (st : server) : retires st st.
Proof. split; [done|]. intros s. split; [by left|]. by intros [? | [? ?]]. Qed.

Lemma retires_trans (st st1 st2 : server) :
  retires st st1 → retires st1 st2 → retires st st2.
Proof.
  intros [Hc1 Hx1] [Hc2 Hx2]. split.
  - intros s info Hs. by apply Hc1, Hc2.
  - intros s. rewrite Hx2, Hx1.
    assert (registered s st2 → registered s st1) as H21
      by (intros [i Hi]; exists i; by apply Hc2).
    assert (registered s st1 → registered s st) as H10
      by (intros [i Hi]; exists i; by apply Hc1).
    split.
    + intros [[Hcl | [Hr Hn]] | [Hr Hn]].
      * by left.
      * right. split; [done|]. intros H2. by apply Hn, H21.
      * right. split; [by apply H10 | done].
    + intros [Hcl | [Hr Hn]]; [by left; left|].
      destruct (decide (is_Some (dict_get s (clients st1)))) as [H1|H1].
      * by right.
      * left. by right.
Qed.

Lemma retires_same (st st' : server) :
  clients st' = clients st → closed st' = closed st → retires st st'.
Proof.
  intros Hc Hx. unfold retires, registered. rewrite Hc, Hx.
  split; [done|]. intros s. split; [by left|]. by intros [? | [? ?]].
Qed.

Lemma send_message_retires (s : socket) (m : text) (st : server) :
  retires st (state_of (send_message s m st)).
Proof.
  destruct (send_message_cases link_down s m st) as [-> | ->]; by apply retires_same.
Qed.

Lemma sendall_retires (s : socket) (data : bytes) (st : server) :
  retires st (state_of (Server.sendall link_down s data st)).
Proof. unfold Server.sendall. destruct (_ || _); by apply retires_same. Qed.

Lemma retires_and_then (st : server) (r : outcome) (k : server → outcome) :
  retires st (state_of r) →
  (∀ st1, r = Ok st1 → retires st1 (state_of (k st1))) →
  retires st (state_of (and_then r k)).
Proof.
  intros Hr Hk. destruct r as [st1|st1]; simpl in *; [|done].
  eapply retires_trans; [done|]. by apply Hk.
Qed.

Lemma retires_try_except (st : server) (r : outcome) (h : server → outcome) :
  retires st (state_of r) →
  (∀ st1, r = Raise st1 → retires st1 (state_of (h st1))) →
  retires st (state_of (try_except r h)).
Proof.
  intros Hr Hh. destruct r as [st1|st1]; simpl in *; [done|].
  eapply retires_trans; [done|]. by apply Hh.
Qed.

Lemma unregister_retires (sock : socket) (st : server) :
  registered sock st → retires st (unregister sock st).
Proof.
  intros Hs. split.
  - intros s info. simpl. rewrite dict_get_dict_del. by case_decide.
  - intros s. unfold registered. simpl. rewrite dict_get_dict_del, elem_of_cons.
    split.
    + intros [-> | Hcl]; [right | by left]. split; [done|].
      rewrite decide_True by done. by intros [? ?].
    + intros [Hcl | [Hr Hn]]; [by right|]. left.
      destruct (decide (s = sock)); [done|]. by destruct Hn.
Qed.

Lemma broadcast_loop_retires (remove : socket → server → option server)
    (message : text) (exclude_socket : option socket) :
  (∀ s st1 st2, remove s st1 = Some st2 → retires st1 st2) →
  ∀ snapshot st st',
    broadcast_loop remove message exclude_socket snapshot st = Some st' →
    retires st st'.
Proof.
  intros Hremove. induction snapshot as [|sock rest IH]; intros st st' Hloop.
  - injection Hloop as <-. apply retires_refl.
  - cbn [Server.broadcast_loop] in Hloop. case_bool_decide; [|by apply IH].
    destruct (send_message_cases link_down sock message st) as [Hs | Hs];
      rewrite Hs in Hloop.
    + eapply retires_trans; [|by apply IH]. by apply retires_same.
    + destruct (remove sock (log (SendFailed sock) st)) as [st2|] eqn:Hrm;
        [|discriminate].
      cbn [mbind option_bind] in Hloop.
      apply (retires_trans _ (log (SendFailed sock) st)); [by apply retires_same|].
      eapply retires_trans; [by eapply Hremove | by apply IH].
Qed.

Lemma remove_client_fuel_retires (fuel : nat) (sock : socket) (st st' : server) :
  remove_client_fuel fuel sock st = Some st' → retires st st'.
Proof.
  revert sock st st'. induction fuel as [|fuel IH]; intros sock st st';
    cbn [Server.remove_client_fuel];
    destruct (dict_get sock (clients st)) as [info|] eqn:Hs;
    try discriminate; try (intros [= <-]; apply retires_refl).
  fold (unregister sock st). intros Hloop.
  eapply retires_trans; [apply unregister_retires; by eexists|].
  by eapply broadcast_loop_retires.
Qed.

Lemma remove_client_retires (sock : socket) (st : server) :
  retires st (remove_client sock st).
Proof.
  unfold Server.remove_client.
  destruct (remove_client_fuel_total link_down (length (clients st)) sock st)
    as [st' Hst']; [done|].
  rewrite Hst'. by eapply remove_client_fuel_retires.
Qed.

Lemma broadcast_message_retires (message : text) (exclude_socket : option socket)
    (st : server) :
  retires st (broadcast_message message exclude_socket st).
Proof.
  unfold Server.broadcast_message.
  destruct (broadcast_loop_total link_down (length (clients st)) message
              exclude_socket (remove_client_fuel_total link_down _)
              (keys (clients st)) st) as [st' Hst']; [done|].
  rewrite Hst'. simpl.
  eapply broadcast_loop_retires; [|done].
  intros s st1 st2. apply remove_client_fuel_retires.
Qed.

Lemma send_or_remove_retires (s : socket) (m : text) (st : server) :
  retires st (match send_message s m st with
              | Ok st1 => st1
              | Raise st1 => remove_client s st1
              end).
Proof.
  destruct (send_message_cases link_down s m st) as [-> | ->].
  - by apply retires_same.
  - apply (retires_trans _ (log (SendFailed s) st));
      [by apply retires_same | apply remove_client_retires].
Qed.

Lemma unicast_message_retires (message target_username : text)
    (exclude_socket : option socket) (st : server) :
  retires st (state_of (unicast_message message target_username exclude_socket st)).
Proof.
  unfold Server.unicast_message. destruct (find_target _ _ st) as [t|].
  - pose proof (send_or_remove_retires t message st) as H.
    by destruct (Server.send_message link_down t message st).
  - destruct exclude_socket; [apply send_message_retires | apply retires_refl].
Qed.

Lemma join_group_retires (sock : socket) (group_name : text) (st : server) :
  retires st (state_of (join_group sock group_name st)).
Proof.
  unfold Server.join_group.
  set (st1 := match dict_get group_name (groups st) with
              | None => set_groups (groups st ++ [(group_name, [])]) st
              | Some _ => st
              end).
  assert (retires st st1) as H1.
  { unfold st1. destruct (dict_get group_name (groups st));
      [apply retires_refl | by apply retires_same]. }
  eapply retires_trans; [exact H1|].
  case_bool_decide; [|apply send_message_retires].
  match goal with
  | |- retires _ (state_of (match username_of _ ?s with _ => _ end)) =>
      apply (retires_trans _ s); [by apply retires_same|]
  end.
  destruct (username_of sock _); [apply send_message_retires | apply retires_refl].
Qed.

Lemma leave_group_retires (sock : socket) (group_name : text) (st : server) :
  retires st (state_of (leave_group sock group_name st)).
Proof.
  unfold Server.leave_group.
  destruct (dict_get group_name (groups st)) as [members|];
    [|apply send_message_retires].
  case_bool_decide; [|apply send_message_retires].
  match goal with
  | |- retires _ (state_of (match username_of _ ?s with _ => _ end)) =>
      apply (retires_trans _ s); [by apply retires_same|]
  end.
  destruct (username_of sock _); [|apply retires_refl].
  apply retires_and_then; [apply send_message_retires|]. intros st2 _.
  destruct (dict_get group_name (groups st2)) as [[|x r]|]; cbn [state_of];
    [by apply retires_same | apply retires_refl..].
Qed.

Lemma group_loop_retires (rounds i : nat) (message group_name : text)
    (exclude_socket : option socket) (st : server) :
  retires st (group_loop link_down rounds i message group_name exclude_socket st).
Proof.
  revert i st. induction rounds as [|rounds IH]; intros i st;
    cbn [Server.group_loop]; [apply retires_refl|].
  destruct (_ !! i) as [sock|]; [|apply retires_refl].
  eapply retires_trans; [|apply IH].
  case_bool_decide; [apply send_or_remove_retires | apply retires_refl].
Qed.

Lemma send_group_message_retires (message group_name : text)
    (exclude_socket : option socket) (st : server) :
  retires st (state_of (send_group_message message group_name exclude_socket st)).
Proof.
  unfold Server.send_group_message.
  destruct (dict_get group_name (groups st)); [apply group_loop_retires|].
  destruct exclude_socket; [apply send_message_retires | apply retires_refl].
Qed.

Lemma emits_retires_closed (P : event → Prop) (st st' : server) :
  emits P st st' → closed st' = closed st → retires st st'.
Proof. intros (_ & Hc & _) Hx. by apply retires_same. Qed.

Lemma send_blocks_retires (rounds : nat) (sock : socket) (f : bytes) (st : server) :
  retires st (state_of (send_blocks link_down rounds sock f st)).
Proof.
  revert f st. induction rounds as [|rounds IH]; intros f st; cbn [send_blocks].
  - destruct (take 4096 f); apply retires_refl.
  - destruct (take 4096 f) as [|b chunk]; [apply retires_refl|].
    destruct (pack_I _) as [header|]; [|apply retires_refl].
    apply retires_and_then; [apply sendall_retires|]. intros st1 _.
    apply retires_and_then; [apply sendall_retires|]. intros st2 _. apply IH.
Qed.

Lemma send_file_tcp_retires (sock : socket) (content : bytes) (filename : text)
    (file_size : Z) (st : server) :
  retires st
    (state_of (send_file_tcp link_down exc_str sock content filename file_size st)).
Proof.
  unfold Server.send_file_tcp.
  apply retires_try_except; [|intros st1 _; apply send_message_retires].
  apply retires_and_then; [apply send_message_retires|]. intros st1 _.
  apply retires_and_then; [apply send_blocks_retires|]. intros st2 _.
  apply send_message_retires.
Qed.

Lemma sendto_all_retires (host : text) (udp_port : Z) (datagrams : list bytes)
    (st : server) :
  retires st (state_of (sendto_all host udp_port datagrams st)).
Proof.
  revert st. induction datagrams as [|d ds IH]; intros st; [apply retires_refl|].
  cbn [sendto_all]. unfold sendto.
  case_bool_decide; cbn [and_then state_of]; [|apply retires_refl].
  eapply retires_trans; [|apply IH]. by apply retires_same.
Qed.

Lemma send_file_udp_retires (sock : socket) (content : bytes) (filename : text)
    (file_size : Z) (st : server) :
  retires st
    (state_of (send_file_udp link_down exc_str sock content filename file_size st)).
Proof.
  unfold Server.send_file_udp.
  apply retires_try_except; [|intros st1 _; apply send_message_retires].
  destruct (dict_get sock (clients st)) as [info|]; [|apply retires_refl].
  apply retires_and_then; [apply send_message_retires|]. intros st1 _.
  apply retires_and_then; [apply send_message_retires|]. intros st2 _.
  destruct (Datagram.file_datagrams content) as [[datagrams finished]|];
    [|apply retires_refl].
  apply retires_and_then; [apply sendto_all_retires|]. intros st3 _.
  destruct finished; [apply send_message_retires | apply retires_refl].
Qed.

Lemma handle_file_download_retires (sock : socket) (filename protocol : text)
    (st : server) :
  retires st
    (state_of (handle_file_download link_down str_upper shared exc_str
                 sock filename protocol st)).
Proof.
  unfold Server.handle_file_download.
  destruct (shared filename) as [[|content]|];
    [apply send_message_retires | | apply send_message_retires].
  case_bool_decide; [apply send_file_tcp_retires|].
  case_bool_decide; [apply send_file_udp_retires | apply send_message_retires].
Qed.

Lemma list_files_retires (sock : socket) (st : server) :
  retires st (state_of (list_files link_down listdir exc_str sock st)).
Proof.
  unfold Server.list_files. destruct listdir as [files|]; [|apply send_message_retires].
  apply retires_try_except; [|intros st1 _; apply send_message_retires].
  apply retires_and_then; [apply send_message_retires|]. intros st1 _.
  destruct files; apply send_message_retires.
Qed.

Lemma dispatch_retires (sock : socket) (sender message : text) (st : server) :
  retires st (state_of (dispatch sock sender message st)).
Proof.
  unfold Server.dispatch.
  set (parts := split 2 (strip message)).
  case_bool_decide; [apply remove_client_retires|].
  case_bool_decide.
  { destruct (parts !! 1%nat); [apply broadcast_message_retires | apply retires_refl]. }
  case_bool_decide.
  { destruct parts as [|? [|? [|? [|? ?]]]];
      first [apply unicast_message_retires | apply send_message_retires]. }
  case_bool_decide.
  { destruct (parts !! 1%nat); [apply join_group_retires | apply send_message_retires]. }
  case_bool_decide.
  { destruct (parts !! 1%nat); [apply leave_group_retires | apply send_message_retires]. }
  case_bool_decide.
  { destruct parts as [|? [|? [|? [|? ?]]]];
      first [apply send_group_message_retires | apply send_message_retires]. }
  case_bool_decide; [apply list_files_retires|].
  case_bool_decide.
  { destruct (parts !! 1%nat);
      [apply handle_file_download_retires | apply send_message_retires]. }
  case_bool_decide; [apply send_message_retires|].
  case_bool_decide.
  { unfold Server.list_groups. destruct (groups st); apply send_message_retires. }
  apply broadcast_message_retires.
Qed.

Lemma handle_client_message_retires (sock : socket) (received : option text)
    (st : server) :
  retires st (handle_client_message sock received st).
Proof.
  unfold Server.handle_client_message.
  destruct received as [[|c message]|]; [apply remove_client_retires | |
                                         apply remove_client_retires].
  destruct (username_of sock st) as [sender|]; [|apply retires_refl].
  pose proof (dispatch_retires sock sender (c :: message) st) as Hd.
  destruct (dispatch sock sender (c :: message) st) as [st'|st']; [done|].
  eapply retires_trans; [exact Hd | apply remove_client_retires].
Qed.

(** Handling a message, whatever it is, registers no client, and closes
    exactly the sockets of the clients it takes out of the registry. *)
Theorem handling_closes_what_it_unregisters (sock : socket)
    (received : option text) (st : server) :
  let st' := handle_client_message sock received st in
  (∀ s info, dict_get s (clients st') = Some info →
             dict_get s (clients st) = Some info) ∧
  (∀ s, s ∈ closed st' ↔ s ∈ closed st ∨ (registered s st ∧ ¬ registered s st')).
Proof. apply handle_client_message_retires. Qed.

Lemma retires_open (st st' : server) :
  retires st st' → open_registry st → open_registry st'.
Proof.
  intros [Hc Hx] Hopen s Hs Hcl. apply Hx in Hcl as [Hcl | [_ Hn]]; [|done].
  apply (Hopen s); [|done]. destruct Hs as [info Hs]. exists info. by apply Hc.
Qed.

Lemma dict_set_registered_inv (s k : socket) (v : client_info)
    (d : list (socket * client_info)) :
  is_Some (dict_get s (dict_set k v d)) → is_Some (dict_get s d) ∨ s = k.
Proof.
  induction d as [|[k0 v0] d IH]; simpl.
  - case_bool_decide; [by right | by intros [? ?]].
  - destruct (decide (k0 = k)) as [->|Hk].
    + rewrite bool_decide_eq_true_2 by done. simpl.
      case_bool_decide; [by right | by left].
    + rewrite bool_decide_eq_false_2 by done. simpl.
      case_bool_decide; [by left | done].
Qed.

(** What [accept_client] adds to the sockets the server knows. *)
Lemma accept_client_known (client_socket : socket) (addr : text * Z)
    (received : option text) (st : server) (s : socket) :
  (registered s (accept_client client_socket addr received st) →
   registered s st ∨ s = client_socket) ∧
  (s ∈ closed (accept_client client_socket addr received st) →
   s ∈ closed st ∨ registered s st ∨ s = client_socket).
Proof.
  unfold Server.accept_client.
  destruct (send_message_cases link_down client_socket
              (lit "Welcome to the Instant Messenger Server!") st) as [-> | ->];
    [|split; [by left | by left]].
  destruct received as [[|c name]|]; [split; by left | | split; by left].
  set (st2 := set_clients _ _).
  assert (registered s st2 → registered s st ∨ s = client_socket) as H2
    by apply dict_set_registered_inv.
  destruct (broadcast_message_retires (c :: name ++ lit " has joined")
              (Some client_socket) st2) as [Hc Hx].
  split.
  - intros [info Hs]. apply H2. exists info. by apply Hc.
  - intros Hcl. apply Hx in Hcl as [Hcl | [Hr _]]; [by left|].
    destruct (H2 Hr); [right; by left | right; by right].
Qed.

Lemma accept_client_open (client_socket : socket) (addr : text * Z)
    (received : option text) (st : server) :
  client_socket ∉ closed st → open_registry st →
  open_registry (accept_client client_socket addr received st).
Proof.
  intros Hfresh Hopen. unfold Server.accept_client.
  destruct (send_message_cases link_down client_socket
              (lit "Welcome to the Instant Messenger Server!") st) as [-> | ->];
    [|done].
  destruct received as [[|c name]|]; [done | | done].
  eapply retires_open; [apply broadcast_message_retires|].
  intros s Hs. apply dict_set_registered_inv in Hs as [Hs | ->]; [by apply Hopen | done].
Qed.

Lemma reachable_open (p : Z) (st : server) :
  reachable p st → open_registry st.
Proof.
  induction 1 as [|st client_socket addr received _ IH _ Hfresh
                  |st sock received _ IH].
  - by intros s [? ?].
  - by apply accept_client_open.
  - eapply retires_open; [apply handle_client_message_retires | done].
Qed.

(** In every state the server can reach, no socket of the registry has been
    closed, and every group lists registered sockets, once each. *)
Theorem registry_invariants (p : Z) (st : server) :
  reachable p st →
  (∀ s, registered s st → s ∉ closed st) ∧
  (∀ g m, (g, m) ∈ groups st → NoDup m ∧ ∀ s, s ∈ m → registered s st).
Proof.
  intros Hreach. split; [by eapply reachable_open|].
  destruct (reachable_wf link_down str_upper listdir shared exc_str p st Hreach)
    as [[Hnd Hreg] _].
  intros g m Hin. split; [by eapply Hnd|]. intros s Hs. apply Hreg. by exists g, m.
Qed.

(** *** The main loop *)

Lemma serve_exceptional_reachable (p : Z) (exceptional : list (option socket))
    (st : server) :
  reachable p st →
  reachable p (serve_exceptional link_down exceptional st).
Proof.
  revert st. induction exceptional as [|[sock|] rest IH]; intros st Hst; simpl;
    [done | | done].
  apply IH. exact (reach_message _ _ _ _ _ _ st sock None Hst).
Qed.

Lemma serve_readable_reachable (p : Z) (readable : list ready) (st : server) :
  reachable p st → fresh_sockets readable st →
  reachable p (foldl (λ st r, serve_readable r st) st readable).
Proof.
  revert st. induction readable as [|r rest IH]; intros st Hst [Hnd Hfresh];
    [done|].
  simpl. destruct r as [[[[c addr] received]|]|sock received].
  - simpl in Hnd, Hfresh. apply NoDup_cons in Hnd as [Hc Hnd].
    destruct (Hfresh c) as [Hcr Hcc]; [by left|].
    apply IH; [by apply reach_accept|]. split; [done|].
    intros s Hs. destruct (Hfresh s) as [Hsr Hsc]; [by right|].
    destruct (accept_client_known c addr received st s) as [Hr Hx].
    split.
    + intros H. destruct (Hr H) as [? | ->]; done.
    + intros H. destruct (Hx H) as [? | [? | ->]]; done.
  - apply IH; [done|]. by split.
  - apply IH; [by apply reach_message|]. split; [done|].
    intros s Hs. destruct (Hfresh s Hs) as [Hsr Hsc].
    destruct (handle_client_message_retires sock received st) as [Hc Hx].
    split.
    + intros [info Hi]. apply Hsr. exists info. by apply Hc.
    + intros H. apply Hx in H as [? | [? _]]; done.
Qed.

Lemma select_round_reachable (p : Z) (readable : list ready)
    (exceptional : list (option socket)) (st : server) :
  reachable p st → fresh_sockets readable st →
  reachable p (select_round readable exceptional st).
Proof.
  intros Hst Hfresh. apply serve_exceptional_reachable.
  by apply serve_readable_reachable.
Qed.

(** The main loop.  When [accept] returns a socket the server has not seen
    before each time it is called, every state of [start], after any number
    of rounds of [select], is a state reached by accepting connections and
    handling messages; so the listening port is the one given, every group
    lists registered sockets, once each, and no socket of the registry is
    closed. *)
Theorem start_keeps_the_invariants (p : Z)
    (rounds : list (list ready * list (option socket))) :
  (∀ k round, rounds !! k = Some round →
              fresh_sockets round.1 (start p (take k rounds))) →
  reachable p (start p rounds) ∧
  port (start p rounds) = p ∧
  wf (start p rounds) ∧
  open_registry (start p rounds).
Proof.
  intros Hfresh.
  assert (reachable p (start p rounds)) as Hreach.
  { induction rounds as [|round rounds IH] using rev_ind; [apply reach_start|].
    unfold Server.start. rewrite foldl_app. simpl.
    apply select_round_reachable.
    - apply IH. intros k r Hk.
      pose proof (lookup_lt_Some _ _ _ Hk) as Hlt.
      specialize (Hfresh k r). rewrite lookup_app_l in Hfresh by done.
      rewrite take_app_le in Hfresh by lia. by apply Hfresh.
    - specialize (Hfresh (length rounds) round).
      rewrite lookup_app_r, Nat.sub_diag in Hfresh by done.
      rewrite take_app_length in Hfresh. by apply Hfresh. }
  destruct (reachable_wf link_down str_upper listdir shared exc_str p _ Hreach)
    as [Hwf Hp].
  split_and!; [done..|]. by eapply reachable_open.
Qed.

(** *** Removal *)

Lemma remove_client_unregistered (sock : socket) (st : server) :
  ¬ registered sock st → remove_client sock st = st.
Proof.
  intros Hn. unfold Server.remove_client.
  destruct (length (clients st)); cbn [Server.remove_client_fuel];
    destruct (dict_get sock (clients st)) eqn:Hs; try done;
    exfalso; apply Hn; by eexists.
Qed.

(** [remove_client] on a socket that is not registered does nothing at all,
    so removing a client twice is removing it once. *)
Theorem remove_client_is_idempotent (sock : socket) (st : server) :
  (¬ registered sock st → remove_client sock st = st) ∧
  remove_client sock (remove_client sock st) = remove_client sock st.
Proof.
  split; [apply remove_client_unregistered|].
  apply remove_client_unregistered.
  by destruct (remove_client_removes link_down sock st) as (d & _ & Hns & _).
Qed.

Lemma remove_client_registered (sock : socket) (info : client_info) (st : server) :
  dict_get sock (clients st) = Some info →
  broadcast_loop (remove_client_fuel (pred (length (clients st))))
                 (username info ++ lit " has left") None
                 (keys (clients (unregister sock st))) (unregister sock st)
  = Some (remove_client sock st).
Proof.
  intros Hs. unfold Server.remove_client.
  destruct (remove_client_fuel_total link_down (length (clients st)) sock st)
    as [st' Hst']; [done|].
  rewrite Hst'. simpl.
  destruct (length (clients st)) as [|n] eqn:Hlen.
  - destruct (clients st); [done | discriminate].
  - cbn [Server.remove_client_fuel] in Hst'. rewrite Hs in Hst'. exact Hst'.
Qed.

Lemma leave_notice_is_leave (u : text) : is_leave (u ++ lit " has left").
Proof. by exists u. Qed.

(** [remove_client] on a registered socket, from a state whose groups list
    registered sockets once each: the socket is out of the registry and of
    every group and is closed; every client that is registered afterwards has
    been sent [<username> has left]; and nothing but leave notices has been
    sent. *)
Theorem remove_client_notifies_the_rest (sock : socket) (info : client_info)
    (st : server) :
  wf st →
  dict_get sock (clients st) = Some info →
  ∃ delta,
    trace (remove_client sock st) = trace st ++ delta ∧
    ¬ registered sock (remove_client sock st) ∧
    ¬ in_group sock (remove_client sock st) ∧
    sock ∈ closed (remove_client sock st) ∧
    (∀ s, registered s (remove_client sock st) →
          Sent s (username info ++ lit " has left") ∈ delta) ∧
    (∀ s m, Sent s m ∈ delta → is_leave m).
Proof.
  intros Hwf Hs.
  pose proof (remove_client_registered sock info st Hs) as Hloop.
  destruct (broadcast_loop_evolves link_down _ _ None
              (remove_client_fuel_removes link_down _) _ _ _ Hloop)
    as (delta & Hev & Hdel).
  destruct (unregister_removes sock st) as (Hun & Hns & Hng).
  exists delta. split_and!.
  - by rewrite (ev_trace Hev).
  - intros Hr. apply Hns. exact (evolves_registered _ _ _ _ _ _ Hev Hr).
  - intros Hg. apply (Hng Hwf). exact (ev_groups Hev _ Hg).
  - apply (remove_client_retires sock st). right. split; [by eexists|].
    intros Hr. apply Hns. exact (evolves_registered _ _ _ _ _ _ Hev Hr).
  - intros s Hr.
    destruct (Hdel s) as [Hsent | Hfail]; [| done | done |].
    + apply elem_of_keys_registered. exact (evolves_registered _ _ _ _ _ _ Hev Hr).
    + exfalso. by destruct (ev_failed Hev (ev_wf Hun Hwf) s Hfail).
  - intros s m Hin. destruct (ev_sent Hev s m Hin) as [-> | Hl]; [|done].
    apply leave_notice_is_leave.
Qed.

(** *** Arrival *)

Lemma dict_get_set_eq {K V : Type} `{EqDecision K} (k : K) (v : V)
    (d : list (K * V)) :
  dict_get k (dict_set k v d) = Some v.
Proof.
  induction d as [|[k0 v0] d IH]; simpl.
  - by rewrite bool_decide_eq_true_2.
  - case_bool_decide as Hk; simpl.
    + by rewrite bool_decide_eq_true_2.
    + by rewrite bool_decide_eq_false_2.
Qed.

(** What a broadcast sends: the message, to sockets other than the excluded
    one, and leave notices. *)
Lemma broadcast_loop_excludes (remove : socket → server → option server)
    (message : text) (exclude_socket : option socket) :
  (∀ s st1 st2, remove s st1 = Some st2 → ∃ d, removes s d st1 st2) →
  ∀ snapshot st st',
    broadcast_loop remove message exclude_socket snapshot st = Some st' →
    ∃ delta,
      trace st' = trace st ++ delta ∧
      ∀ s m, Sent s m ∈ delta →
             (m = message ∧ Some s ≠ exclude_socket) ∨ is_leave m.
Proof.
  intros Hremove. induction snapshot as [|sock rest IH]; intros st st' Hloop.
  - injection Hloop as <-. exists []. split; [by rewrite app_nil_r|].
    by intros s m ?%elem_of_nil.
  - cbn [Server.broadcast_loop] in Hloop. case_bool_decide as Hex; [|by apply IH].
    destruct (send_message_cases link_down sock message st) as [Hs | Hs];
      rewrite Hs in Hloop.
    + destruct (IH _ _ Hloop) as (d & Ht & Hd).
      exists (Sent sock message :: d). split.
      * rewrite Ht. simpl. by rewrite <- app_assoc.
      * intros s m [[= -> ->] | Hin]%elem_of_cons; [by left | by apply Hd].
    + destruct (remove sock (log (SendFailed sock) st)) as [st2|] eqn:Hrm;
        [|discriminate].
      cbn [mbind option_bind] in Hloop.
      destruct (Hremove _ _ _ Hrm) as (d1 & Hev1 & _).
      destruct (IH _ _ Hloop) as (d & Ht & Hd).
      exists (SendFailed sock :: d1 ++ d). split.
      * rewrite Ht, (ev_trace Hev1). simpl. by rewrite <- !app_assoc.
      * intros s m [? | [Hin | Hin]%elem_of_app]%elem_of_cons; [done | | by apply Hd].
        destruct (ev_sent Hev1 s m Hin) as [[] | Hl]. by right.
Qed.

Lemma broadcast_message_excludes (message : text) (exclude_socket : option socket)
    (st : server) :
  ∃ delta,
    trace (broadcast_message message exclude_socket st) = trace st ++ delta ∧
    ∀ s m, Sent s m ∈ delta →
           (m = message ∧ Some s ≠ exclude_socket) ∨ is_leave m.
Proof.
  unfold Server.broadcast_message.
  destruct (broadcast_loop_total link_down (length (clients st)) message
              exclude_socket (remove_client_fuel_total link_down _)
              (keys (clients st)) st) as [st' Hst']; [done|].
  rewrite Hst'. simpl.
  eapply broadcast_loop_excludes; [|done].
  apply remove_client_fuel_removes.
Qed.

Lemma join_notice_not_leave (name : text) : ¬ is_leave (name ++ lit " has joined").
Proof.
  intros [u Hu]. apply (f_equal last) in Hu. rewrite !last_app in Hu.
  vm_compute in Hu. discriminate.
Qed.

(** A connection that gives a user name, and to which no send fails: it is
    registered under that name and address, the welcome is the first thing
    sent, every other client registered afterwards has been sent
    [<username> has joined], and the newcomer itself has not. *)
Theorem accept_client_registers (client_socket : socket) (addr : text * Z)
    (name : text) (st : server) (delta : list event) :
  wf st →
  name ≠ [] →
  trace (accept_client client_socket addr (Some name) st) = trace st ++ delta →
  SendFailed client_socket ∉ delta →
  dict_get client_socket (clients (accept_client client_socket addr (Some name) st))
    = Some (ClientInfo name addr) ∧
  head delta
    = Some (Sent client_socket (lit "Welcome to the Instant Messenger Server!")) ∧
  (∀ s, registered s (accept_client client_socket addr (Some name) st) →
        s ≠ client_socket → Sent s (name ++ lit " has joined") ∈ delta) ∧
  Sent client_socket (name ++ lit " has joined") ∉ delta.
Proof.
  intros Hwf Hname. unfold Server.accept_client.
  destruct (send_message_cases link_down client_socket
              (lit "Welcome to the Instant Messenger Server!") st) as [-> | ->].
  2:{ simpl. intros Ht%app_inv_head Hnf. subst delta. exfalso. apply Hnf. by left. }
  destruct name as [|c name]; [done|].
  set (welcome := lit "Welcome to the Instant Messenger Server!").
  set (st1 := log (Sent client_socket welcome) st).
  set (st2 := set_clients
                (dict_set client_socket (ClientInfo (c :: name) addr) (clients st1))
                st1).
  set (st' := broadcast_message _ _ st2).
  assert (wf st2) as Hwf2.
  { destruct Hwf as [Hnd Hreg]. split; [done|].
    intros s Hs. apply Hreg in Hs. by apply dict_set_registered. }
  destruct (broadcast_message_evolves link_down ((c :: name) ++ lit " has joined")
              (Some client_socket) st2) as (d & Hev & Hdel). fold st' in Hev.
  destruct (broadcast_message_excludes ((c :: name) ++ lit " has joined")
              (Some client_socket) st2) as (d' & Ht' & Hex). fold st' in Ht'.
  rewrite (ev_trace Hev) in Ht'. apply app_inv_head in Ht' as <-.
  intros Ht Hnf. rewrite (ev_trace Hev) in Ht. simpl in Ht.
  rewrite <- app_assoc in Ht. apply app_inv_head in Ht. subst delta.
  assert (dict_get client_socket (clients st2) = Some (ClientInfo (c :: name) addr))
    as Hset by apply dict_get_set_eq.
  split_and!.
  - destruct (dict_get client_socket (clients st')) as [info|] eqn:Hc.
    + by rewrite <- (ev_clients Hev _ _ Hc).
    + exfalso. destruct (ev_removed Hev client_socket) as [Hf | []].
      * by eexists.
      * unfold registered. rewrite Hc. by intros [? ?].
      * apply Hnf. by right.
  - done.
  - intros s Hr Hne. right.
    destruct (Hdel s) as [Hsent | Hfail]; [| congruence | done |].
    + exact (evolves_registered _ _ _ _ _ _ Hev Hr).
    + exfalso. by destruct (ev_failed Hev Hwf2 s Hfail).
  - intros [Heq | Hin]%elem_of_cons.
    + apply (f_equal (λ ev, match ev with Sent _ m => last m | _ => None end)) in Heq.
      rewrite last_app in Heq. vm_compute in Heq. discriminate.
    + destruct (Hex _ _ Hin) as [[_ Hne] | Hl]; [done|].
      by apply join_notice_not_leave in Hl.
Qed.

(** A connection that gives no user name (none received, or an empty one),
    or to which the welcome cannot be sent: registry and groups stay as they
    are, the new socket is not closed, and the welcome, sent or failed, is
    all there is in the trace. *)
Theorem accept_client_without_name (client_socket : socket) (addr : text * Z)
    (received : option text) (st : server) :
  received = None ∨ received = Some []
  ∨ ¬ sendable client_socket (lit "Welcome to the Instant Messenger Server!") st →
  clients (accept_client client_socket addr received st) = clients st ∧
  groups (accept_client client_socket addr received st) = groups st ∧
  closed (accept_client client_socket addr received st) = closed st ∧
  (trace (accept_client client_socket addr received st)
     = trace st ++ [Sent client_socket
                      (lit "Welcome to the Instant Messenger Server!")]
   ∨ trace (accept_client client_socket addr received st)
     = trace st ++ [SendFailed client_socket]).
Proof.
  intros Hcase. unfold Server.accept_client, Server.sendable in *.
  destruct (send_message_cases link_down client_socket
              (lit "Welcome to the Instant Messenger Server!") st) as [Hs | Hs];
    rewrite Hs in *.
  - destruct Hcase as [-> | [-> | Hn]]; [| |done]; split_and!; try done; by left.
  - split_and!; try done. by right.
Qed.

(** *** Joining and leaving a group *)

Lemma dict_del_absent {V : Type} (g : text) (gs : list (text * V)) :
  dict_get g gs = None → dict_del g gs = gs.
Proof.
  unfold dict_del. induction gs as [|[g0 v0] gs IH]; simpl; [done|].
  case_bool_decide as Hg; [discriminate|]. intros Hgs.
  rewrite filter_cons_True by done. by rewrite IH.
Qed.

Lemma dict_del_set {V : Type} (g : text) (v : V) (gs : list (text * V)) :
  dict_del g (dict_set g v gs) = dict_del g gs.
Proof.
  unfold dict_del. induction gs as [|[g0 v0] gs IH]; simpl.
  - by rewrite filter_cons_False by (simpl; by intros []).
  - case_bool_decide as Hg.
    + subst g0. rewrite !filter_cons_False by (simpl; by intros []). done.
    + rewrite !filter_cons_True by done. by rewrite IH.
Qed.

Lemma dict_set_set {V : Type} (g : text) (v1 v2 : V) (gs : list (text * V)) :
  dict_set g v2 (dict_set g v1 gs) = dict_set g v2 gs.
Proof.
  induction gs as [|[g0 v0] gs IH]; simpl.
  - by rewrite bool_decide_eq_true_2.
  - case_bool_decide as Hg; simpl.
    + by rewrite bool_decide_eq_true_2.
    + rewrite bool_decide_eq_false_2 by done. by rewrite IH.
Qed.

Lemma dict_set_same {V : Type} (g : text) (v : V) (gs : list (text * V)) :
  dict_get g gs = Some v → dict_set g v gs = gs.
Proof.
  induction gs as [|[g0 v0] gs IH]; simpl; [done|].
  case_bool_decide as Hg; [by intros [= ->]|]. intros Hgs. by rewrite IH.
Qed.

Lemma list_remove_snoc (s : socket) (m : list socket) :
  s ∉ m → list_remove s (m ++ [s]) = m.
Proof.
  induction m as [|y m IH]; simpl; intros Hs.
  - by rewrite bool_decide_eq_true_2.
  - apply not_elem_of_cons in Hs as [Hne Hs].
    rewrite bool_decide_eq_false_2 by done. by rewrite IH.
Qed.

(** The directory after a [join_group] that returns. *)
Lemma join_group_groups (sock : socket) (group_name : text) (st st' : server) :
  join_group sock group_name st = Ok st' →
  groups st'
  = match dict_get group_name (groups st) with
    | None => groups st ++ [(group_name, [sock])]
    | Some members =>
        if bool_decide (sock ∈ members) then groups st
        else dict_set group_name (members ++ [sock]) (groups st)
    end.
Proof.
  intros Hjoin.
  destruct (dict_get group_name (groups st)) as [members|] eqn:Hg.
  - unfold Server.join_group in Hjoin. rewrite Hg in Hjoin. cbn [default] in Hjoin.
    rewrite Hg in Hjoin. cbn [default] in Hjoin.
    destruct (decide (sock ∈ members)) as [Hin | Hin].
    + rewrite bool_decide_eq_true_2 by done.
      rewrite bool_decide_eq_false_2 in Hjoin by (by intros H; apply H).
      pose proof (send_message_groups link_down sock
                    (lit "Already in group '" ++ group_name ++ lit "'") st) as H.
      by rewrite Hjoin in H.
    + rewrite bool_decide_eq_false_2 by done.
      rewrite bool_decide_eq_true_2 in Hjoin by done.
      destruct (username_of sock _); [|discriminate].
      match type of Hjoin with
      | Server.send_message _ ?s ?m ?st0 = _ =>
          pose proof (send_message_groups link_down s m st0) as H
      end.
      by rewrite Hjoin in H.
  - pose proof (join_group_creates link_down sock group_name st Hg) as H.
    by rewrite Hjoin in H.
Qed.

(** The directory after a [leave_group] by a member that returns. *)
Lemma leave_group_groups (sock : socket) (group_name : text)
    (members : list socket) (st st' : server) :
  dict_get group_name (groups st) = Some members → sock ∈ members →
  leave_group sock group_name st = Ok st' →
  groups st'
  = match list_remove sock members with
    | [] => dict_del group_name (groups st)
    | members' => dict_set group_name members' (groups st)
    end.
Proof.
  intros Hg Hin. unfold Server.leave_group. rewrite Hg.
  rewrite bool_decide_eq_true_2 by done.
  destruct (username_of sock _); [|discriminate].
  set (gs1 := dict_set group_name (list_remove sock members) (groups st)).
  destruct (send_message_cases link_down sock
              (lit "Left group '" ++ group_name ++ lit "'") (set_groups gs1 st))
    as [-> | ->]; [|discriminate].
  cbn [and_then groups log set_groups].
  assert (dict_get group_name gs1 = Some (list_remove sock members)) as ->
    by apply dict_get_dict_set.
  unfold gs1.
  destruct (list_remove sock members) as [|x r]; intros [= <-]; simpl; [|done].
  apply dict_del_set.
Qed.

(** Joining a group and leaving it again, both confirmed, by a client that
    was not a member, puts the group directory back as it was: the group is
    deleted again if the join created it, and has its former members in their
    former order otherwise. *)
Theorem join_then_leave_restores_groups (sock : socket) (group_name : text)
    (st st1 st2 : server) :
  no_empty_group st →
  sock ∉ default [] (dict_get group_name (groups st)) →
  join_group sock group_name st = Ok st1 →
  leave_group sock group_name st1 = Ok st2 →
  groups st2 = groups st.
Proof.
  intros Hne Hnotin Hjoin Hleave.
  pose proof (join_group_groups sock group_name st st1 Hjoin) as H1.
  destruct (dict_get group_name (groups st)) as [members|] eqn:Hg.
  - cbn [default] in Hnotin. rewrite bool_decide_eq_false_2 in H1 by done.
    rewrite (leave_group_groups sock group_name (members ++ [sock]) st1 st2);
      [| rewrite H1; apply dict_get_dict_set
       | apply elem_of_app; right; by left | done].
    rewrite list_remove_snoc by done. rewrite H1.
    destruct members as [|x r] eqn:Hm.
    { exfalso. apply dict_get_elem_of in Hg. by apply (Hne _ _ Hg). }
    rewrite dict_set_set. by apply dict_set_same.
  - rewrite (leave_group_groups sock group_name [sock] st1 st2);
      [| rewrite H1; by apply dict_get_fresh | by left | done].
    simpl. rewrite bool_decide_eq_true_2 by done. rewrite H1.
    unfold dict_del. rewrite filter_app. 
    rewrite filter_cons_False by (simpl; by intros []). rewrite filter_nil, app_nil_r.
    by apply dict_del_absent.
Qed.

(** After a [join_group] that has returned, the client is a member of the
    group, and a second [join_group] only sends [Already in group '<name>']:
    no member is listed twice. *)
Theorem join_twice_changes_nothing (sock : socket) (group_name : text)
    (st st1 : server) :
  join_group sock group_name st = Ok st1 →
  (∃ members, dict_get group_name (groups st1) = Some members ∧ sock ∈ members) ∧
  join_group sock group_name st1
  = send_message sock (lit "Already in group '" ++ group_name ++ lit "'") st1.
Proof.
  intros Hjoin.
  pose proof (join_group_groups sock group_name st st1 Hjoin) as H1.
  assert (∃ members, dict_get group_name (groups st1) = Some members ∧ sock ∈ members)
    as (members & Hg1 & Hin).
  { rewrite H1. destruct (dict_get group_name (groups st)) as [members|] eqn:Hg.
    - case_bool_decide as Hin.
      + by exists members.
      + exists (members ++ [sock]). split; [apply dict_get_dict_set|].
        apply elem_of_app. right. by left.
    - exists [sock]. split; [by apply dict_get_fresh | by left]. }
  split; [by exists members|].
  unfold Server.join_group. rewrite Hg1. cbn [default]. rewrite Hg1. cbn [default].
  by rewrite bool_decide_eq_false_2 by (by intros H; apply H).
Qed.

(** *** Delivery when no send fails *)

Lemma app_eq_self {A : Type} (l d : list A) : l = l ++ d → d = [].
Proof.
  intros H. apply (f_equal length) in H. rewrite length_app in H.
  destruct d; [done | simpl in H; lia].
Qed.

Lemma broadcast_loop_all_up (remove : socket → server → option server)
    (message : text) (exclude_socket : option socket) :
  (∀ s st1 st2, remove s st1 = Some st2 → ∃ d, removes s d st1 st2) →
  ∀ snapshot st st' delta,
    broadcast_loop remove message exclude_socket snapshot st = Some st' →
    trace st' = trace st ++ delta → no_failure delta →
    delta = (λ s, Sent s message) <$> filter (λ s, Some s ≠ exclude_socket) snapshot ∧
    clients st' = clients st ∧ groups st' = groups st.
Proof.
  intros Hremove. induction snapshot as [|sock rest IH]; intros st st' delta Hloop Ht Hnf.
  - injection Hloop as <-. by rewrite (app_eq_self _ _ Ht).
  - cbn [Server.broadcast_loop] in Hloop. case_bool_decide as Hex.
    + rewrite filter_cons_True by done.
      destruct (send_message_cases link_down sock message st) as [Hs | Hs];
        rewrite Hs in Hloop.
      * destruct (broadcast_loop_evolves link_down _ _ _ Hremove _ _ _ Hloop)
          as (d & Hev & _).
        pose proof (ev_trace Hev) as Ht1. simpl in Ht1.
        rewrite Ht, <- app_assoc in Ht1. apply app_inv_head in Ht1. subst delta.
        destruct (IH _ _ d Hloop (ev_trace Hev)) as (-> & Hc & Hg).
        { intros s Hin. apply (Hnf s). by right. }
        done.
      * exfalso.
        destruct (remove sock (log (SendFailed sock) st)) as [st2|] eqn:Hrm;
          [|discriminate].
        cbn [mbind option_bind] in Hloop.
        destruct (Hremove _ _ _ Hrm) as (d1 & Hev1 & _).
        destruct (broadcast_loop_evolves link_down _ _ _ Hremove _ _ _ Hloop)
          as (d & Hev & _).
        pose proof (ev_trace Hev) as Ht1. rewrite (ev_trace Hev1) in Ht1.
        simpl in Ht1. rewrite Ht, <- !app_assoc in Ht1.
        apply app_inv_head in Ht1. subst delta. apply (Hnf sock). by left.
    + rewrite filter_cons_False by (intros H; by apply H). by eapply IH.
Qed.

(** A broadcast in which no send fails sends the message exactly once to
    each registered client but the excluded one, in the order of
    registration, sends nothing else, and leaves registry and groups as they
    are. *)
Theorem broadcast_reaches_each_client_once (message : text)
    (exclude_socket : option socket) (st : server) (delta : list event) :
  trace (broadcast_message message exclude_socket st) = trace st ++ delta →
  no_failure delta →
  delta = (λ s, Sent s message)
            <$> filter (λ s, Some s ≠ exclude_socket) (keys (clients st)) ∧
  clients (broadcast_message message exclude_socket st) = clients st ∧
  groups (broadcast_message message exclude_socket st) = groups st.
Proof.
  unfold Server.broadcast_message.
  destruct (broadcast_loop_total link_down (length (clients st)) message
              exclude_socket (remove_client_fuel_total link_down _)
              (keys (clients st)) st) as [st' Hst']; [done|].
  rewrite Hst'. simpl. intros Ht Hnf.
  eapply broadcast_loop_all_up; [|done..].
  apply remove_client_fuel_removes.
Qed.

Lemma send_or_remove_trace (s : socket) (m : text) (st : server) :
  ∃ d, trace (match send_message s m st with
              | Ok st1 => st1
              | Raise st1 => remove_client s st1
              end) = trace st ++ d.
Proof.
  destruct (send_message_cases link_down s m st) as [-> | ->]; [by eexists|].
  destruct (remove_client_removes link_down s (log (SendFailed s) st))
    as (d & Hev & _).
  exists (SendFailed s :: d). rewrite (ev_trace Hev). simpl. by rewrite <- app_assoc.
Qed.

Lemma group_loop_trace (rounds i : nat) (message group_name : text)
    (exclude_socket : option socket) (st : server) :
  ∃ d, trace (group_loop link_down rounds i message group_name exclude_socket st)
       = trace st ++ d.
Proof.
  revert i st. induction rounds as [|rounds IH]; intros i st; cbn [Server.group_loop].
  - exists []. by rewrite app_nil_r.
  - destruct (_ !! i) as [sock|]; [|exists []; by rewrite app_nil_r].
    case_bool_decide.
    + destruct (send_or_remove_trace sock message st) as [d1 H1].
      destruct (IH (S i) (match send_message sock message st with
                          | Ok st1 => st1
                          | Raise st1 => remove_client sock st1
                          end)) as [d2 H2].
      exists (d1 ++ d2). by rewrite H2, H1, app_assoc.
    + apply IH.
Qed.

Lemma group_loop_all_up (message group_name : text)
    (exclude_socket : option socket) (members : list socket) :
  ∀ rounds i st delta,
    dict_get group_name (groups st) = Some members →
    (length members ≤ i + rounds)%nat →
    trace (group_loop link_down rounds i message group_name exclude_socket st)
      = trace st ++ delta →
    no_failure delta →
    delta = (λ s, Sent s message)
              <$> filter (λ s, Some s ≠ exclude_socket) (drop i members) ∧
    clients (group_loop link_down rounds i message group_name exclude_socket st)
      = clients st ∧
    groups (group_loop link_down rounds i message group_name exclude_socket st)
      = groups st.
Proof.
  induction rounds as [|rounds IH]; intros i st delta Hg Hlen Ht Hnf;
    cbn [Server.group_loop] in Ht |- *.
  - rewrite (app_eq_self _ _ Ht). by rewrite drop_ge by lia.
  - rewrite Hg in Ht |- *.
    change (default [] (Some members)) with members in Ht |- *.
    destruct (members !! i) as [sock|] eqn:Hi.
    2:{ rewrite (app_eq_self _ _ Ht).
        apply lookup_ge_None in Hi. by rewrite drop_ge by lia. }
    rewrite (drop_S _ _ _ Hi).
    case_bool_decide as Hex.
    + rewrite filter_cons_True by done.
      destruct (send_message_cases link_down sock message st) as [Hs | Hs];
        rewrite Hs in Ht |- *.
      * destruct (group_loop_trace rounds (S i) message group_name exclude_socket
                    (log (Sent sock message) st)) as [d Hd].
        pose proof Hd as Hd'. simpl in Hd'. rewrite Ht, <- app_assoc in Hd'.
        apply app_inv_head in Hd'. subst delta.
        destruct (IH (S i) (log (Sent sock message) st) d) as (-> & Hc & Hgr);
          [done | lia | done | |done].
        intros s Hin. apply (Hnf s). by right.
      * exfalso.
        destruct (remove_client_removes link_down sock (log (SendFailed sock) st))
          as (d1 & Hev1 & _).
        destruct (group_loop_trace rounds (S i) message group_name exclude_socket
                    (remove_client sock (log (SendFailed sock) st))) as [d Hd].
        rewrite (ev_trace Hev1) in Hd. simpl in Hd.
        rewrite Ht, <- !app_assoc in Hd. apply app_inv_head in Hd. subst delta.
        apply (Hnf sock). by left.
    + rewrite filter_cons_False by (intros H; by apply H).
      apply IH; [done | lia | done | done].
Qed.

(** A group message in which no send fails is sent exactly once to each
    member of the group but the excluded one, in the order of joining, and to
    nobody else; registry and groups stay as they are. *)
Theorem group_message_reaches_each_member_once (message group_name : text)
    (exclude_socket : option socket) (members : list socket) (st : server)
    (delta : list event) :
  dict_get group_name (groups st) = Some members →
  trace (state_of (send_group_message message group_name exclude_socket st))
    = trace st ++ delta →
  no_failure delta →
  delta = (λ s, Sent s message)
            <$> filter (λ s, Some s ≠ exclude_socket) members ∧
  clients (state_of (send_group_message message group_name exclude_socket st))
    = clients st ∧
  groups (state_of (send_group_message message group_name exclude_socket st))
    = groups st.
Proof.
  intros Hg. unfold Server.send_group_message. rewrite Hg. cbn [state_of].
  intros Ht Hnf.
  destruct (group_loop_all_up message group_name exclude_socket members
              (length members) 0 st delta Hg) as (Hd & Hc & Hgr); [lia | done | done |].
  by rewrite drop_0 in Hd.
Qed.

End Registry.

(** ** Downloads: what the server sends *)

Section Downloads.
Import Wire Server.

Variable link_down : list event → socket → bool.
Variable str_upper : text → text.
Variable shared : text → option fs_entry.
Variable exc_str : text.

Local Abbreviation send_message := (Server.send_message link_down).
Local Abbreviation send_file_tcp := (Server.send_file_tcp link_down exc_str).
Local Abbreviation send_file_udp := (Server.send_file_udp link_down exc_str).

(** *** What the server puts on the stream *)

Lemma send_message_Ok (s : socket) (m : text) (st st' : server) :
  send_message s m st = Ok st' →
  st' = log (Sent s m) st ∧ is_Some (Channel.send_message m []).
Proof.
  unfold Server.send_message. destruct (Channel.send_message m []); [|discriminate].
  destruct (_ || _); [discriminate|]. intros [= <-]. split; [done | by eexists].
Qed.

Lemma send_message_Raise (s : socket) (m : text) (st st' : server) :
  send_message s m st = Raise st' → st' = log (SendFailed s) st.
Proof.
  destruct (send_message_cases link_down s m st) as [-> | ->]; [discriminate|].
  by intros [= <-].
Qed.

Lemma sendall_cases (s : socket) (data : bytes) (st : server) :
  Server.sendall link_down s data st = Ok (log (SentBlock s data) st) ∨
  Server.sendall link_down s data st = Raise (log (SendFailed s) st).
Proof. unfold Server.sendall. destruct (_ || _); [by right | by left]. Qed.

(** The error reply of a handler after a failed send. *)
Lemma failed_then_reply (s : socket) (m : text) (st : server) (d delta : list event) :
  trace st = d ++ delta → SendFailed s ∈ delta →
  ∃ delta', trace (state_of (send_message s m st)) = d ++ delta' ∧
            SendFailed s ∈ delta'.
Proof.
  intros Ht Hin. destruct (send_message_cases link_down s m st) as [-> | ->]; simpl;
    rewrite Ht, <- app_assoc; eexists; (split; [done|]);
    apply elem_of_app; by left.
Qed.

(** The block loop sends every block of the file, or a send fails. *)
Lemma send_blocks_cases (rounds : nat) (sock : socket) (f : bytes) (st : server) :
  (length f ≤ rounds)%nat →
  (∃ blocks st',
     concat blocks = f ∧
     Forall (λ b, (0 < length b ≤ 4096)%nat) blocks ∧
     send_blocks link_down rounds sock f st = Ok st' ∧
     trace st' = trace st ++ concat (block_events sock <$> blocks))
  ∨ (∃ st' d, send_blocks link_down rounds sock f st = Raise st' ∧
              trace st' = trace st ++ d ∧ SendFailed sock ∈ d).
Proof.
  revert f st. induction rounds as [|rounds IH]; intros f st Hlen.
  - destruct f; [|simpl in Hlen; lia]. left. exists [], st.
    split_and!; [done | done | done | by rewrite app_nil_r].
  - cbn [send_blocks].
    destruct (take 4096 f) as [|b0 chunk] eqn:Htake.
    { left. exists [], st. destruct f; [|discriminate].
      split_and!; [done | done | done | by rewrite app_nil_r]. }
    assert (0 < length (b0 :: chunk) ≤ 4096)%nat as Hchunk.
    { rewrite <- Htake, length_take. split; [|lia].
      rewrite <- length_take, Htake. simpl. lia. }
    destruct (pack_I_is_Some (Z.of_nat (length (b0 :: chunk)))) as [header Hpack].
    { change (2 ^ 32) with 4294967296. lia. }
    rewrite Hpack.
    destruct (sendall_cases sock header st) as [-> | ->]; cbn [and_then].
    2:{ right. eexists _, [SendFailed sock]. split_and!; [done | done | by left]. }
    destruct (sendall_cases sock (b0 :: chunk) (log (SentBlock sock header) st))
      as [-> | ->]; cbn [and_then].
    2:{ right. eexists _, [SentBlock sock header; SendFailed sock].
        split_and!; [done | simpl; by rewrite <- app_assoc | right; by left]. }
    destruct (IH (drop 4096 f)
                (log (SentBlock sock (b0 :: chunk)) (log (SentBlock sock header) st)))
      as [(blocks & st' & Hcat & Hall & -> & Ht) | (st' & d & -> & Ht & Hin)].
    { rewrite length_drop. destruct f; [done | simpl in *; lia]. }
    + left. exists ((b0 :: chunk) :: blocks), st'. split_and!.
      * simpl. rewrite Hcat. change (b0 :: chunk ++ drop 4096 f)
          with ((b0 :: chunk) ++ drop 4096 f). rewrite <- Htake. apply take_drop.
      * by apply Forall_cons.
      * done.
      * rewrite Ht. cbn [fmap list_fmap concat trace log].
        assert (block_events sock (b0 :: chunk)
                = [SentBlock sock header; SentBlock sock (b0 :: chunk)]) as ->
          by (unfold block_events; by rewrite Hpack).
        by rewrite <- !app_assoc.
    + right. exists st', ([SentBlock sock header; SentBlock sock (b0 :: chunk)] ++ d).
      split_and!; [done | |].
      * rewrite Ht. simpl. by rewrite <- !app_assoc.
      * apply elem_of_app. by right.
Qed.

(** A download over the stream in which no send fails: the announcement,
    the blocks of the file, the completion notice. *)
Lemma send_file_tcp_all_up (sock : socket) (content : bytes) (filename : text)
    (file_size : Z) (st : server) (delta : list event) :
  trace (state_of (send_file_tcp sock content filename file_size st))
    = trace st ++ delta →
  no_failure delta →
  ∃ blocks,
    concat blocks = content ∧
    Forall (λ b, (0 < length b ≤ 4096)%nat) blocks ∧
    is_Some (Channel.send_message
               (lit "DOWNLOAD_START:" ++ filename ++ lit ":" ++ str_of_int file_size) []) ∧
    is_Some (Channel.send_message
               (lit "DOWNLOAD_COMPLETE:" ++ filename ++ lit ":" ++ str_of_int file_size) []) ∧
    delta
    = Sent sock (lit "DOWNLOAD_START:" ++ filename ++ lit ":" ++ str_of_int file_size)
        :: concat (block_events sock <$> blocks)
        ++ [Sent sock (lit "DOWNLOAD_COMPLETE:" ++ filename ++ lit ":"
                         ++ str_of_int file_size)].
Proof.
  intros Ht Hnf.
  assert (∀ st1 d, trace st1 = trace st ++ d → SendFailed sock ∈ d →
            trace (state_of (send_message sock
                               (lit "ERROR: Failed to send file: " ++ exc_str) st1))
            = trace st ++ delta → False) as Hfail.
  { intros st1 d Ht1 Hin Ht'.
    destruct (failed_then_reply sock (lit "ERROR: Failed to send file: " ++ exc_str)
                st1 (trace st) d Ht1 Hin) as (delta' & Hd & Hin').
    rewrite Hd in Ht'. apply app_inv_head in Ht'. subst delta'. by apply (Hnf sock). }
  unfold Server.send_file_tcp in Ht.
  set (start_msg := lit "DOWNLOAD_START:" ++ filename ++ lit ":" ++ str_of_int file_size)
    in *.
  set (done_msg := lit "DOWNLOAD_COMPLETE:" ++ filename ++ lit ":"
                     ++ str_of_int file_size) in *.
  destruct (send_message sock start_msg st) as [st1|st1] eqn:Hstart;
    cbn [and_then try_except] in Ht.
  2:{ exfalso. apply send_message_Raise in Hstart as ->.
      apply (Hfail (log (SendFailed sock) st) [SendFailed sock]);
        [done | by left | done]. }
  apply send_message_Ok in Hstart as [-> Hstart].
  destruct (send_blocks_cases (length content) sock content
              (log (Sent sock start_msg) st))
    as [(blocks & st2 & Hcat & Hall & Hblocks & Ht2) | (st2 & d & Hblocks & Ht2 & Hin)];
    [done | |]; rewrite Hblocks in Ht; cbn [and_then try_except] in Ht.
  2:{ exfalso. apply (Hfail st2 (Sent sock start_msg :: d)); [| by right | done].
      rewrite Ht2. simpl. by rewrite <- app_assoc. }
  destruct (send_message sock done_msg st2) as [st3|st3] eqn:Hdone;
    cbn [and_then try_except] in Ht.
  2:{ exfalso. apply send_message_Raise in Hdone as ->.
      apply (Hfail (log (SendFailed sock) st2)
               (Sent sock start_msg :: concat (block_events sock <$> blocks)
                  ++ [SendFailed sock])); [| | done].
      - simpl. rewrite Ht2. simpl. by rewrite <- !app_assoc.
      - right. apply elem_of_app. right. by left. }
  apply send_message_Ok in Hdone as [-> Hdone].
  exists blocks. split_and!; [done..|].
  simpl in Ht. rewrite Ht2 in Ht. simpl in Ht. rewrite <- !app_assoc in Ht.
  by apply app_inv_head in Ht.
Qed.

(** To a port that [sendto] accepts, every datagram goes out. *)
Lemma sendto_all_in_range (host : text) (udp_port : Z) (datagrams : list bytes)
    (st : server) :
  0 ≤ udp_port ≤ 65535 →
  ∃ st', sendto_all host udp_port datagrams st = Ok st' ∧
         trace st' = trace st ++ (SentTo host udp_port <$> datagrams).
Proof.
  intros Hport. revert st. induction datagrams as [|d ds IH]; intros st.
  - exists st. by rewrite app_nil_r.
  - cbn [sendto_all]. unfold sendto. rewrite bool_decide_eq_true_2 by done.
    cbn [and_then]. destruct (IH (log (SentTo host udp_port d) st))
      as (st' & -> & Ht).
    exists st'. split; [done|]. rewrite Ht. simpl. by rewrite <- app_assoc.
Qed.

(** To any other port, the first [sendto] raises and nothing goes out. *)
Lemma sendto_all_out_of_range (host : text) (udp_port : Z) (d : bytes)
    (ds : list bytes) (st : server) :
  ¬ (0 ≤ udp_port ≤ 65535) → sendto_all host udp_port (d :: ds) st = Raise st.
Proof.
  intros Hport. cbn [sendto_all]. unfold sendto.
  by rewrite bool_decide_eq_false_2 by done.
Qed.

(** The chunk loop on a file that is not empty builds a first datagram, or
    stops at once on [struct.error]. *)
Lemma file_datagrams_nonempty (f : bytes) :
  f ≠ [] →
  Datagram.file_datagrams f = Some ([], false) ∨
  ∃ d ds finished, Datagram.file_datagrams f = Some (d :: ds, finished).
Proof.
  intros Hf. destruct f as [|b f]; [done|].
  pose proof (file_datagrams_is_Some (b :: f)) as [[sent fin] Hsome].
  unfold Datagram.file_datagrams in *. cbn [length Datagram.send_chunks] in *.
  change (take (Z.to_nat Datagram.chunk_size) (b :: f))
    with (b :: take 1023 f) in *.
  cbv beta iota in *.
  destruct (pack_II 0 _) as [header|]; [|by left].
  right. destruct (Datagram.send_chunks _ _ _) as [[sent' ok]|]; [|done].
  by eexists _, _, _.
Qed.

(** A datagram download in which no send fails: the two announcements, one
    datagram for each chunk, the completion notice. *)
Lemma send_file_udp_all_up (sock : socket) (info : client_info) (content : bytes)
    (filename : text) (file_size : Z) (st : server) (delta : list event) :
  dict_get sock (clients st) = Some info →
  Datagram.chunk_count content ≤ 2 ^ 32 →
  0 ≤ port st + 1 ≤ 65535 →
  trace (state_of (send_file_udp sock content filename file_size st))
    = trace st ++ delta →
  no_failure delta →
  ∃ datagrams,
    Datagram.file_datagrams content = Some (datagrams, true) ∧
    is_Some (Channel.send_message
               (lit "DOWNLOAD_START_UDP:" ++ filename ++ lit ":"
                  ++ str_of_int file_size) []) ∧
    is_Some (Channel.send_message (lit "UDP_PORT:" ++ str_of_int (port st + 1)) []) ∧
    is_Some (Channel.send_message
               (lit "DOWNLOAD_COMPLETE_UDP:" ++ filename ++ lit ":"
                  ++ str_of_int file_size) []) ∧
    delta
    = [Sent sock (lit "DOWNLOAD_START_UDP:" ++ filename ++ lit ":"
                    ++ str_of_int file_size);
       Sent sock (lit "UDP_PORT:" ++ str_of_int (port st + 1))]
      ++ (SentTo (address info).1 (port st + 1) <$> datagrams)
      ++ [Sent sock (lit "DOWNLOAD_COMPLETE_UDP:" ++ filename ++ lit ":"
                       ++ str_of_int file_size)].
Proof.
  intros Hsock Hcount Hrange Ht Hnf.
  assert (∀ st1 d, trace st1 = trace st ++ d → SendFailed sock ∈ d →
            trace (state_of (send_message sock
                               (lit "ERROR: Failed to send file via UDP: " ++ exc_str)
                               st1))
            = trace st ++ delta → False) as Hfail.
  { intros st1 d Ht1 Hin Ht'.
    destruct (failed_then_reply sock
                (lit "ERROR: Failed to send file via UDP: " ++ exc_str)
                st1 (trace st) d Ht1 Hin) as (delta' & Hd & Hin').
    rewrite Hd in Ht'. apply app_inv_head in Ht'. subst delta'. by apply (Hnf sock). }
  unfold Server.send_file_udp in Ht. rewrite Hsock in Ht.
  set (start_msg := lit "DOWNLOAD_START_UDP:" ++ filename ++ lit ":"
                      ++ str_of_int file_size) in *.
  set (done_msg := lit "DOWNLOAD_COMPLETE_UDP:" ++ filename ++ lit ":"
                     ++ str_of_int file_size) in *.
  destruct (send_message sock start_msg st) as [st1|st1] eqn:Hstart;
    cbn [and_then try_except] in Ht.
  2:{ exfalso. apply send_message_Raise in Hstart as ->.
      apply (Hfail (log (SendFailed sock) st) [SendFailed sock]);
        [done | by left | done]. }
  apply send_message_Ok in Hstart as [-> Hstart].
  change (port (log (Sent sock start_msg) st)) with (port st) in Ht.
  set (port_msg := lit "UDP_PORT:" ++ str_of_int (port st + 1)) in *.
  destruct (send_message sock port_msg (log (Sent sock start_msg) st))
    as [st2|st2] eqn:Hport; cbn [and_then try_except] in Ht.
  2:{ exfalso. apply send_message_Raise in Hport as ->.
      apply (Hfail (log (SendFailed sock) (log (Sent sock start_msg) st))
               [Sent sock start_msg; SendFailed sock]); [| | done].
      - simpl. by rewrite <- app_assoc.
      - right. by left. }
  apply send_message_Ok in Hport as [-> Hport].
  destruct (file_datagrams_complete content Hcount) as [datagrams Hsent].
  rewrite Hsent in Ht.
  destruct (sendto_all_in_range (address info).1 (port st + 1) datagrams
              (log (Sent sock port_msg) (log (Sent sock start_msg) st)) Hrange)
    as (st3 & Hst3 & Ht3').
  rewrite Hst3 in Ht. cbn [and_then] in Ht.
  assert (trace st3 = trace st ++ [Sent sock start_msg; Sent sock port_msg]
                        ++ (SentTo (address info).1 (port st + 1) <$> datagrams))
    as Ht3.
  { rewrite Ht3'. simpl. by rewrite <- !app_assoc. }
  destruct (send_message sock done_msg st3) as [st4|st4] eqn:Hdone;
    cbn [and_then try_except] in Ht.
  2:{ exfalso. apply send_message_Raise in Hdone as ->.
      apply (Hfail (log (SendFailed sock) st3)
               ([Sent sock start_msg; Sent sock port_msg]
                  ++ (SentTo (address info).1 (port st + 1) <$> datagrams)
                  ++ [SendFailed sock])); [| | done].
      - simpl. rewrite Ht3. simpl. by rewrite <- !app_assoc.
      - apply elem_of_app. right. apply elem_of_app. right. by left. }
  apply send_message_Ok in Hdone as [-> Hdone].
  exists datagrams. split_and!; [done..|].
  simpl in Ht. rewrite Ht3 in Ht. rewrite <- !app_assoc in Ht.
  by apply app_inv_head in Ht.
Qed.

(** A download over the stream in which no send fails puts on the stream,
    for the requesting socket and in this order: the [DOWNLOAD_START]
    announcement, the file cut in blocks of at most 4096 bytes, each after
    its length in four bytes, and the [DOWNLOAD_COMPLETE] notice.  The blocks
    in a row are the file. *)
Theorem tcp_download_sends_the_file_in_blocks (sock : socket) (content : bytes)
    (filename : text) (file_size : Z) (st : server) (delta : list event) :
  trace (state_of (send_file_tcp sock content filename file_size st))
    = trace st ++ delta →
  no_failure delta →
  ∃ blocks,
    concat blocks = content ∧
    Forall (λ b, (0 < length b ≤ 4096)%nat) blocks ∧
    delta
    = Sent sock (lit "DOWNLOAD_START:" ++ filename ++ lit ":" ++ str_of_int file_size)
        :: concat (block_events sock <$> blocks)
        ++ [Sent sock (lit "DOWNLOAD_COMPLETE:" ++ filename ++ lit ":"
                         ++ str_of_int file_size)].
Proof.
  intros Ht Hnf.
  destruct (send_file_tcp_all_up _ _ _ _ _ _ Ht Hnf)
    as (blocks & Hcat & Hall & _ & _ & Hdelta).
  by exists blocks.
Qed.

(** A datagram download over a port that cannot be: on a server whose
    listening port is followed by no port [sendto] accepts, the download of
    a file that is not empty stops at the first datagram. *)
Lemma send_file_udp_past_range (sock : socket) (info : client_info)
    (content : bytes) (filename : text) (file_size : Z) (st : server)
    (delta : list event) :
  dict_get sock (clients st) = Some info →
  content ≠ [] →
  ¬ (0 ≤ port st + 1 ≤ 65535) →
  trace (state_of (send_file_udp sock content filename file_size st))
    = trace st ++ delta →
  no_failure delta →
  delta
  = [Sent sock (lit "DOWNLOAD_START_UDP:" ++ filename ++ lit ":"
                  ++ str_of_int file_size);
     Sent sock (lit "UDP_PORT:" ++ str_of_int (port st + 1));
     Sent sock (lit "ERROR: Failed to send file via UDP: " ++ exc_str)].
Proof.
  intros Hsock Hne Hrange Ht Hnf.
  set (start_msg := lit "DOWNLOAD_START_UDP:" ++ filename ++ lit ":"
                      ++ str_of_int file_size) in *.
  set (error_msg := lit "ERROR: Failed to send file via UDP: " ++ exc_str) in *.
  assert (∀ st1 d, trace st1 = trace st ++ d →
            trace (state_of (send_message sock error_msg st1)) = trace st ++ delta →
            delta = d ++ [Sent sock error_msg]) as Hreply.
  { intros st1 d Ht1 Ht'.
    destruct (send_message_cases link_down sock error_msg st1) as [Hs | Hs];
      rewrite Hs in Ht'; simpl in Ht'; rewrite Ht1, <- app_assoc in Ht';
      apply app_inv_head in Ht'; subst delta; [done|].
    exfalso. apply (Hnf sock). apply elem_of_app. right. by left. }
  assert (∀ st1 d, trace st1 = trace st ++ d → SendFailed sock ∈ d →
            trace (state_of (send_message sock error_msg st1)) = trace st ++ delta →
            False) as Hfail.
  { intros st1 d Ht1 Hin Ht'.
    destruct (failed_then_reply sock error_msg st1 (trace st) d Ht1 Hin)
      as (delta' & Hd & Hin').
    rewrite Hd in Ht'. apply app_inv_head in Ht'. subst delta'. by apply (Hnf sock). }
  unfold Server.send_file_udp in Ht. rewrite Hsock in Ht.
  fold start_msg error_msg in Ht.
  destruct (send_message sock start_msg st) as [st1|st1] eqn:Hstart;
    cbn [and_then try_except] in Ht.
  2:{ exfalso. apply send_message_Raise in Hstart as ->.
      apply (Hfail (log (SendFailed sock) st) [SendFailed sock]);
        [done | by left | done]. }
  apply send_message_Ok in Hstart as [-> Hstart].
  change (port (log (Sent sock start_msg) st)) with (port st) in Ht.
  set (port_msg := lit "UDP_PORT:" ++ str_of_int (port st + 1)) in *.
  destruct (send_message sock port_msg (log (Sent sock start_msg) st))
    as [st2|st2] eqn:Hport; cbn [and_then try_except] in Ht.
  2:{ exfalso. apply send_message_Raise in Hport as ->.
      apply (Hfail (log (SendFailed sock) (log (Sent sock start_msg) st))
               [Sent sock start_msg; SendFailed sock]); [| | done].
      - simpl. by rewrite <- app_assoc.
      - right. by left. }
  apply send_message_Ok in Hport as [-> Hport].
  set (st2 := log (Sent sock port_msg) (log (Sent sock start_msg) st)) in *.
  assert (trace st2 = trace st ++ [Sent sock start_msg; Sent sock port_msg]) as Ht2.
  { unfold st2. simpl. by rewrite <- app_assoc. }
  destruct (file_datagrams_nonempty content Hne)
    as [Hsent | (d & ds & finished & Hsent)]; rewrite Hsent in Ht.
  - cbn [sendto_all and_then try_except] in Ht. by apply (Hreply st2 _ Ht2).
  - rewrite sendto_all_out_of_range in Ht by done.
    cbn [and_then try_except] in Ht. by apply (Hreply st2 _ Ht2).
Qed.

(** A datagram download by a registered client, from a server that listens
    on a port below the last one, 65535, of a file of at most 2^32 chunks,
    in which no send fails: the server sends the
    [DOWNLOAD_START_UDP] announcement and the [UDP_PORT] announcement on the
    stream, then one datagram for each chunk of the file, in order, to the
    address of the client and the port after the listening port, then the
    [DOWNLOAD_COMPLETE_UDP] notice on the stream. *)
Theorem udp_download_sends_every_chunk (sock : socket) (info : client_info)
    (content : bytes) (filename : text) (file_size : Z) (st : server)
    (delta : list event) :
  dict_get sock (clients st) = Some info →
  Datagram.chunk_count content ≤ 2 ^ 32 →
  0 ≤ port st < 65535 →
  trace (state_of (send_file_udp sock content filename file_size st))
    = trace st ++ delta →
  no_failure delta →
  ∃ datagrams,
    Datagram.file_datagrams content = Some (datagrams, true) ∧
    delta
    = [Sent sock (lit "DOWNLOAD_START_UDP:" ++ filename ++ lit ":"
                    ++ str_of_int file_size);
       Sent sock (lit "UDP_PORT:" ++ str_of_int (port st + 1))]
      ++ (SentTo (address info).1 (port st + 1) <$> datagrams)
      ++ [Sent sock (lit "DOWNLOAD_COMPLETE_UDP:" ++ filename ++ lit ":"
                       ++ str_of_int file_size)].
Proof.
  intros Hsock Hcount Hport Ht Hnf.
  assert (0 ≤ port st + 1 ≤ 65535) as Hrange by lia.
  destruct (send_file_udp_all_up _ _ _ _ _ _ _ Hsock Hcount Hrange Ht Hnf)
    as (datagrams & Hsent & _ & _ & _ & Hdelta).
  by exists datagrams.
Qed.

(** A server that listens on the last port, 65535, cannot serve a datagram
    download: the port after it is none that [sendto] accepts.  For a file
    that is not empty and a registered client, when no send on the stream
    fails, the server announces the download and the port after its own,
    sends no datagram, and sends the error reply of [send_file_udp] where
    the [DOWNLOAD_COMPLETE_UDP] notice would be. *)
Theorem udp_download_fails_past_the_last_port (sock : socket)
    (info : client_info) (content : bytes) (filename : text) (file_size : Z)
    (st : server) (delta : list event) :
  dict_get sock (clients st) = Some info →
  content ≠ [] →
  65535 ≤ port st →
  trace (state_of (send_file_udp sock content filename file_size st))
    = trace st ++ delta →
  no_failure delta →
  delta
  = [Sent sock (lit "DOWNLOAD_START_UDP:" ++ filename ++ lit ":"
                  ++ str_of_int file_size);
     Sent sock (lit "UDP_PORT:" ++ str_of_int (port st + 1));
     Sent sock (lit "ERROR: Failed to send file via UDP: " ++ exc_str)].
Proof.
  intros Hsock Hne Hport. apply (send_file_udp_past_range sock info); [done..|].
  lia.
Qed.

(** [handle_file_download] looks at what is at
    [os.path.join(self.shared_files_path, filename)], the name joined as it
    was sent.  It puts bytes of a file on the network, as blocks on the
    stream or as datagrams, only when a regular file is there and the
    protocol, in upper case, is [TCP] or [UDP].  When nothing is there, when
    a directory is there, or when the protocol is another one, all it does
    on the network is to send the requester the one error reply of that
    case, or to fail in sending it. *)
Theorem download_sends_data_only_for_regular_files (sock : socket)
    (filename protocol : text) (st : server) (delta : list event) :
  trace (state_of (handle_file_download link_down str_upper shared exc_str
                     sock filename protocol st))
    = trace st ++ delta →
  ((∃ ev, ev ∈ delta ∧
          match ev with SentBlock _ _ | SentTo _ _ _ => True | _ => False end) →
   ∃ content,
     shared filename = Some (Regular content) ∧
     (str_upper protocol = lit "TCP" ∨ str_upper protocol = lit "UDP")) ∧
  (shared filename = None →
   delta = [Sent sock (lit "ERROR: File '" ++ filename ++ lit "' not found")] ∨
   delta = [SendFailed sock]) ∧
  (shared filename = Some Directory →
   delta = [Sent sock (lit "ERROR: '" ++ filename ++ lit "' is not a file")] ∨
   delta = [SendFailed sock]) ∧
  (∀ content,
     shared filename = Some (Regular content) →
     str_upper protocol ≠ lit "TCP" → str_upper protocol ≠ lit "UDP" →
     delta = [Sent sock (lit "ERROR: Invalid protocol '" ++ protocol
                           ++ lit "'. Use TCP or UDP")] ∨
     delta = [SendFailed sock]).
Proof.
  unfold Server.handle_file_download. intros Ht.
  assert (∀ m, trace (state_of (send_message sock m st)) = trace st ++ delta →
               delta = [Sent sock m] ∨ delta = [SendFailed sock]) as Hreply.
  { intros m Hm.
    destruct (send_message_cases link_down sock m st) as [Hs | Hs];
      rewrite Hs in Hm; simpl in Hm; apply app_inv_head in Hm; subst delta;
      [by left | by right]. }
  assert (∀ m, trace (state_of (send_message sock m st)) = trace st ++ delta →
               ¬ ∃ ev, ev ∈ delta ∧
                       match ev with
                       | SentBlock _ _ | SentTo _ _ _ => True
                       | _ => False
                       end) as Hnone.
  { intros m Hm (ev & Hin & Hdata).
    destruct (Hreply m Hm) as [-> | ->];
      apply list_elem_of_singleton in Hin; by subst ev. }
  destruct (shared filename) as [[|content]|].
  - split_and!; [by intros ?%(Hnone _ Ht) | done | by intros _; apply Hreply | done].
  - repeat case_bool_decide.
    + split_and!; [intros _; exists content; by auto | done | done |].
      by intros ? _ ?.
    + split_and!; [intros _; exists content; by auto | done | done |].
      by intros ? _ _ ?.
    + split_and!; [by intros ?%(Hnone _ Ht) | done | done |].
      intros ? _ _ _. by apply Hreply.
  - split_and!; [by intros ?%(Hnone _ Ht) | by intros _; apply Hreply | done | done].
Qed.

End Downloads.

(** ** Downloads: what the client makes of it *)

(** A decidable fact about closed terms, by evaluation. *)
Ltac by_evaluation := refine (bool_decide_unpack _ _); by vm_compute.

Section EndToEnd.
Import Wire Client.

Variable link_down : list Server.event → Server.socket → bool.
Variable exc_str : text.
Variable int_of : text → option Z.
Variable open_fails : text → bool.
Variable bind_fails : Z → bool.

Local Abbreviation handle_message :=
  (Client.handle_message int_of open_fails bind_fails).
Local Abbreviation receive_messages :=
  (Client.receive_messages int_of open_fails bind_fails).
Local Abbreviation receive_messages_round :=
  (Client.receive_messages_round int_of open_fails bind_fails).
Local Abbreviation receive_file_tcp := (Client.receive_file_tcp open_fails).
Local Abbreviation setup_udp_receiver := (Client.setup_udp_receiver bind_fails).

(** *** Frames and blocks as the client reads them *)

Lemma frame_of (m : text) (w : list bytes) :
  Channel.send_message m [] = Some w → frame m = w.
Proof. unfold frame. by intros ->. Qed.

Lemma receive_frame (m : text) (rest : list bytes) :
  is_Some (Channel.send_message m []) →
  Channel.receive_message (frame m ++ rest) = (Some m, rest).
Proof.
  intros [w Hw]. rewrite (frame_of _ _ Hw).
  destruct (send_message_segments m [] w Hw)
    as (_ & header & payload & Henc & Hpack & ->).
  by apply receive_segments.
Qed.

Lemma arrive_frame (sock : Server.socket) (s : list bytes) (m : text) :
  is_Some (Channel.send_message m []) →
  arrive sock s (Server.Sent sock m) = s ++ frame m.
Proof.
  intros [w Hw]. unfold arrive. rewrite bool_decide_eq_true_2 by done.
  destruct (send_message_segments m s w Hw) as [-> _].
  by rewrite (frame_of _ _ Hw).
Qed.

Lemma block_header (b : bytes) :
  (length b ≤ 4096)%nat →
  length (default [] (pack_I (Z.of_nat (length b)))) = 4%nat ∧
  unpack_I (default [] (pack_I (Z.of_nat (length b)))) = Some (Z.of_nat (length b)).
Proof.
  intros Hb. destruct (pack_I_is_Some (Z.of_nat (length b))) as [h Hh].
  { change (2 ^ 32) with 4294967296. lia. }
  rewrite Hh. split; [by eapply pack_I_length | by apply unpack_pack_I].
Qed.

Lemma arrive_block (sock : Server.socket) (s : list bytes) (b : bytes) :
  (0 < length b ≤ 4096)%nat →
  foldl (arrive sock) s (Server.block_events sock b) = s ++ block_segments b.
Proof.
  intros Hb. destruct (block_header b) as [Hlen _]; [lia|].
  unfold Server.block_events, block_segments.
  cbn [foldl arrive]. rewrite !bool_decide_eq_true_2 by done.
  unfold Channel.sendall.
  destruct (default [] (pack_I (Z.of_nat (length b)))) as [|h0 h]; [done|].
  destruct b; [simpl in Hb; lia|]. by rewrite <- app_assoc.
Qed.

Lemma arrive_blocks (sock : Server.socket) (blocks : list bytes) :
  Forall (λ b, (0 < length b ≤ 4096)%nat) blocks →
  ∀ s, foldl (arrive sock) s (concat (Server.block_events sock <$> blocks))
       = s ++ concat (block_segments <$> blocks).
Proof.
  induction 1 as [|b blocks Hb _ IH]; intros s.
  - by rewrite app_nil_r.
  - cbn [fmap list_fmap concat]. rewrite foldl_app, arrive_block by done.
    rewrite IH. by rewrite <- app_assoc.
Qed.

Lemma recv_chunk_full (chunk_len : Z) (chunk : bytes) (s : list bytes) :
  Z.of_nat (length chunk) = chunk_len → recv_chunk chunk_len chunk s = (chunk, s).
Proof. intros <-. destruct s; simpl; by rewrite bool_decide_eq_false_2 by lia. Qed.

(** The block loop reads back the blocks the server wrote. *)
Lemma receive_blocks_segments (blocks : list bytes) :
  Forall (λ b, (0 < length b ≤ 4096)%nat) blocks →
  ∀ fuel file_size received written rest,
    file_size = received + Z.of_nat (length (concat blocks)) →
    (length blocks ≤ fuel)%nat →
    receive_blocks fuel file_size received written
                   (concat (block_segments <$> blocks) ++ rest)
    = Some (written ++ concat blocks, file_size, rest).
Proof.
  induction 1 as [|b blocks Hb _ IH];
    intros fuel file_size received written rest Hsize Hfuel.
  - simpl in Hsize. rewrite app_nil_r. cbn [fmap list_fmap concat app].
    assert (received = file_size) as -> by lia.
    destruct fuel; cbn [receive_blocks]; by rewrite bool_decide_eq_false_2 by lia.
  - destruct fuel as [|fuel]; [simpl in Hfuel; lia|].
    destruct (block_header b) as [Hlen Hun]; [lia|].
    cbn [fmap list_fmap concat]. unfold block_segments at 1.
    set (header := default [] (pack_I (Z.of_nat (length b)))) in *.
    cbn [app concat]. rewrite <- ?app_assoc. cbn [app].
    cbn [receive_blocks].
    rewrite bool_decide_eq_true_2
      by (cbn [concat] in Hsize; rewrite length_app in Hsize; lia).
    unfold Channel.recv. rewrite bool_decide_eq_true_2 by lia.
    rewrite bool_decide_eq_false_2 by lia. rewrite Hun.
    destruct b as [|b0 b]; [simpl in Hb; lia|].
    cbn [recv_chunk]. rewrite bool_decide_eq_true_2 by (cbn [length]; lia).
    rewrite bool_decide_eq_true_2 by (cbn [length]; lia).
    change ([] ++ b0 :: b) with (b0 :: b).
    rewrite recv_chunk_full by done.
    rewrite IH with (rest := rest); [| | simpl in Hfuel; lia].
    + by rewrite <- app_assoc.
    + cbn [concat] in Hsize. rewrite length_app in Hsize. lia.
Qed.

Lemma blocks_length (blocks : list bytes) (rest : list bytes) :
  Forall (λ b, (0 < length b ≤ 4096)%nat) blocks →
  (length blocks ≤ length (concat (concat (block_segments <$> blocks) ++ rest)))%nat.
Proof.
  induction 1 as [|b blocks Hb _ IH]; [simpl; lia|].
  cbn [fmap list_fmap concat]. unfold block_segments at 1.
  rewrite <- app_assoc. cbn [app concat]. rewrite !length_app. cbn [length]. lia.
Qed.

(** *** Control messages as the client parses them *)

Lemma split_all_none (sep : Z) (s : text) : sep ∉ s → split_all sep s = [s].
Proof.
  induction s as [|c s IH]; [done|]. intros [Hc Hs]%not_elem_of_cons. simpl.
  rewrite bool_decide_eq_false_2 by congruence. by rewrite IH.
Qed.

Lemma split_all_app (sep : Z) (p s : text) :
  sep ∉ p → split_all sep (p ++ sep :: s) = p :: split_all sep s.
Proof.
  induction p as [|c p IH]; simpl.
  - intros _. by rewrite bool_decide_eq_true_2.
  - intros [Hc Hp]%not_elem_of_cons.
    rewrite bool_decide_eq_false_2 by congruence. by rewrite IH.
Qed.

Lemma split_fields (p filename digits : text) :
  58 ∉ p → 58 ∉ filename → 58 ∉ digits →
  split_all 58 ((p ++ [58]) ++ filename ++ [58] ++ digits) = [p; filename; digits].
Proof.
  intros Hp Hf Hd. rewrite <- app_assoc.
  change (p ++ [58] ++ filename ++ [58] ++ digits)
    with (p ++ 58 :: (filename ++ 58 :: digits)).
  rewrite split_all_app by done. rewrite split_all_app by done.
  by rewrite split_all_none.
Qed.

Lemma split_field (p digits : text) :
  58 ∉ p → 58 ∉ digits → split_all 58 ((p ++ [58]) ++ digits) = [p; digits].
Proof.
  intros Hp Hd. rewrite <- app_assoc.
  change (p ++ [58] ++ digits) with (p ++ 58 :: digits).
  rewrite split_all_app by done. by rewrite split_all_none.
Qed.

Lemma lit_String (a : ascii) (s : string) :
  lit (String a s) = Z.of_N (N_of_ascii a) :: lit s.
Proof. reflexivity. Qed.

(** [str(n)] has no colon in it. *)
Lemma digits_no_colon (n : Z) : 58 ∉ str_of_int n.
Proof.
  unfold str_of_int.
  assert (∀ u, 58 ∉ lit (NilEmpty.string_of_uint u)) as Hu.
  { induction u; cbn [NilEmpty.string_of_uint]; rewrite ?lit_String;
      [by intros ?%elem_of_nil
      | apply not_elem_of_cons; split; [by vm_compute | done]..]. }
  assert (∀ u, 58 ∉ lit (NilZero.string_of_uint u)) as Hz.
  { intros u. destruct u; cbv [NilZero.string_of_uint]; try apply Hu.
    rewrite lit_String. apply not_elem_of_cons. split; [by vm_compute|].
    by intros ?%elem_of_nil. }
  destruct (Z.to_int n) as [u|u]; cbn [NilZero.string_of_int]; [apply Hz|].
  rewrite lit_String. apply not_elem_of_cons. split; [by vm_compute | apply Hz].
Qed.

Lemma startswith_app (p s : text) : startswith p (p ++ s) = true.
Proof. unfold startswith. by rewrite take_app_length, bool_decide_eq_true_2. Qed.

Lemma startswith_longer (p q s : text) :
  (length p ≤ length q)%nat → startswith p (q ++ s) = startswith p q.
Proof. intros Hle. unfold startswith. by rewrite take_app_le. Qed.

Lemma startswith_other (p q s : text) :
  (length q ≤ length p)%nat → take (length q) p ≠ q →
  startswith p (q ++ s) = false.
Proof.
  intros Hle Hne. unfold startswith. apply bool_decide_eq_false_2. intros Heq.
  apply Hne. rewrite <- Heq at 1. rewrite take_take.
  rewrite Nat.min_l by lia. by rewrite take_app_length.
Qed.

Lemma handle_message_start (filename : text) (n : Z) (c : client) :
  58 ∉ filename → int_of (str_of_int n) = Some n →
  handle_message (lit "DOWNLOAD_START:" ++ filename ++ lit ":" ++ str_of_int n) c
  = Done (receive_file_tcp filename n c).
Proof.
  intros Hf Hint. unfold Client.handle_message. rewrite startswith_app.
  unfold handle_download_start.
  change (lit "DOWNLOAD_START:") with (lit "DOWNLOAD_START" ++ [58]).
  change (lit ":") with [58].
  rewrite split_fields; [|by_evaluation | done | apply digits_no_colon].
  by rewrite Hint.
Qed.

Lemma handle_message_complete (filename : text) (n : Z) (c : client) :
  58 ∉ filename → int_of (str_of_int n) = Some n →
  handle_message (lit "DOWNLOAD_COMPLETE:" ++ filename ++ lit ":" ++ str_of_int n) c
  = Done (print (DownloadComplete filename n) c).
Proof.
  intros Hf Hint. unfold Client.handle_message.
  rewrite (startswith_longer (lit "DOWNLOAD_START:")) by (vm_compute; lia).
  rewrite (startswith_other (lit "DOWNLOAD_START_UDP:"))
    by (vm_compute; first [lia | done]).
  rewrite (startswith_longer (lit "UDP_PORT:")) by (vm_compute; lia).
  rewrite startswith_app.
  change (startswith (lit "DOWNLOAD_START:") (lit "DOWNLOAD_COMPLETE:")) with false.
  change (startswith (lit "UDP_PORT:") (lit "DOWNLOAD_COMPLETE:")) with false.
  cbv iota. unfold handle_download_complete.
  change (lit "DOWNLOAD_COMPLETE:") with (lit "DOWNLOAD_COMPLETE" ++ [58]).
  change (lit ":") with [58].
  rewrite split_fields; [|by_evaluation | done | apply digits_no_colon].
  by rewrite Hint.
Qed.

Lemma handle_message_start_udp (filename : text) (n : Z) (c : client) :
  58 ∉ filename → int_of (str_of_int n) = Some n →
  handle_message (lit "DOWNLOAD_START_UDP:" ++ filename ++ lit ":" ++ str_of_int n) c
  = Done (set_download (Datagram.handle_download_start_udp n)
            (set_download_filename filename c)).
Proof.
  intros Hf Hint. unfold Client.handle_message.
  rewrite (startswith_longer (lit "DOWNLOAD_START:")) by (vm_compute; lia).
  rewrite startswith_app.
  change (startswith (lit "DOWNLOAD_START:") (lit "DOWNLOAD_START_UDP:")) with false.
  cbv iota. unfold handle_download_start_udp.
  change (lit "DOWNLOAD_START_UDP:") with (lit "DOWNLOAD_START_UDP" ++ [58]).
  change (lit ":") with [58].
  rewrite split_fields; [|by_evaluation | done | apply digits_no_colon].
  by rewrite Hint.
Qed.

Lemma handle_message_udp_port (p : Z) (c : client) :
  int_of (str_of_int p) = Some p →
  handle_message (lit "UDP_PORT:" ++ str_of_int p) c
  = Done (setup_udp_receiver (set_udp_port p c)).
Proof.
  intros Hint. unfold Client.handle_message.
  rewrite (startswith_other (lit "DOWNLOAD_START:"))
    by (vm_compute; first [lia | done]).
  rewrite (startswith_other (lit "DOWNLOAD_START_UDP:"))
    by (vm_compute; first [lia | done]).
  rewrite startswith_app. unfold handle_udp_port.
  change (lit "UDP_PORT:") with (lit "UDP_PORT" ++ [58]).
  rewrite split_field; [|by_evaluation | apply digits_no_colon].
  by rewrite Hint.
Qed.

Lemma handle_message_complete_udp (filename : text) (n : Z) (c : client) :
  58 ∉ filename → int_of (str_of_int n) = Some n →
  handle_message
    (lit "DOWNLOAD_COMPLETE_UDP:" ++ filename ++ lit ":" ++ str_of_int n) c
  = Done c.
Proof.
  intros Hf Hint. unfold Client.handle_message.
  rewrite (startswith_longer (lit "DOWNLOAD_START:")) by (vm_compute; lia).
  rewrite (startswith_longer (lit "DOWNLOAD_START_UDP:")) by (vm_compute; lia).
  rewrite (startswith_longer (lit "UDP_PORT:")) by (vm_compute; lia).
  rewrite (startswith_longer (lit "DOWNLOAD_COMPLETE:")) by (vm_compute; lia).
  rewrite startswith_app.
  change (startswith (lit "DOWNLOAD_START:") (lit "DOWNLOAD_COMPLETE_UDP:"))
    with false.
  change (startswith (lit "DOWNLOAD_START_UDP:") (lit "DOWNLOAD_COMPLETE_UDP:"))
    with false.
  change (startswith (lit "UDP_PORT:") (lit "DOWNLOAD_COMPLETE_UDP:")) with false.
  change (startswith (lit "DOWNLOAD_COMPLETE:") (lit "DOWNLOAD_COMPLETE_UDP:"))
    with false.
  cbv iota. unfold handle_download_complete_udp.
  change (lit "DOWNLOAD_COMPLETE_UDP:") with (lit "DOWNLOAD_COMPLETE_UDP" ++ [58]).
  change (lit ":") with [58].
  rewrite split_fields; [|by_evaluation | done | apply digits_no_colon].
  by rewrite Hint.
Qed.

(** A round of the message loop that finds a whole frame. *)
Lemma round_on_frame (c : client) (m : text) (rest : list bytes) :
  inbox c = frame m ++ rest → is_Some (Channel.send_message m []) → m ≠ [] →
  receive_messages_round c
  = match handle_message m (set_inbox rest c) with
    | Done c2 => c2
    | Raised c2 => stop (if running c2 then print ReceiveError c2 else c2)
    end.
Proof.
  intros Hin Hm Hne. unfold Client.receive_messages_round.
  rewrite Hin, (receive_frame m rest Hm). by destruct m.
Qed.

(** *** A download over the stream, end to end *)

(** A download over the stream, end to end.  When no send of
    [send_file_tcp] fails, the file name has no colon in it, and each
    [sendall] of the server arrives as one segment, two rounds of the
    client's message loop on what the server sent read the announcement, then
    all the blocks, then the completion notice: the file written in the
    download directory, under the name requested, is the file the server
    read, byte for byte; the download is reported as successful; and the
    stream is read to its end. *)
Theorem tcp_download_arrives (sock : Server.socket) (content : bytes)
    (filename : text) (st : Server.server) (delta : list Server.event)
    (c : client) :
  Server.trace
    (Server.state_of
       (Server.send_file_tcp link_down exc_str sock content filename
          (Z.of_nat (length content)) st))
    = Server.trace st ++ delta →
  Server.no_failure delta →
  58 ∉ filename →
  int_of (str_of_int (Z.of_nat (length content))) = Some (Z.of_nat (length content)) →
  open_fails filename = false →
  running c = true →
  inbox c = wire_of sock delta →
  files (receive_messages 2 c) = (filename, content) :: files c ∧
  console (receive_messages 2 c)
    = console c ++ [Downloaded filename (Z.of_nat (length content));
                    DownloadComplete filename (Z.of_nat (length content))] ∧
  inbox (receive_messages 2 c) = [] ∧
  running (receive_messages 2 c) = true.
Proof.
  intros Ht Hnf Hf Hint Hopen Hrun Hin.
  destruct (send_file_tcp_all_up link_down exc_str sock content filename _ st delta
              Ht Hnf) as (blocks & Hcat & Hall & Hstart & Hdone & ->).
  set (n := Z.of_nat (length content)) in *.
  set (start_msg := lit "DOWNLOAD_START:" ++ filename ++ lit ":" ++ str_of_int n) in *.
  set (done_msg := lit "DOWNLOAD_COMPLETE:" ++ filename ++ lit ":" ++ str_of_int n)
    in *.
  assert (inbox c = frame start_msg
                      ++ (concat (block_segments <$> blocks) ++ frame done_msg))
    as Hwire.
  { rewrite Hin. unfold wire_of. cbn [foldl]. rewrite arrive_frame by done.
    rewrite foldl_app, arrive_blocks by done. cbn [foldl].
    rewrite arrive_frame by done. by rewrite app_nil_l, <- app_assoc. }
  set (c1 := print (Downloaded filename n)
               (save_file filename content (set_inbox (frame done_msg) c))).
  assert (receive_messages_round c = c1) as H1.
  { rewrite (round_on_frame c start_msg _ Hwire Hstart) by done.
    unfold start_msg. rewrite handle_message_start by done.
    unfold Client.receive_file_tcp. rewrite Hopen. cbn [inbox set_inbox].
    rewrite (receive_blocks_segments blocks Hall _ n 0 [] (frame done_msg));
      [| rewrite Hcat; unfold n; lia | by apply blocks_length].
    rewrite Hcat, app_nil_l. by rewrite bool_decide_eq_true_2 by done. }
  assert (receive_messages_round c1
          = print (DownloadComplete filename n) (set_inbox [] c1)) as H2.
  { assert (inbox c1 = frame done_msg ++ []) as Hwire1 by by rewrite app_nil_r.
    rewrite (round_on_frame c1 done_msg _ Hwire1 Hdone) by done.
    unfold done_msg. by rewrite handle_message_complete by done. }
  cbn [Client.receive_messages]. rewrite Hrun, H1.
  change (running c1) with (running c). rewrite Hrun, H2.
  split_and!; [done | | done | done].
  cbn [console print save_file set_inbox c1]. unfold c1.
  cbn [console print save_file set_inbox]. by rewrite <- app_assoc.
Qed.

(** *** A datagram download, end to end *)

Lemma wire_of_sendto (sock : Server.socket) (host : text) (p : Z)
    (datagrams : list bytes) (s : list bytes) :
  foldl (arrive sock) s (Server.SentTo host p <$> datagrams) = s.
Proof. revert s. induction datagrams as [|d ds IH]; intros s; [done | apply IH]. Qed.

Lemma datagrams_to_sendto (host : text) (p : Z) (datagrams : list bytes) :
  datagrams_to p (Server.SentTo host p <$> datagrams) = datagrams.
Proof.
  unfold datagrams_to. induction datagrams as [|d ds IH]; [done|].
  cbn [fmap list_fmap omap list_omap]. rewrite bool_decide_eq_true_2 by done.
  f_equal. exact IH.
Qed.

(** The receive loop given every datagram of the file once. *)
Lemma receive_loop_complete (f : bytes) (sent : list bytes)
    (evs : list Datagram.udp_event) :
  Datagram.file_datagrams f = Some (sent, true) →
  Datagram.SockError ∉ evs →
  Datagram.delivered evs ≡ₚ sent →
  ∃ st',
    Datagram.receive_loop evs
      (Datagram.handle_download_start_udp (Z.of_nat (length f)))
      = Datagram.Exited st' ∧
    Datagram.write_file st' = f ∧
    Datagram.download_received st' = Z.of_nat (length f) ∧
    Datagram.download_file_size st' = Z.of_nat (length f).
Proof.
  intros Hsent Herr Hperm.
  set (st0 := Datagram.handle_download_start_udp (Z.of_nat (length f))).
  assert (Datagram.events_from f (λ _, True) evs) as Hevs.
  { apply Forall_forall. intros [d| |] Hev; [right | by left | done].
    assert (d ∈ sent) as Hd by (rewrite <- Hperm; by apply elem_of_delivered).
    destruct (genuine_of_sent f sent d Hsent Hd) as [i Hi]. by exists i, d. }
  destruct (receive_loop_inv f (λ _, True) evs st0 (inv_start f _) Hevs)
    as [Hinv Hres].
  assert (∀ st', Datagram.inv f (λ _, True) st' → Datagram.write_file st' = f →
            Datagram.write_file st' = f ∧
            Datagram.download_received st' = Z.of_nat (length f) ∧
            Datagram.download_file_size st' = Z.of_nat (length f)) as Hdone.
  { intros st' (Hsize & _ & Hrecv) Hw. rewrite Hw in Hrecv. done. }
  destruct (Datagram.receive_loop evs st0) as [st'|st']; simpl in Hinv.
  - exists st'. split; [done|]. apply Hdone; [done|].
    destruct Hres as [Hfull | Hcount].
    + by eapply inv_written_full.
    + eapply inv_written_all; [done|]. intros i Hi. by eapply inv_all_present.
  - exfalso. destruct Hres as [Hlt Hpres].
    assert (Datagram.write_file st' = f) as Hw.
    { eapply inv_written_all; [done|]. intros i Hi.
      destruct (sent_of_index f sent i Hsent Hi) as (d & Hd & Hgen).
      eapply Hpres; [|done]. apply elem_of_delivered. rewrite Hperm.
      by eapply list_elem_of_lookup_2. }
    destruct Hinv as (Hsize & _ & Hrecv). rewrite Hw in Hrecv. lia.
Qed.

(** A datagram download, end to end.  When the server listens on a port
    below the last one, 65535, no send of [send_file_udp] fails and the file
    name has no colon in it, three rounds of the client's
    message loop on the server's control messages set up the download, and
    bind the datagram socket to the port the server sends to; and when the
    datagrams the server sent then reach the receive thread once each, in any
    order and with any time-outs among them, the file written is the file the
    server read, byte for byte, reported as successful. *)
Theorem udp_download_arrives (sock : Server.socket) (info : Server.client_info)
    (content : bytes) (filename : text) (st : Server.server)
    (delta : list Server.event) (evs : list Datagram.udp_event) (c : client) :
  Server.dict_get sock (Server.clients st) = Some info →
  Datagram.chunk_count content ≤ 2 ^ 32 →
  0 ≤ Server.port st < 65535 →
  Server.trace
    (Server.state_of
       (Server.send_file_udp link_down exc_str sock content filename
          (Z.of_nat (length content)) st))
    = Server.trace st ++ delta →
  Server.no_failure delta →
  58 ∉ filename →
  int_of (str_of_int (Z.of_nat (length content))) = Some (Z.of_nat (length content)) →
  int_of (str_of_int (Server.port st + 1)) = Some (Server.port st + 1) →
  open_fails filename = false →
  bind_fails (Server.port st + 1) = false →
  running c = true →
  inbox c = wire_of sock delta →
  Datagram.SockError ∉ evs →
  Datagram.delivered evs ≡ₚ datagrams_to (Server.port st + 1) delta →
  udp_receiver (receive_messages 3 c) = Some (Server.port st + 1) ∧
  inbox (receive_messages 3 c) = [] ∧
  running (receive_messages 3 c) = true ∧
  ∃ c',
    Client.receive_file_udp open_fails evs (receive_messages 3 c) = Some c' ∧
    files c' = (filename, content) :: files c ∧
    console c' = console c ++ [DownloadedUdp filename (Z.of_nat (length content))] ∧
    udp_receiver c' = None.
Proof.
  intros Hsock Hcount Hlisten Ht Hnf Hf Hint Hintp Hopen Hbind Hrun Hin Herr Hperm.
  assert (0 ≤ Server.port st + 1 ≤ 65535) as Hrange by lia.
  destruct (send_file_udp_all_up link_down exc_str sock info content filename _ st
              delta Hsock Hcount Hrange Ht Hnf)
    as (datagrams & Hsent & Hstart & Hport & Hdone & ->).
  set (n := Z.of_nat (length content)) in *.
  set (p := Server.port st + 1) in *.
  set (start_msg := lit "DOWNLOAD_START_UDP:" ++ filename ++ lit ":" ++ str_of_int n)
    in *.
  set (port_msg := lit "UDP_PORT:" ++ str_of_int p) in *.
  set (done_msg := lit "DOWNLOAD_COMPLETE_UDP:" ++ filename ++ lit ":"
                     ++ str_of_int n) in *.
  assert (inbox c = frame start_msg ++ (frame port_msg ++ frame done_msg)) as Hwire.
  { rewrite Hin. unfold wire_of. cbn [foldl app]. rewrite !arrive_frame by done.
    rewrite foldl_app, wire_of_sendto. cbn [foldl].
    rewrite arrive_frame by done. by rewrite app_nil_l, <- !app_assoc. }
  assert (Datagram.delivered evs ≡ₚ datagrams) as Hperm'.
  { rewrite Hperm.
    pose proof (datagrams_to_sendto (Server.address info).1 p datagrams) as Hd.
    unfold datagrams_to in *. cbn [app omap list_omap].
    rewrite omap_app, Hd. cbn [omap list_omap]. by rewrite app_nil_r. }
  set (c1 := set_download (Datagram.handle_download_start_udp n)
               (set_download_filename filename
                  (set_inbox (frame port_msg ++ frame done_msg) c))).
  assert (receive_messages_round c = c1) as H1.
  { rewrite (round_on_frame c start_msg _ Hwire Hstart) by done.
    unfold start_msg. by rewrite handle_message_start_udp by done. }
  set (c2 := set_udp_receiver (Some p) (set_udp_port p (set_inbox (frame done_msg) c1))).
  assert (receive_messages_round c1 = c2) as H2.
  { assert (inbox c1 = frame port_msg ++ frame done_msg) as Hwire1 by done.
    rewrite (round_on_frame c1 port_msg _ Hwire1 Hport) by done.
    unfold port_msg. rewrite handle_message_udp_port by done.
    unfold Client.setup_udp_receiver. cbn [udp_port set_udp_port]. by rewrite Hbind. }
  assert (receive_messages_round c2 = set_inbox [] c2) as H3.
  { assert (inbox c2 = frame done_msg ++ []) as Hwire2 by by rewrite app_nil_r.
    rewrite (round_on_frame c2 done_msg _ Hwire2 Hdone) by done.
    unfold done_msg. by rewrite handle_message_complete_udp by done. }
  cbn [Client.receive_messages]. rewrite Hrun, H1.
  change (running c1) with (running c). rewrite Hrun, H2.
  change (running c2) with (running c). rewrite Hrun, H3.
  split_and!; [done..|].
  unfold Client.receive_file_udp.
  change (download_filename (set_inbox [] c2)) with (Some filename).
  change (download (set_inbox [] c2))
    with (Some (Datagram.handle_download_start_udp n)).
  destruct (receive_loop_complete content datagrams evs Hsent Herr Hperm')
    as (st' & Hloop & Hw & Hrecv & Hsize).
  fold n in Hloop, Hrecv, Hsize. rewrite Hloop, Hopen.
  rewrite bool_decide_eq_true_2 by congruence.
  eexists. split; [done|]. rewrite Hw, Hsize. done.
Qed.

(** *** A control message that does not parse *)

(** A [DOWNLOAD_START] announcement whose size field is not a number ends
    the client's message loop: [int] raises, the error is printed, nothing
    is written, what follows in the stream is left unread, and no further
    round is run. *)
Theorem malformed_size_stops_the_client (filename size : text)
    (rest : list bytes) (c : client) (rounds : nat) :
  58 ∉ filename → 58 ∉ size →
  int_of size = None →
  is_Some (Channel.send_message
             (lit "DOWNLOAD_START:" ++ filename ++ lit ":" ++ size) []) →
  running c = true →
  inbox c = frame (lit "DOWNLOAD_START:" ++ filename ++ lit ":" ++ size) ++ rest →
  receive_messages (S rounds) c = stop (print ReceiveError (set_inbox rest c)).
Proof.
  intros Hf Hs Hint Hframe Hrun Hin.
  cbn [Client.receive_messages]. rewrite Hrun.
  rewrite (round_on_frame c _ _ Hin Hframe) by done.
  unfold Client.handle_message. rewrite startswith_app.
  unfold handle_download_start.
  change (lit "DOWNLOAD_START:") with (lit "DOWNLOAD_START" ++ [58]).
  change (lit ":") with [58].
  rewrite split_fields; [|by_evaluation | done | done].
  rewrite Hint. change (running (set_inbox rest c)) with (running c). rewrite Hrun.
  by destruct rounds.
Qed.

End EndToEnd.

(** ** Ending a session *)

Section Sessions.
Import Wire Client.

Variable link_down : list Server.event → Server.socket → bool.
Variable str_upper : text → text.
Variable listdir : option (list text).
Variable shared : text → option Server.fs_entry.
Variable exc_str : text.
Variable int_of : text → option Z.
Variable open_fails : text → bool.
Variable bind_fails : Z → bool.

Local Abbreviation handle_client_message :=
  (Server.handle_client_message link_down str_upper listdir shared exc_str).
Local Abbreviation remove_client := (Server.remove_client link_down).
Local Abbreviation handle_input_line := (Client.handle_input_line str_upper).
Local Abbreviation receive_messages_round :=
  (Client.receive_messages_round int_of open_fails bind_fails).

Lemma handle_leave (sock : Server.socket) (st : Server.server) :
  str_upper (lit "/LEAVE") = lit "/LEAVE" →
  handle_client_message sock (Some (lit "/LEAVE")) st = remove_client sock st.
Proof.
  intros Hup.
  destruct (Server.username_of sock st) as [sender|] eqn:Hname.
  - rewrite (handle_client_message_dispatch link_down str_upper listdir shared
               exc_str sock sender) by done.
    unfold Server.dispatch.
    change (Server.split 2 (Server.strip (lit "/LEAVE"))) with [lit "/LEAVE"].
    change (default [] ([lit "/LEAVE"] !! 0%nat)) with (lit "/LEAVE").
    rewrite Hup. by rewrite bool_decide_eq_true_2.
  - unfold Server.handle_client_message.
    change (lit "/LEAVE") with (47 :: lit "LEAVE"). cbv iota. rewrite Hname.
    symmetry. apply remove_client_unregistered. unfold Server.username_of in Hname.
    unfold Server.registered. destruct (Server.dict_get sock (Server.clients st));
      [discriminate | by intros [? ?]].
Qed.

(** Quitting.  For an input line that is [/QUIT] or [/EXIT] once stripped
    and put in upper case, [handle_input] stops the client and sends one
    frame, which the server receives as [/LEAVE] and handles by
    [remove_client]: the client is no longer registered. *)
Theorem quit_unregisters (line : text) (c : client) (sock : Server.socket)
    (st : Server.server) :
  Server.strip line ≠ [] →
  str_upper (Server.strip line) = lit "/QUIT"
  ∨ str_upper (Server.strip line) = lit "/EXIT" →
  str_upper (lit "/LEAVE") = lit "/LEAVE" →
  outbox c = [] →
  running (handle_input_line line c) = false ∧
  Channel.receive_message (outbox (handle_input_line line c))
    = (Some (lit "/LEAVE"), []) ∧
  handle_client_message sock (Some (lit "/LEAVE")) st = remove_client sock st ∧
  ¬ Server.registered sock (remove_client sock st).
Proof.
  intros Hne Hquit Hup Hout.
  assert (handle_input_line line c = stop (Client.send_message (lit "/LEAVE") c))
    as ->.
  { unfold Client.handle_input_line.
    destruct (Server.strip line) as [|ch user_input]; [done|].
    destruct Hquit as [-> | ->].
    - rewrite bool_decide_eq_false_2 by by vm_compute.
      by rewrite bool_decide_eq_true_2.
    - rewrite bool_decide_eq_false_2 by by vm_compute.
      rewrite (bool_decide_eq_false_2 (lit "/EXIT" = lit "/QUIT")) by by vm_compute.
      by rewrite bool_decide_eq_true_2. }
  unfold Client.send_message. rewrite Hout.
  split_and!; [done | by vm_compute | by apply handle_leave |].
  by destruct (remove_client_removes link_down sock st) as (d & _ & Hns & _).
Qed.

(** The empty text.  Its frame is a header of four zero bytes;
    [receive_message] returns it as [''], which both ends take for a closed
    connection: the server's handler removes the sender, the client's loop
    prints [Connection lost] and stops. *)
Theorem empty_frame_ends_the_session (rest : list bytes) :
  Channel.send_message [] [] = Some [[x00; x00; x00; x00]] ∧
  Channel.receive_message ([x00; x00; x00; x00] :: rest) = (Some [], rest) ∧
  (∀ sock st,
     handle_client_message sock
       (Channel.receive_message ([x00; x00; x00; x00] :: rest)).1 st
     = remove_client sock st) ∧
  (∀ c, inbox c = [x00; x00; x00; x00] :: rest →
        receive_messages_round c
        = stop (print ConnectionLost (set_inbox rest c))).
Proof.
  assert (Channel.receive_message ([x00; x00; x00; x00] :: rest) = (Some [], rest))
    as Hrecv by by destruct rest.
  split_and!; [done | done | |].
  - intros sock st. by rewrite Hrecv.
  - intros c Hin. unfold Client.receive_messages_round. by rewrite Hin, Hrecv.
Qed.

End Sessions.

(** ** Runs *)

(** An event that is none of those of a list known in full. *)
Ltac not_among :=
  let H := fresh "H" in
  intros H; vm_compute in H;
  repeat (apply elem_of_cons in H as [H|H]; [discriminate H|]);
  by apply elem_of_nil in H.

Ltac no_failed := let s := fresh "s" in intros s; not_among.

Section Runs.
Import Wire Server Scenario.

Lemma datagrams_match_receiver_witness :
  ∃ sent,
    Datagram.file_datagrams small_file = Some (sent, true) ∧
    Z.of_nat (length sent) = 1.
Proof.
  destruct (Datagram.file_datagrams small_file) as [[sent ok]|] eqn:Hsent;
    [|by vm_compute in Hsent].
  destruct ok; [|by vm_compute in Hsent].
  exists sent. split; [done|].
  destruct (datagrams_match_receiver small_file sent Hsent) as [H _]. exact H.
Defined.

Lemma registry_invariants_witness :
  (∀ s, registered s sole_member → s ∉ closed sole_member) ∧
  (∀ g m, (g, m) ∈ groups sole_member →
          NoDup m ∧ ∀ s, s ∈ m → registered s sole_member).
Proof.
  apply (registry_invariants flaky_link ascii_upper (Some []) (λ _, None) [] 5000
           sole_member).
  exact sole_member_reachable.
Defined.

Lemma start_keeps_the_invariants_witness :
  reachable flaky_link ascii_upper (Some []) (λ _, None) [] 5000
    (start flaky_link ascii_upper (Some []) (λ _, None) [] 5000 two_rounds) ∧
  port (start flaky_link ascii_upper (Some []) (λ _, None) [] 5000 two_rounds)
    = 5000 ∧
  wf (start flaky_link ascii_upper (Some []) (λ _, None) [] 5000 two_rounds) ∧
  open_registry
    (start flaky_link ascii_upper (Some []) (λ _, None) [] 5000 two_rounds).
Proof.
  apply (start_keeps_the_invariants flaky_link ascii_upper (Some []) (λ _, None) []
           5000 two_rounds).
  intros k round Hk. destruct k as [|[|k]]; simpl in Hk; [| |done];
    injection Hk as <-.
  - split; [by_evaluation|].
    intros s Hs. split; [by intros [? ?] | by intros ?%elem_of_nil].
  - split; [constructor|]. intros s Hs. by apply elem_of_nil in Hs.
Defined.

Lemma remove_client_is_idempotent_witness :
  remove_client flaky_link 2%nat (remove_client flaky_link 2%nat three_clients)
  = remove_client flaky_link 2%nat three_clients.
Proof.
  exact (proj2 (remove_client_is_idempotent flaky_link 2%nat three_clients)).
Defined.

Lemma remove_client_notifies_the_rest_witness :
  ∃ delta,
    trace (remove_client flaky_link 2%nat three_clients)
      = trace three_clients ++ delta ∧
    ¬ registered 2%nat (remove_client flaky_link 2%nat three_clients) ∧
    ¬ in_group 2%nat (remove_client flaky_link 2%nat three_clients) ∧
    2%nat ∈ closed (remove_client flaky_link 2%nat three_clients) ∧
    (∀ s, registered s (remove_client flaky_link 2%nat three_clients) →
          Sent s (lit "alice" ++ lit " has left") ∈ delta) ∧
    (∀ s m, Sent s m ∈ delta → is_leave m).
Proof.
  apply (remove_client_notifies_the_rest flaky_link 2%nat
           (ClientInfo (lit "alice") (lit "10.0.0.2", 40002)) three_clients).
  - exact three_clients_wf.
  - reflexivity.
Defined.

Lemma accept_client_registers_witness :
  dict_get 4%nat (clients dave_arrives)
  = Some (ClientInfo (lit "dave") (lit "10.0.0.4", 40004)) ∧
  trace dave_arrives
  = [Sent 4%nat (lit "Welcome to the Instant Messenger Server!");
     Sent 1%nat (lit "dave has joined");
     Sent 2%nat (lit "dave has joined");
     Sent 3%nat (lit "dave has joined")].
Proof.
  split; [|by vm_compute].
  destruct (accept_client_registers (λ _ _, false) 4%nat (lit "10.0.0.4", 40004)
              (lit "dave") three_clients (trace dave_arrives)) as [H _].
  - exact three_clients_wf.
  - done.
  - reflexivity.
  - by_evaluation.
  - exact H.
Defined.

Lemma accept_client_without_name_witness :
  clients (accept_client flaky_link 4%nat (lit "10.0.0.4", 40004) None three_clients)
  = clients three_clients.
Proof.
  destruct (accept_client_without_name flaky_link 4%nat (lit "10.0.0.4", 40004)
              None three_clients) as [H _]; [by left | exact H].
Defined.

Lemma join_then_leave_restores_groups_witness :
  ∃ st1 st2,
    join_group flaky_link 1%nat (lit "g") three_clients = Ok st1 ∧
    leave_group flaky_link 1%nat (lit "g") st1 = Ok st2 ∧
    groups st2 = groups three_clients.
Proof.
  eexists _, _. split; [by vm_compute|]. split; [by vm_compute|].
  eapply (join_then_leave_restores_groups flaky_link 1%nat (lit "g") three_clients).
  - intros g m [[= -> ->] | ?%elem_of_nil]%elem_of_cons; done.
  - by_evaluation.
  - by vm_compute.
  - by vm_compute.
Defined.

Lemma join_twice_changes_nothing_witness :
  ∃ st1,
    join_group flaky_link 1%nat (lit "g") three_clients = Ok st1 ∧
    join_group flaky_link 1%nat (lit "g") st1
    = Server.send_message flaky_link 1%nat (lit "Already in group '" ++ lit "g" ++ lit "'")
        st1.
Proof.
  eexists. split; [by vm_compute|].
  eapply (join_twice_changes_nothing flaky_link 1%nat (lit "g") three_clients).
  by vm_compute.
Defined.

Lemma broadcast_reaches_each_client_once_witness :
  trace (broadcast_message (λ _ _, false) (lit "hi") (Some 1%nat) three_clients)
  = [Sent 2%nat (lit "hi"); Sent 3%nat (lit "hi")].
Proof.
  destruct (broadcast_reaches_each_client_once (λ _ _, false) (lit "hi")
              (Some 1%nat) three_clients
              (trace (broadcast_message (λ _ _, false) (lit "hi") (Some 1%nat)
                        three_clients))) as [H _].
  - reflexivity.
  - no_failed.
  - rewrite H. by vm_compute.
Defined.

Lemma group_message_reaches_each_member_once_witness :
  trace (state_of (send_group_message (λ _ _, false) (lit "hi") (lit "g")
                     (Some 2%nat) three_clients))
  = [Sent 3%nat (lit "hi")].
Proof.
  destruct (group_message_reaches_each_member_once (λ _ _, false) (lit "hi")
              (lit "g") (Some 2%nat) [2%nat; 3%nat] three_clients
              (trace (state_of (send_group_message (λ _ _, false) (lit "hi")
                                  (lit "g") (Some 2%nat) three_clients))))
    as [H _].
  - reflexivity.
  - reflexivity.
  - no_failed.
  - rewrite H. by vm_compute.
Defined.

Lemma tcp_download_sends_the_file_in_blocks_witness :
  ∃ blocks,
    concat blocks = small_file ∧
    Forall (λ b, (0 < length b ≤ 4096)%nat) blocks ∧
    tcp_download
    = Sent 2%nat (lit "DOWNLOAD_START:" ++ lit "f.txt" ++ lit ":" ++ str_of_int 3)
        :: concat (block_events 2%nat <$> blocks)
        ++ [Sent 2%nat (lit "DOWNLOAD_COMPLETE:" ++ lit "f.txt" ++ lit ":"
                          ++ str_of_int 3)].
Proof.
  apply (tcp_download_sends_the_file_in_blocks (λ _ _, false) [] 2%nat small_file
           (lit "f.txt") 3 three_clients tcp_download).
  - reflexivity.
  - no_failed.
Defined.

Lemma udp_download_sends_every_chunk_witness :
  ∃ datagrams,
    Datagram.file_datagrams small_file = Some (datagrams, true) ∧
    udp_download
    = [Sent 2%nat (lit "DOWNLOAD_START_UDP:" ++ lit "f.txt" ++ lit ":"
                     ++ str_of_int 3);
       Sent 2%nat (lit "UDP_PORT:" ++ str_of_int (port three_clients + 1))]
      ++ (SentTo (address (ClientInfo (lit "alice") (lit "10.0.0.2", 40002))).1
                 (port three_clients + 1) <$> datagrams)
      ++ [Sent 2%nat (lit "DOWNLOAD_COMPLETE_UDP:" ++ lit "f.txt" ++ lit ":"
                        ++ str_of_int 3)].
Proof.
  apply (udp_download_sends_every_chunk (λ _ _, false) [] 2%nat
           (ClientInfo (lit "alice") (lit "10.0.0.2", 40002)) small_file
           (lit "f.txt") 3 three_clients udp_download).
  - reflexivity.
  - by vm_compute.
  - by_evaluation.
  - reflexivity.
  - no_failed.
Defined.

Lemma udp_download_fails_past_the_last_port_witness :
  trace (state_of (send_file_udp (λ _ _, false)
                     (lit "sendto(): port must be 0-65535.") 2%nat small_file
                     (lit "f.txt") 3 on_last_port))
  = [Sent 2%nat (lit "DOWNLOAD_START_UDP:" ++ lit "f.txt" ++ lit ":"
                   ++ str_of_int 3);
     Sent 2%nat (lit "UDP_PORT:" ++ str_of_int (port on_last_port + 1));
     Sent 2%nat (lit "ERROR: Failed to send file via UDP: "
                   ++ lit "sendto(): port must be 0-65535.")].
Proof.
  apply (udp_download_fails_past_the_last_port (λ _ _, false)
           (lit "sendto(): port must be 0-65535.") 2%nat
           (ClientInfo (lit "alice") (lit "10.0.0.2", 40002)) small_file
           (lit "f.txt") 3 on_last_port).
  - reflexivity.
  - discriminate.
  - by_evaluation.
  - reflexivity.
  - no_failed.
Defined.

Lemma tcp_download_arrives_witness :
  Client.files
    (Client.receive_messages decimal_int (λ _, false) (λ _, false) 2
       (connected (Client.wire_of 2%nat tcp_download)))
  = [(lit "f.txt", small_file)].
Proof.
  destruct (tcp_download_arrives (λ _ _, false) [] decimal_int (λ _, false)
              (λ _, false) 2%nat small_file (lit "f.txt") three_clients
              tcp_download (connected (Client.wire_of 2%nat tcp_download)))
    as [H _].
  - reflexivity.
  - no_failed.
  - by_evaluation.
  - by vm_compute.
  - reflexivity.
  - reflexivity.
  - reflexivity.
  - exact H.
Defined.

Lemma udp_download_arrives_witness :
  ∃ c',
    Client.receive_file_udp (λ _, false)
      (Datagram.SockTimeout
         :: (Datagram.Datagram <$> Client.datagrams_to 5001 udp_download))
      (Client.receive_messages decimal_int (λ _, false) (λ _, false) 3
         (connected (Client.wire_of 2%nat udp_download)))
    = Some c' ∧
    Client.files c' = [(lit "f.txt", small_file)].
Proof.
  destruct (udp_download_arrives (λ _ _, false) [] decimal_int (λ _, false)
              (λ _, false) 2%nat (ClientInfo (lit "alice") (lit "10.0.0.2", 40002))
              small_file (lit "f.txt") three_clients udp_download
              (Datagram.SockTimeout
                 :: (Datagram.Datagram <$> Client.datagrams_to 5001 udp_download))
              (connected (Client.wire_of 2%nat udp_download)))
    as (_ & _ & _ & c' & Hc' & Hfiles & _).
  - reflexivity.
  - by vm_compute.
  - by_evaluation.
  - reflexivity.
  - no_failed.
  - by_evaluation.
  - by vm_compute.
  - by vm_compute.
  - reflexivity.
  - reflexivity.
  - reflexivity.
  - reflexivity.
  - not_among.
  - vm_compute. reflexivity.
  - exists c'. split; [exact Hc' | exact Hfiles].
Defined.

Lemma quit_unregisters_witness :
  Channel.receive_message
    (Client.outbox (Client.handle_input_line ascii_upper (lit " /quit") (connected [])))
  = (Some (lit "/LEAVE"), []) ∧
  ¬ registered 2%nat (remove_client flaky_link 2%nat three_clients).
Proof.
  destruct (quit_unregisters flaky_link ascii_upper (Some []) (λ _, None) []
              (lit " /quit") (connected []) 2%nat three_clients)
    as (_ & Hrecv & _ & Hgone).
  - by vm_compute.
  - left. by vm_compute.
  - by vm_compute.
  - reflexivity.
  - split; [exact Hrecv | exact Hgone].
Defined.

Lemma download_sends_data_only_for_regular_files_witness :
  (∃ content,
     one_file (lit "f.txt") = Some (Regular content) ∧
     (ascii_upper (lit "tcp") = lit "TCP" ∨ ascii_upper (lit "tcp") = lit "UDP")) ∧
  ([Sent 2%nat (lit "ERROR: File '../g.txt' not found")]
   = [Sent 2%nat (lit "ERROR: File '" ++ lit "../g.txt" ++ lit "' not found")] ∨
   [Sent 2%nat (lit "ERROR: File '../g.txt' not found")] = [SendFailed 2%nat]).
Proof.
  split.
  - apply (download_sends_data_only_for_regular_files (λ _ _, false) ascii_upper
             one_file [] 2%nat (lit "f.txt") (lit "tcp") three_clients
             tcp_download); [reflexivity|].
    exists (SentBlock 2%nat small_file). split; [by_evaluation | done].
  - apply (download_sends_data_only_for_regular_files (λ _ _, false) ascii_upper
             one_file [] 2%nat (lit "../g.txt") (lit "tcp") three_clients
             [Sent 2%nat (lit "ERROR: File '../g.txt' not found")]);
      reflexivity.
Defined.

Lemma malformed_size_stops_the_client_witness :
  Client.receive_messages decimal_int (λ _, false) (λ _, false) 3
    (connected (Client.frame (lit "DOWNLOAD_START:f.txt:big") ++ [[x00]]))
  = Client.stop
      (Client.print Client.ReceiveError
         (Client.set_inbox [[x00]]
            (connected (Client.frame (lit "DOWNLOAD_START:f.txt:big") ++ [[x00]])))).
Proof.
  apply (malformed_size_stops_the_client decimal_int (λ _, false) (λ _, false)
           (lit "f.txt") (lit "big") [[x00]]
           (connected (Client.frame (lit "DOWNLOAD_START:f.txt:big") ++ [[x00]])) 2).
  - by_evaluation.
  - by_evaluation.
  - by vm_compute.
  - vm_compute. by eexists.
  - reflexivity.
  - reflexivity.
Defined.

End Runs.
